(** * Schema Viewer: parser, graph engine, selection and search

    A shallow embedding of the Schema Viewer modules
    ([parser.js], [graph.js], [sidebar.js], [search.js], [utils.js] and the
    schema loading part of [app.js]) together with the properties of the
    graph state that the specification states about them.

    Conventions of the embedding.
    - A JavaScript string is a [string]; the case mappings and character
      classes are the ASCII ones and leave every other character unchanged.
    - A value produced by [JSON.parse] is a [value]; a [TypeError] raised by
      the code is the result [None] (parser, search) or [Throw] (the
      operations on the shared state, which keep the mutations done so far).
    - A JavaScript [Map] is the list of its entries in insertion order and a
      [Set] the list of its elements in insertion order.
    - The browser is observed through the URL search parameters and through
      the sequence of calls made on the page ([Dom.effect]).
    - The node map holds every node under its id, as [parseSchema] builds
      it and nothing else writes it: the node data of a redraw carry the
      displayed ids.
    - The rendering of the sidebar is observed as an effect only and a raise
      inside it is not followed: [selectNode] and [selectLink] write the
      selection and the URL before they render, so of an operation that
      renders the sidebar the development states the state it leaves and
      not that it returns. *)

From Stdlib Require Import String Ascii List ZArith Lia Bool Sorted.
From Stdlib Require Import DecimalString.
Import ListNotations.

Local Open Scope string_scope.
Local Open Scope list_scope.
Local Open Scope Z_scope.

Set Implicit Arguments.
Set Warnings "-register-all".

(* ------------------------------------------------------------------ *)
(** ** JavaScript strings *)

Module Str.

Definition code (c : ascii) : nat := nat_of_ascii c.

Definition between (lo hi : nat) (c : ascii) : bool :=
  (Nat.leb lo (code c) && Nat.leb (code c) hi)%bool.

Definition isUpper (c : ascii) : bool := between 65 90 c.
Definition isLower (c : ascii) : bool := between 97 122 c.
Definition isDigit (c : ascii) : bool := between 48 57 c.

(** The class [\w] of a regular expression without the [u] flag. *)
Definition isWord (c : ascii) : bool :=
  (isUpper c || isLower c || isDigit c || Ascii.eqb c "_")%bool.

(** White space removed by [trim]. *)
Definition isSpace (c : ascii) : bool :=
  (between 9 13 c || Ascii.eqb c " ")%bool.

(** Line terminators, which [.] does not match. *)
Definition isLineTerminator (c : ascii) : bool :=
  (Nat.eqb (code c) 10 || Nat.eqb (code c) 13)%bool.

Definition lowerChar (c : ascii) : ascii :=
  if isUpper c then ascii_of_nat (code c + 32) else c.

Definition upperChar (c : ascii) : ascii :=
  if isLower c then ascii_of_nat (code c - 32) else c.

Fixpoint map (f : ascii -> ascii) (s : string) : string :=
  match s with
  | EmptyString => EmptyString
  | String c s' => String (f c) (map f s')
  end.

Definition toLowerCase (s : string) : string := map lowerChar s.
Definition toUpperCase (s : string) : string := map upperChar s.

(** [s.startsWith(q)] *)
Definition startsWith (q s : string) : bool := String.prefix q s.

(** [s.includes(q)] *)
Fixpoint includes (q s : string) : bool :=
  (String.prefix q s ||
   match s with
   | EmptyString => false
   | String _ s' => includes q s'
   end)%bool.

(** [s.split(sep)] for a one-character separator: never empty. *)
Fixpoint split (sep : ascii) (s : string) : list string :=
  match s with
  | EmptyString => [EmptyString]
  | String c s' =>
      if Ascii.eqb c sep then EmptyString :: split sep s'
      else match split sep s' with
           | [] => [String c EmptyString]
           | p :: ps => String c p :: ps
           end
  end.

(** [parts.join(sep)] *)
Definition join (sep : string) (parts : list string) : string :=
  String.concat sep parts.

(** [parts.pop()] on the result of a [split]. *)
Definition pop (parts : list string) : string := List.last parts EmptyString.

Fixpoint trimStart (s : string) : string :=
  match s with
  | EmptyString => EmptyString
  | String c s' => if isSpace c then trimStart s' else s
  end.

Fixpoint trimEnd (s : string) : string :=
  match s with
  | EmptyString => EmptyString
  | String c s' =>
      match trimEnd s' with
      | EmptyString => if isSpace c then EmptyString else String c EmptyString
      | t => String c t
      end
  end.

Definition trim (s : string) : string := trimEnd (trimStart s).

Fixpoint drop (n : nat) (s : string) : string :=
  match n, s with
  | O, _ => s
  | S _, EmptyString => EmptyString
  | S n', String _ s' => drop n' s'
  end.

(** The longest prefix made of word characters: a greedy [\w*]. *)
Fixpoint takeWord (s : string) : string :=
  match s with
  | EmptyString => EmptyString
  | String c s' => if isWord c then String c (takeWord s') else EmptyString
  end.

Definition isEmpty (s : string) : bool :=
  match s with EmptyString => true | _ => false end.

(** [s.match(/#\/definitions\/(\w+)/)]: the first capture group of the
    leftmost match, [None] when the expression does not match. *)
Fixpoint matchDefinitions (s : string) : option string :=
  let here :=
    if String.prefix "#/definitions/" s
    then let w := takeWord (drop 14 s) in
         if isEmpty w then None else Some w
    else None in
  match here with
  | Some w => Some w
  | None =>
      match s with
      | EmptyString => None
      | String _ s' => matchDefinitions s'
      end
  end.

(** Decimal rendering of an array index. *)
Definition ofIndex (i : nat) : string :=
  NilZero.string_of_uint (Nat.to_uint i).

End Str.

(* ------------------------------------------------------------------ *)
(** ** [Map] and [Set] with string keys, in insertion order *)

Module JsMap.

Definition t (V : Type) : Type := list (string * V).

Fixpoint get {V} (m : t V) (k : string) : option V :=
  match m with
  | [] => None
  | (k', v) :: m' => if String.eqb k' k then Some v else get m' k
  end.

Definition has {V} (m : t V) (k : string) : bool :=
  match get m k with Some _ => true | None => false end.

(** [m.set(k, v)]: an existing key keeps its place. *)
Fixpoint set {V} (m : t V) (k : string) (v : V) : t V :=
  match m with
  | [] => [(k, v)]
  | (k', v') :: m' =>
      if String.eqb k' k then (k, v) :: m' else (k', v') :: set m' k v
  end.

Definition keys {V} (m : t V) : list string := List.map fst m.

End JsMap.

Module JsSet.

Definition t : Type := list string.

Definition has (s : t) (x : string) : bool := existsb (String.eqb x) s.

Definition add (s : t) (x : string) : t := if has s x then s else s ++ [x].

End JsSet.

(* ------------------------------------------------------------------ *)
(** ** Values of a parsed JSON document *)

Inductive value : Type :=
| VUndefined
| VNull
| VBool (b : bool)
| VNum (n : Z)
| VStr (s : string)
| VArr (items : list value)
| VObj (fields : list (string * value)).

Module Js.

Definition truthy (v : value) : bool :=
  match v with
  | VUndefined | VNull => false
  | VBool b => b
  | VNum n => negb (Z.eqb n 0)
  | VStr s => negb (Str.isEmpty s)
  | VArr _ | VObj _ => true
  end.

(** [a || b] *)
Definition or (a b : value) : value := if truthy a then a else b.

(** [v === 'lit'] *)
Definition isStr (v : value) (lit : string) : bool :=
  match v with VStr s => String.eqb s lit | _ => false end.

Fixpoint indexed {A} (i : nat) (l : list A) : list (string * A) :=
  match l with
  | [] => []
  | x :: l' => (Str.ofIndex i, x) :: indexed (S i) l'
  end.

Fixpoint chars (s : string) : list value :=
  match s with
  | EmptyString => []
  | String c s' => VStr (String c EmptyString) :: chars s'
  end.

(** The own enumerable string-keyed properties, as [Object.entries] lists
    them; the fields of an object are kept in that order. *)
Definition ownEntries (v : value) : list (string * value) :=
  match v with
  | VObj fields => fields
  | VArr items => indexed 0 items
  | VStr s => indexed 0 (chars s)
  | _ => []
  end.

Definition nullish (v : value) : bool :=
  match v with VUndefined | VNull => true | _ => false end.

(** [Object.entries(v)]: a [TypeError] on [null] and [undefined]. *)
Definition entries (v : value) : option (list (string * value)) :=
  if nullish v then None else Some (ownEntries v).

(** [v.k] and [v[k]] for the keys the viewer reads (schema keywords and
    keys listed by [Object.entries]); none of them is a built-in property.
    A [TypeError] on [null] and [undefined]. *)
Definition get (v : value) (k : string) : option value :=
  if nullish v then None
  else Some (match JsMap.get (ownEntries v) k with
             | Some x => x
             | None => VUndefined
             end).

(** [v?.k] *)
Definition getOpt (v : value) (k : string) : value :=
  match get v k with Some x => x | None => VUndefined end.

(** [for (const x of v)]: strings and arrays are the iterable values. *)
Definition iterate (v : value) : option (list value) :=
  match v with
  | VArr items => Some items
  | VStr s => Some (chars s)
  | _ => None
  end.

(** [v.match(/#\/definitions\/(\w+)/)]; only a string has [match]. *)
Definition matchDefinitions (v : value) : option (option string) :=
  match v with
  | VStr s => Some (Str.matchDefinitions s)
  | _ => None
  end.

End Js.

(** Sequencing of computations that may raise. *)
Notation "x <- e ;; k" :=
  (match e with Some x => k | None => None end)
    (at level 61, e at next level, right associativity).

(* ------------------------------------------------------------------ *)
(** ** Data model *)

Inductive RelationType : Type := composition | association.

Module Relation.
Record t : Type := mk {
  type : RelationType;
  target : string;
  property : string;
  isArray : bool;
  via : value;
  description : value
}.
End Relation.

Module Node.
Record t : Type := mk {
  id : string;
  name : value;
  type : value;
  umsType : value;
  title : value;
  description : value;
  properties : value;
  required : value;
  recommended : value;
  relations : list Relation.t;
  examples : value;
  xProperties : value;
  rawSchema : value
}.

(** [node.relations.push(...rels)] *)
Definition pushRelations (n : t) (rels : list Relation.t) : t :=
  mk (id n) (name n) (type n) (umsType n) (title n) (description n)
     (properties n) (required n) (recommended n) (relations n ++ rels)
     (examples n) (xProperties n) (rawSchema n).
End Node.

Definition NodeMap : Type := JsMap.t Node.t.

(* ------------------------------------------------------------------ *)
(** ** utils.js: formatName and toSlug *)

Module Utils.

(** [name.replace(/([A-Z])/g, ' $1')] *)
Fixpoint spaceBeforeUpper (s : string) : string :=
  match s with
  | EmptyString => EmptyString
  | String c s' =>
      if Str.isUpper c then String " " (String c (spaceBeforeUpper s'))
      else String c (spaceBeforeUpper s')
  end.

(** [s.replace(/^./, (str) => str.toUpperCase())] *)
Definition upperFirst (s : string) : string :=
  match s with
  | EmptyString => EmptyString
  | String c s' =>
      if Str.isLineTerminator c then s else String (Str.upperChar c) s'
  end.

Definition formatName (name : string) : string :=
  Str.trim (upperFirst (spaceBeforeUpper name)).

(** [s.replace(/\s+/g, '-')] and [s.replace(/--+/g, '-')]: every maximal
    run of characters of the class becomes one hyphen; [inRun] tells that
    the character before belongs to the run. *)
Fixpoint collapse (inClass : ascii -> bool) (inRun : bool) (s : string)
  : string :=
  match s with
  | EmptyString => EmptyString
  | String c s' =>
      if inClass c
      then if inRun then collapse inClass true s'
           else String "-" (collapse inClass true s')
      else String c (collapse inClass false s')
  end.

Definition isHyphen (c : ascii) : bool := Ascii.eqb c "-".

(** [s.replace(/[^\w-]+/g, '')] *)
Fixpoint keepWordOrHyphen (s : string) : string :=
  match s with
  | EmptyString => EmptyString
  | String c s' =>
      if (Str.isWord c || isHyphen c)%bool
      then String c (keepWordOrHyphen s')
      else keepWordOrHyphen s'
  end.

(** [s.replace(/^-+/, '')] *)
Fixpoint stripStart (s : string) : string :=
  match s with
  | EmptyString => EmptyString
  | String c s' => if isHyphen c then stripStart s' else s
  end.

(** [s.replace(/-+$/, '')] *)
Fixpoint stripEnd (s : string) : string :=
  match s with
  | EmptyString => EmptyString
  | String c s' =>
      match stripEnd s' with
      | EmptyString =>
          if isHyphen c then EmptyString else String c EmptyString
      | t => String c t
      end
  end.

(** [toSlug(text)] for a string [text]. *)
Definition toSlug (text : string) : string :=
  if Str.isEmpty text then EmptyString
  else
    stripEnd
      (stripStart
         (collapse isHyphen false
            (keepWordOrHyphen
               (collapse Str.isSpace false
                  (Str.trim (Str.toLowerCase text)))))).

End Utils.

(* ------------------------------------------------------------------ *)
(** ** parser.js *)

Module Parser.

(** [extractXProperties(obj)] *)
Definition extractXProperties (obj : value) : option value :=
  es <- Js.entries obj ;;
  Some (VObj (filter
                (fun kv => (Str.startsWith "x-" (fst kv) &&
                            negb (String.eqb (fst kv) "x-ums-type"))%bool)
                es)).

(** [mapUmsType(type, id, isRoot = false)] *)
Definition mapUmsType (type : value) (id : string) (isRoot : bool) : value :=
  if (isRoot && negb (Js.truthy type))%bool then VStr "root"
  else if (Js.isStr type "embedded" || Js.isStr type "custom")%bool
       then VStr "subentity"
  else if Js.isStr type "ignore"
       then (if Str.startsWith "System" id
             then VStr "external_ownership" else VStr "ephemeral")
  else Js.or type (VStr "root").

(** [extractRefTarget(ref)] and [extractAssociationTarget(target)] share
    one expression; [None] is the [TypeError] of a value without
    [match], [Some None] is the result [null]. *)
Definition extractRefTarget (ref : value) : option (option string) :=
  Js.matchDefinitions ref.

Definition extractAssociationTarget (target : value)
  : option (option string) :=
  Js.matchDefinitions target.

(** The guard [if (target && allNodes.has(target))] around a [push]. *)
Definition pushIfKnown (allNodes : NodeMap) (target : option string)
           (mkRel : string -> Relation.t) : list Relation.t :=
  match target with
  | Some t =>
      if (negb (Str.isEmpty t) && JsMap.has allNodes t)%bool
      then [mkRel t] else []
  | None => []
  end.

(** The loop [for (const assocTarget of targets)] of the two association
    cases. *)
Fixpoint associations (allNodes : NodeMap) (propName : string)
         (isArray : bool) (description : value) (targets : list value)
  : option (list Relation.t) :=
  match targets with
  | [] => Some []
  | assocTarget :: rest =>
      target <- extractAssociationTarget assocTarget ;;
      more <- associations allNodes propName isArray description rest ;;
      Some (pushIfKnown allNodes target
              (fun t => Relation.mk association t propName isArray
                                    assocTarget description)
            ++ more)
  end.

(** The body of the loop of [extractRelations] for one property: the
    relations it pushes, in order. *)
Definition propertyRelations (allNodes : NodeMap) (propName : string)
           (propDef : value) : option (list Relation.t) :=
  ref <- Js.get propDef "$ref" ;;
  description <- Js.get propDef "description" ;;
  items <- Js.get propDef "items" ;;
  assoc <- Js.get propDef "x-association-target" ;;
  let itemsRef := Js.getOpt items "$ref" in
  let itemsAssoc := Js.getOpt items "x-association-target" in
  direct <-
    (if Js.truthy ref
     then target <- extractRefTarget ref ;;
          Some (pushIfKnown allNodes target
                  (fun t => Relation.mk composition t propName false
                              VUndefined (Js.or description (VStr ""))))
     else Some []) ;;
  array <-
    (if Js.truthy itemsRef
     then target <- extractRefTarget itemsRef ;;
          Some (pushIfKnown allNodes target
                  (fun t => Relation.mk composition t propName true
                              VUndefined (Js.or description (VStr ""))))
     else Some []) ;;
  assocs <-
    (if Js.truthy assoc
     then targets <- Js.iterate assoc ;;
          associations allNodes propName false
                       (Js.or description (VStr "")) targets
     else Some []) ;;
  arrayAssocs <-
    (if Js.truthy itemsAssoc
     then targets <- Js.iterate itemsAssoc ;;
          associations allNodes propName true
            (Js.or (Js.getOpt items "description")
                   (Js.or description (VStr ""))) targets
     else Some []) ;;
  Some (direct ++ array ++ assocs ++ arrayAssocs).

Fixpoint relationsOf (allNodes : NodeMap) (props : list (string * value))
  : option (list Relation.t) :=
  match props with
  | [] => Some []
  | (propName, propDef) :: rest =>
      here <- propertyRelations allNodes propName propDef ;;
      more <- relationsOf allNodes rest ;;
      Some (here ++ more)
  end.

(** [extractRelations(sourceNode, properties, allNodes)]: the relations
    pushed onto [sourceNode.relations]. *)
Definition extractRelations (properties : value) (allNodes : NodeMap)
  : option (list Relation.t) :=
  props <- Js.entries properties ;;
  relationsOf allNodes props.

(** [schema.examples || (schema.example ? [schema.example] : [])] *)
Definition examplesOf (examples example : value) : value :=
  Js.or examples (if Js.truthy example then VArr [example] else VArr []).

Definition rootNodeOf (schema : value) (schemaName : string)
  : option Node.t :=
  title <- Js.get schema "title" ;;
  umsType <- Js.get schema "x-ums-type" ;;
  description <- Js.get schema "description" ;;
  properties <- Js.get schema "properties" ;;
  required <- Js.get schema "required" ;;
  recommended <- Js.get schema "x-recommended" ;;
  examples <- Js.get schema "examples" ;;
  example <- Js.get schema "example" ;;
  xProperties <- extractXProperties schema ;;
  Some (Node.mk schemaName
          (Js.or title (VStr ("ORD " ++ schemaName)))
          (VStr "root")
          (mapUmsType (Js.or umsType (VStr "root")) schemaName true)
          VUndefined
          (Js.or description (VStr ""))
          (Js.or properties (VObj []))
          (Js.or required (VArr []))
          (Js.or recommended (VArr []))
          []
          (examplesOf examples example)
          xProperties
          schema).

Definition definitionNodeOf (name : string) (def : value)
  : option Node.t :=
  type <- Js.get def "type" ;;
  umsType <- Js.get def "x-ums-type" ;;
  title <- Js.get def "title" ;;
  description <- Js.get def "description" ;;
  properties <- Js.get def "properties" ;;
  required <- Js.get def "required" ;;
  recommended <- Js.get def "x-recommended" ;;
  examples <- Js.get def "examples" ;;
  example <- Js.get def "example" ;;
  xProperties <- extractXProperties def ;;
  Some (Node.mk name
          (VStr (Utils.formatName name))
          (Js.or type (VStr "object"))
          (mapUmsType (Js.or umsType (VStr "default")) name false)
          (Js.or title (VStr name))
          (Js.or description (VStr ""))
          (Js.or properties (VObj []))
          (Js.or required (VArr []))
          (Js.or recommended (VArr []))
          []
          (examplesOf examples example)
          xProperties
          def).

(** The loop [for (const [name, def] of Object.entries(definitions))]. *)
Fixpoint addDefinitions (defs : list (string * value)) (nodes : NodeMap)
  : option NodeMap :=
  match defs with
  | [] => Some nodes
  | (name, def) :: rest =>
      node <- definitionNodeOf name def ;;
      addDefinitions rest (JsMap.set nodes name node)
  end.

(** [node.relations.push(...)] on the node object stored under [name]. *)
Definition pushRelations (nodes : NodeMap) (name : string)
           (rels : list Relation.t) : NodeMap :=
  match JsMap.get nodes name with
  | Some node => JsMap.set nodes name (Node.pushRelations node rels)
  | None => nodes
  end.

(** The loop [for (const [name, node] of nodes)] that extracts the
    relations of every definition; [allNodes] is the map it iterates. *)
Fixpoint extractAll (definitions : value) (rootId : string)
         (names : list string) (nodes : NodeMap) : option NodeMap :=
  match names with
  | [] => Some nodes
  | name :: rest =>
      if String.eqb name rootId then extractAll definitions rootId rest nodes
      else
        let def := Js.getOpt definitions name in
        let properties := Js.getOpt def "properties" in
        if Js.truthy properties
        then rels <- extractRelations properties nodes ;;
             extractAll definitions rootId rest
                        (pushRelations nodes name rels)
        else extractAll definitions rootId rest nodes
  end.

(** [parseSchema(schema, schemaName)].  The object [rootNode] receives the
    relations of the root; it is the entry of the map under [rootId]
    unless a definition of that name has replaced it. *)
Definition parseSchema (schema : value) (schemaName : string)
  : option NodeMap :=
  definitionsProp <- Js.get schema "definitions" ;;
  let definitions := Js.or definitionsProp (VObj []) in
  let rootId := schemaName in
  rootNode <- rootNodeOf schema schemaName ;;
  let nodes := JsMap.set [] rootId rootNode in
  defs <- Js.entries definitions ;;
  nodes <- addDefinitions defs nodes ;;
  rootRels <- extractRelations (Js.or (Js.getOpt schema "properties")
                                      (VObj [])) nodes ;;
  let nodes :=
    if JsMap.has defs rootId then nodes
    else pushRelations nodes rootId rootRels in
  extractAll definitions rootId (JsMap.keys nodes) nodes.

End Parser.

(* ------------------------------------------------------------------ *)
(** ** state.js: the shared state *)

Module Link.
Record t : Type := mk {
  id : string;
  source : string;
  target : string;
  type : RelationType;
  property : string;
  isArray : bool;
  via : value
}.
End Link.

Module Dom.
(** The calls made on the page, in the order they are made. *)
Inductive effect : Type :=
| render                                (* the redraw of [updateGraph] *)
| classNodes (selected : option string) (* class 'selected' on nodes *)
| classLinks (selected : option string) (* class 'selected' on links *)
| sidebarNode (nodeId : string)         (* node details shown *)
| sidebarLink (linkId : string)         (* link details shown *)
| sidebarEmpty                          (* sidebar collapsed, empty state *)
| sidebarError.                         (* the fetch-failure panel *)
End Dom.

Module Url.
(** The search parameters of [window.location]. *)
Definition t : Type := list (string * string).

Definition get (u : t) (k : string) : option string := JsMap.get u k.

Definition delete (u : t) (k : string) : t :=
  filter (fun kv => negb (String.eqb (fst kv) k)) u.

(** [searchParams.set(k, v)]: the first entry named [k] takes the value
    and the others are removed; a new entry is appended. *)
Fixpoint set (u : t) (k v : string) : t :=
  match u with
  | [] => [(k, v)]
  | (k', v') :: u' =>
      if String.eqb k' k then (k, v) :: delete u' k
      else (k', v') :: set u' k v
  end.
End Url.

Record State : Type := mkState {
  schema : value;
  nodes : NodeMap;
  displayedNodes : JsSet.t;
  displayedLinks : list Link.t;
  selectedNode : option string;
  selectedLink : option string;
  onNodeSelect : bool;      (* the app entry has installed [selectNode] *)
  currentSchemaName : string;
  url : Url.t;
  dom : list Dom.effect
}.

(** The state of [state.js] when the page is loaded with the search
    parameters [u], before the app entry runs. *)
Definition initialState (u : Url.t) : State :=
  mkState VNull [] [] [] None None false "Document" u [].

Definition setSchema (x : value) (st : State) : State :=
  mkState x (nodes st) (displayedNodes st) (displayedLinks st)
          (selectedNode st) (selectedLink st) (onNodeSelect st)
          (currentSchemaName st) (url st) (dom st).

Definition setNodes (x : NodeMap) (st : State) : State :=
  mkState (schema st) x (displayedNodes st) (displayedLinks st)
          (selectedNode st) (selectedLink st) (onNodeSelect st)
          (currentSchemaName st) (url st) (dom st).

Definition setDisplayedNodes (x : JsSet.t) (st : State) : State :=
  mkState (schema st) (nodes st) x (displayedLinks st)
          (selectedNode st) (selectedLink st) (onNodeSelect st)
          (currentSchemaName st) (url st) (dom st).

Definition setDisplayedLinks (x : list Link.t) (st : State) : State :=
  mkState (schema st) (nodes st) (displayedNodes st) x
          (selectedNode st) (selectedLink st) (onNodeSelect st)
          (currentSchemaName st) (url st) (dom st).

Definition setSelectedNode (x : option string) (st : State) : State :=
  mkState (schema st) (nodes st) (displayedNodes st) (displayedLinks st)
          x (selectedLink st) (onNodeSelect st)
          (currentSchemaName st) (url st) (dom st).

Definition setSelectedLink (x : option string) (st : State) : State :=
  mkState (schema st) (nodes st) (displayedNodes st) (displayedLinks st)
          (selectedNode st) x (onNodeSelect st)
          (currentSchemaName st) (url st) (dom st).

Definition setOnNodeSelect (x : bool) (st : State) : State :=
  mkState (schema st) (nodes st) (displayedNodes st) (displayedLinks st)
          (selectedNode st) (selectedLink st) x
          (currentSchemaName st) (url st) (dom st).

Definition setCurrentSchemaName (x : string) (st : State) : State :=
  mkState (schema st) (nodes st) (displayedNodes st) (displayedLinks st)
          (selectedNode st) (selectedLink st) (onNodeSelect st)
          x (url st) (dom st).

Definition setUrl (x : Url.t) (st : State) : State :=
  mkState (schema st) (nodes st) (displayedNodes st) (displayedLinks st)
          (selectedNode st) (selectedLink st) (onNodeSelect st)
          (currentSchemaName st) x (dom st).

Definition setDom (x : list Dom.effect) (st : State) : State :=
  mkState (schema st) (nodes st) (displayedNodes st) (displayedLinks st)
          (selectedNode st) (selectedLink st) (onNodeSelect st)
          (currentSchemaName st) (url st) x.

(** [state.displayedNodes.add(id)] *)
Definition addDisplayed (id : string) (st : State) : State :=
  setDisplayedNodes (JsSet.add (displayedNodes st) id) st.

(** [state.displayedLinks.push(link)] *)
Definition pushLink (link : Link.t) (st : State) : State :=
  setDisplayedLinks (displayedLinks st ++ [link]) st.

Definition perform (effects : list Dom.effect) (st : State) : State :=
  setDom (dom st ++ effects) st.

(** Operations that may raise: the state keeps what was done before. *)
Inductive outcome (A : Type) : Type :=
| Done (a : A)
| Throw.
Arguments Done {A} a.
Arguments Throw {A}.

Definition M (A : Type) : Type := State -> outcome A * State.

Definition ret {A} (a : A) : M A := fun st => (Done a, st).

Definition bind {A B} (m : M A) (k : A -> M B) : M B :=
  fun st =>
    match m st with
    | (Done a, st') => k a st'
    | (Throw, st') => (Throw, st')
    end.

Definition lift (f : State -> State) : M unit := fun st => (Done tt, f st).

Definition liftR {A} (f : State -> A * State) : M A :=
  fun st => let (a, st') := f st in (Done a, st').

Definition read {A} (f : State -> A) : M A := fun st => (Done (f st), st).

Definition when (b : bool) (m : M unit) : M unit := if b then m else ret tt.

(** [try { m } catch (error) { handler }] *)
Definition tryCatch (m : M unit) (handler : M unit) : M unit :=
  fun st =>
    match m st with
    | (Done a, st') => (Done a, st')
    | (Throw, st') => handler st'
    end.

Definition exec {A} (m : M A) (st : State) : State := snd (m st).

Notation "x <~ e ;; k" := (bind e (fun x => k))
  (at level 61, e at next level, right associativity).
Notation "e1 >> e2" := (bind e1 (fun _ => e2))
  (at level 61, right associativity).

(* ------------------------------------------------------------------ *)
(** ** utils.js: updateURL *)

(** [updateURL(params)]; a parameter is [None] for [null] and the string of
    its value otherwise. *)
Definition paramTruthy (params : list (string * option string)) (k : string)
  : bool :=
  match JsMap.get params k with
  | Some (Some v) => negb (Str.isEmpty v)
  | _ => false
  end.

Definition applyParam (u : Url.t) (kv : string * option string) : Url.t :=
  match snd kv with
  | None => Url.delete u (fst kv)
  | Some v => Url.set u (fst kv) v
  end.

Definition updateURL (params : list (string * option string)) (st : State)
  : State :=
  let u := url st in
  let u := if paramTruthy params "node" then Url.delete u "link" else u in
  let u := if paramTruthy params "link" then Url.delete u "node" else u in
  let u := match params with
           | [] => Url.delete (Url.delete u "node") "link"
           | _ => u
           end in
  setUrl (fold_left applyParam params u) st.

(* ------------------------------------------------------------------ *)
(** ** sidebar.js: the two selection entry points *)

Module Sidebar.

(** [selectNode(nodeId)]: the state the call leaves.  The rendering of
    the node details ([Dom.sidebarNode]) is its last step. *)
Definition selectNode (nodeId : string) (st : State) : State :=
  let st := setSelectedNode (Some nodeId) st in
  let st := setSelectedLink None st in
  match JsMap.get (nodes st) nodeId with
  | None => st
  | Some node =>
      let st := updateURL [("node", Some nodeId)] st in
      perform [Dom.classNodes (Some nodeId); Dom.classLinks None;
               Dom.sidebarNode (Node.id node)] st
  end.

(** [selectLink(linkId)]: the state the call leaves.  The rendering of
    the link details ([Dom.sidebarLink]) is its last step. *)
Definition selectLink (linkId : string) (st : State) : State :=
  let st := setSelectedLink (Some linkId) st in
  let st := setSelectedNode None st in
  match find (fun l => String.eqb (Link.id l) linkId) (displayedLinks st) with
  | None => st
  | Some link =>
      let st := perform [Dom.classNodes None;
                         Dom.classLinks (Some linkId)] st in
      let st := updateURL [("link", Some linkId)] st in
      perform [Dom.sidebarLink (Link.id link)] st
  end.

End Sidebar.

(* ------------------------------------------------------------------ *)
(** ** graph.js *)

Module Reverse.
(** An entry of the result of [getReverseRelations]. *)
Record t : Type := mk {
  source : string;
  sourceName : value;
  type : RelationType;
  property : string;
  isArray : bool;
  via : value;
  description : value
}.
End Reverse.

Module Graph.

(** The composite id [`${source}-${target}-${property}`]. *)
Definition linkId (source target property : string) : string :=
  (source ++ "-" ++ target ++ "-" ++ property)%string.

(** The link object pushed for a relation of [source]. *)
Definition linkOf (source : string) (relation : Relation.t) : Link.t :=
  Link.mk (linkId source (Relation.target relation)
                  (Relation.property relation))
          source (Relation.target relation) (Relation.type relation)
          (Relation.property relation) (Relation.isArray relation)
          (Relation.via relation).

(** The link object pushed for a reverse relation towards [target]. *)
Definition linkOfReverse (target : string) (reverse : Reverse.t) : Link.t :=
  Link.mk (linkId (Reverse.source reverse) target
                  (Reverse.property reverse))
          (Reverse.source reverse) target (Reverse.type reverse)
          (Reverse.property reverse) (Reverse.isArray reverse)
          (Reverse.via reverse).

(** The test of [expandNode]'s [find]: the three fields. *)
Definition sameEdge (source target property : string) (l : Link.t) : bool :=
  (String.eqb (Link.source l) source &&
   String.eqb (Link.target l) target &&
   String.eqb (Link.property l) property)%bool.

(** The test of the other [find]s: [l.id === linkId]. *)
Definition hasId (id : string) (l : Link.t) : bool :=
  String.eqb (Link.id l) id.

(** The test of [forceLink] on a link: both ends are among the node
    data, which holds one entry for every displayed id. *)
Definition endsDisplayed (shown : JsSet.t) (l : Link.t) : bool :=
  (JsSet.has shown (Link.source l) && JsSet.has shown (Link.target l))%bool.

(** [updateGraph()]: building the node data reads [node.id] of every
    displayed id, a [TypeError] when the id is not in the node map; the
    simulation then resolves the two ends of every displayed link among
    the node data and raises [node not found] for an end that is not
    displayed; the redraw follows.  A node is stored under its id, so
    the ids of the node data are the displayed ids. *)
Definition updateGraph : M unit :=
  fun st =>
    if forallb (JsMap.has (nodes st)) (displayedNodes st)
    then if forallb (endsDisplayed (displayedNodes st)) (displayedLinks st)
         then (Done tt, perform [Dom.render] st)
         else (Throw, st)
    else (Throw, st).

(** The body of the loop of [expandNode] for one relation; [recurse] is
    the call [expandNode(relation.target, depth - 1)]. *)
Definition expandRelation (recurse : string -> State -> State)
           (nodeId : string) (st : State) (relation : Relation.t) : State :=
  if JsMap.has (nodes st) (Relation.target relation) then
    let st :=
      if existsb (sameEdge nodeId (Relation.target relation)
                           (Relation.property relation))
                 (displayedLinks st)
      then st
      else pushLink (linkOf nodeId relation) st in
    if negb (JsSet.has (displayedNodes st) (Relation.target relation))
    then recurse (Relation.target relation) st
    else st
  else st.

(** [expandNode(nodeId, depth)] for [depth] the number of levels left:
    [0] stands for [depth <= 0]. *)
Fixpoint expandLevels (levels : nat) (nodeId : string) (st : State)
  : State :=
  if negb (JsMap.has (nodes st) nodeId) then st
  else
    let st := addDisplayed nodeId st in
    match levels with
    | O => st
    | S levels' =>
        match JsMap.get (nodes st) nodeId with
        | None => st
        | Some node =>
            fold_left (expandRelation (expandLevels levels') nodeId)
                      (Node.relations node) st
        end
    end.

(** [expandNode(nodeId, depth = 1)] for an integer [depth]. *)
Definition expandNode (nodeId : string) (depth : Z) (st : State) : State :=
  expandLevels (Z.to_nat depth) nodeId st.

(** [a || b || c] on strings that may be [null]. *)
Definition firstTruthy (a b : option string) (c : string) : string :=
  match a with
  | Some x => if Str.isEmpty x
              then match b with
                   | Some y => if Str.isEmpty y then c else y
                   | None => c
                   end
              else x
  | None => match b with
            | Some y => if Str.isEmpty y then c else y
            | None => c
            end
  end.

(** [initializeGraph(depth = 1, startNodeId = null)] *)
Definition initializeGraph (depth : Z) (startNodeId : option string)
  : M unit :=
  lift (setDisplayedNodes []) >>
  lift (setDisplayedLinks []) >>
  effectiveStartNode <~
    read (fun st => firstTruthy startNodeId (Url.get (url st) "node")
                                (currentSchemaName st)) ;;
  (if Z.eqb depth 0
   then lift (addDisplayed effectiveStartNode)
   else lift (expandNode effectiveStartNode depth)) >>
  updateGraph.

(** The reverse relations contributed by one entry of the node map. *)
Definition reverseOf (nodeId : string) (entry : string * Node.t)
  : list Reverse.t :=
  let (sourceId, sourceNode) := entry in
  if String.eqb sourceId nodeId then []
  else
    List.map
      (fun relation =>
         Reverse.mk sourceId (Node.name sourceNode)
                    (Relation.type relation) (Relation.property relation)
                    (Relation.isArray relation) (Relation.via relation)
                    (Relation.description relation))
      (filter (fun relation => String.eqb (Relation.target relation) nodeId)
              (Node.relations sourceNode)).

(** [getReverseRelations(nodeId)] *)
Definition getReverseRelations (nodeId : string) (st : State)
  : list Reverse.t :=
  flat_map (reverseOf nodeId) (nodes st).

(** [if (!existingLink) { push(link); added = true }] with the [find] by
    composite id. *)
Definition pushIfAbsent (link : Link.t) (acc : bool * State)
  : bool * State :=
  let (added, st) := acc in
  if existsb (hasId (Link.id link)) (displayedLinks st)
  then (added, st)
  else (true, pushLink link st).

(** [autoAddReverseLinks(nodeId)] *)
Definition autoAddReverseLinks (nodeId : string) (st : State)
  : bool * State :=
  fold_left
    (fun acc reverse =>
       if JsSet.has (displayedNodes (snd acc)) (Reverse.source reverse)
       then pushIfAbsent (linkOfReverse nodeId reverse) acc
       else acc)
    (getReverseRelations nodeId st) (false, st).

(** [autoAddForwardLinks(nodeId)] *)
Definition autoAddForwardLinks (nodeId : string) (st : State)
  : bool * State :=
  match JsMap.get (nodes st) nodeId with
  | None => (false, st)
  | Some node =>
      fold_left
        (fun acc relation =>
           if JsSet.has (displayedNodes (snd acc)) (Relation.target relation)
           then pushIfAbsent (linkOf nodeId relation) acc
           else acc)
        (Node.relations node) (false, st)
  end.

(** [if (state.onNodeSelect) state.onNodeSelect(id)] *)
Definition notifyNodeSelect (id : string) (st : State) : State :=
  if onNodeSelect st then Sidebar.selectNode id st else st.

(** [addRelationToGraph(sourceId, relation)] *)
Definition addRelationToGraph (sourceId : string) (relation : Relation.t)
  : M unit :=
  isNewNode <~ read (fun st => negb (JsSet.has (displayedNodes st)
                                       (Relation.target relation))) ;;
  when isNewNode (lift (addDisplayed (Relation.target relation))) >>
  lift (fun st => snd (pushIfAbsent (linkOf sourceId relation)
                                    (false, st))) >>
  when isNewNode
       (lift (fun st => snd (autoAddReverseLinks
                               (Relation.target relation) st))) >>
  updateGraph >>
  lift (notifyNodeSelect (Relation.target relation)).

(** [addReverseRelationToGraph(targetId, sourceId, property, type)] *)
Definition addReverseRelationToGraph (targetId sourceId property : string)
           (type : RelationType) : M unit :=
  sourceNode <~ read (fun st => JsMap.get (nodes st) sourceId) ;;
  match sourceNode with
  | None => ret tt
  | Some sourceNode =>
      match find (fun r =>
                    (String.eqb (Relation.target r) targetId &&
                     String.eqb (Relation.property r) property &&
                     match Relation.type r, type with
                     | composition, composition => true
                     | association, association => true
                     | _, _ => false
                     end)%bool)
                 (Node.relations sourceNode) with
      | None => ret tt
      | Some relation =>
          lift (addDisplayed sourceId) >>
          lift (fun st =>
                  snd (pushIfAbsent
                         (Link.mk (linkId sourceId targetId property)
                                  sourceId targetId
                                  (Relation.type relation)
                                  (Relation.property relation)
                                  (Relation.isArray relation)
                                  (Relation.via relation))
                         (false, st))) >>
          updateGraph >>
          lift (notifyNodeSelect sourceId)
      end
  end.

(** [if (!displayedNodes.has(id)) { displayedNodes.add(id); added = true }] *)
Definition addIfHidden (id : string) (acc : bool * State) : bool * State :=
  let (added, st) := acc in
  if JsSet.has (displayedNodes st) id then (added, st)
  else (true, addDisplayed id st).

(** The forward loop of [expandAllNeighbors]. *)
Definition expandForward (nodeId : string) (acc : bool * State)
  : bool * State :=
  match JsMap.get (nodes (snd acc)) nodeId with
  | None => acc
  | Some node =>
      fold_left
        (fun acc relation =>
           if JsMap.has (nodes (snd acc)) (Relation.target relation)
           then pushIfAbsent (linkOf nodeId relation)
                             (addIfHidden (Relation.target relation) acc)
           else acc)
        (Node.relations node) acc
  end.

(** The reverse loop of [expandAllNeighbors]. *)
Definition expandReverse (nodeId : string) (acc : bool * State)
  : bool * State :=
  fold_left
    (fun acc reverse =>
       pushIfAbsent (linkOfReverse nodeId reverse)
                    (addIfHidden (Reverse.source reverse) acc))
    (getReverseRelations nodeId (snd acc)) acc.

(** [expandAllNeighbors(nodeId)] *)
Definition expandAllNeighbors (nodeId : string) : M unit :=
  added <~ liftR (fun st =>
                    expandReverse nodeId (expandForward nodeId (false, st))) ;;
  when added updateGraph.

End Graph.

(* ------------------------------------------------------------------ *)
(** ** search.js *)

Module ResultType.
Inductive t : Type := entity | relation | property.
End ResultType.

Module Result.
Record t : Type := mk {
  type : ResultType.t;
  id : string;
  name : string;
  nodeId : option string;
  relation : option Relation.t;
  color : option string;
  meta : value
}.
End Result.

Module Search.

(** [Array.prototype.sort(compare)] for a consistent comparator: the
    stable sort, here by insertion from the right. *)
Section Sort.
Variable A : Type.
Variable compare : A -> A -> Z.

Fixpoint insert (x : A) (l : list A) : list A :=
  match l with
  | [] => [x]
  | y :: l' => if compare x y <=? 0 then x :: l else y :: insert x l'
  end.

Fixpoint sort (l : list A) : list A :=
  match l with
  | [] => []
  | x :: l' => insert x (sort l')
  end.
End Sort.

Section WithCollation.

(** [a.localeCompare(b)], the collation of the browser's locale. *)
Variable localeCompare : string -> string -> Z.

Definition typeWeight (t : ResultType.t) : Z :=
  match t with
  | ResultType.entity => 1
  | ResultType.relation => 2
  | ResultType.property => 3
  end.

(** [a.type === 'entity' ? aLower : aLower.split('.').pop()] *)
Definition matchPart (t : ResultType.t) (lower : string) : string :=
  match t with
  | ResultType.entity => lower
  | _ => Str.pop (Str.split "." lower)
  end.

(** The comparator given to [sort]. *)
Definition compareResults (query : string) (a b : Result.t) : Z :=
  if negb (typeWeight (Result.type a) =? typeWeight (Result.type b))
  then typeWeight (Result.type a) - typeWeight (Result.type b)
  else
    let aLower := Str.toLowerCase (Result.name a) in
    let bLower := Str.toLowerCase (Result.name b) in
    let aMatchPart := matchPart (Result.type a) aLower in
    let bMatchPart := matchPart (Result.type b) bLower in
    let aStartsWith := Str.startsWith query aMatchPart in
    let bStartsWith := Str.startsWith query bMatchPart in
    if (aStartsWith && negb bStartsWith)%bool then -1
    else if (negb aStartsWith && bStartsWith)%bool then 1
    else if negb (Nat.eqb (String.length aLower) (String.length bLower))
    then Z.of_nat (String.length aLower) - Z.of_nat (String.length bLower)
    else localeCompare aLower bLower.

(** The loop over [Object.entries(node.properties)]. *)
Fixpoint propertyResults (query id nodeName : string)
         (relations : list Relation.t) (props : list (string * value))
  : option (list Result.t) :=
  match props with
  | [] => Some []
  | (propName, propDef) :: rest =>
      here <-
        (if Str.includes query (Str.toLowerCase propName)
         then
           let found :=
             find (fun r => String.eqb (Relation.property r) propName)
                  relations in
           description <- Js.get propDef "description" ;;
           Some [Result.mk
                   (match found with
                    | Some _ => ResultType.relation
                    | None => ResultType.property
                    end)
                   (id ++ "-" ++ propName)
                   (nodeName ++ "." ++ propName)
                   (Some id) found None
                   (Js.or description (VStr ""))]
         else Some []) ;;
      more <- propertyResults query id nodeName relations rest ;;
      Some (here ++ more)
  end.

(** The body of the loop over the node map for one entry;
    [node.name.toLowerCase()] needs a string. *)
Definition nodeResults (query : string) (entry : string * Node.t)
  : option (list Result.t) :=
  let (id, node) := entry in
  match Node.name node with
  | VStr nodeName =>
      let nameMatch := Str.includes query (Str.toLowerCase nodeName) in
      let idMatch := Str.includes query (Str.toLowerCase id) in
      let entities :=
        if (nameMatch || idMatch)%bool
        then [Result.mk ResultType.entity id nodeName None None
                        (Some "var(--color-root)")
                        (if negb (String.eqb id nodeName) then VStr id
                         else Js.or (Node.description node) (VStr ""))]
        else [] in
      if Js.truthy (Node.properties node)
      then props <- Js.entries (Node.properties node) ;;
           found <- propertyResults query id nodeName
                                    (Node.relations node) props ;;
           Some (entities ++ found)
      else Some entities
  | _ => None
  end.

Fixpoint collect (query : string) (entries : list (string * Node.t))
  : option (list Result.t) :=
  match entries with
  | [] => Some []
  | entry :: rest =>
      here <- nodeResults query entry ;;
      more <- collect query rest ;;
      Some (here ++ more)
  end.

(** [performSearch(query)] *)
Definition performSearch (query : string) (st : State)
  : option (list Result.t) :=
  results <- collect query (nodes st) ;;
  Some (firstn 50 (sort (compareResults query) results)).

End WithCollation.

(** [handleResultSelection(type, id, nodeId, result)]; the result is the
    link id whose selection the 50 ms timer has scheduled. *)
Definition handleResultSelection (type : ResultType.t)
           (id nodeId : string) (result : Result.t) : M (option string) :=
  match type with
  | ResultType.entity =>
      hidden <~ read (fun st => negb (JsSet.has (displayedNodes st) id)) ;;
      when hidden
           (lift (addDisplayed id) >>
            lift (fun st => snd (Graph.autoAddReverseLinks id st)) >>
            lift (fun st => snd (Graph.autoAddForwardLinks id st)) >>
            Graph.updateGraph) >>
      lift (Sidebar.selectNode id) >>
      ret None
  | ResultType.relation =>
      match Result.relation result with
      | Some rel =>
          lift (addDisplayed nodeId) >>
          Graph.addRelationToGraph nodeId rel >>
          Graph.updateGraph >>
          ret (Some (Graph.linkId nodeId (Relation.target rel)
                                  (Relation.property rel)))
      | None => ret None
      end
  | ResultType.property =>
      hidden <~ read (fun st => negb (JsSet.has (displayedNodes st)
                                        nodeId)) ;;
      when hidden (lift (addDisplayed nodeId) >> Graph.updateGraph) >>
      lift (Sidebar.selectNode nodeId) >>
      ret None
  end.

End Search.

(* ------------------------------------------------------------------ *)
(** ** app.js: applying a fetched schema *)

Module App.

(** The restoration of the link named by the [link] parameter. *)
Definition restoreLink (linkParam : string) : M unit :=
  let parts := Str.split "-" linkParam in
  match parts with
  | sourceId :: targetId :: ((_ :: _) as rest) =>
      let property := Str.join "-" rest in
      changed1 <~ read (fun st => negb (JsSet.has (displayedNodes st)
                                          sourceId)) ;;
      when changed1 (lift (addDisplayed sourceId)) >>
      changed2 <~ read (fun st => negb (JsSet.has (displayedNodes st)
                                          targetId)) ;;
      when changed2 (lift (addDisplayed targetId)) >>
      changed3 <~
        liftR (fun st =>
                 if existsb (Graph.hasId linkParam) (displayedLinks st)
                 then (false, st)
                 else
                   match JsMap.get (nodes st) sourceId with
                   | None => (false, st)
                   | Some sourceNode =>
                       match find
                               (fun r =>
                                  (String.eqb (Relation.target r) targetId &&
                                   String.eqb (Relation.property r)
                                              property)%bool)
                               (Node.relations sourceNode) with
                       | None => (false, st)
                       | Some rel =>
                           (true,
                            pushLink
                              (Link.mk linkParam sourceId targetId
                                       (Relation.type rel)
                                       (Relation.property rel)
                                       (Relation.isArray rel)
                                       (Relation.via rel)) st)
                       end
                   end) ;;
      when (changed1 || changed2 || changed3)%bool Graph.updateGraph >>
      lift (Sidebar.selectLink linkParam)
  | _ => ret tt
  end.

Definition nonEmpty (p : option string) : option string :=
  match p with
  | Some s => if Str.isEmpty s then None else Some s
  | None => None
  end.

(** [loadSchema(schemaName)] once the fetch has settled: [response] is the
    parsed body, [None] for a failed fetch; [depth] is the value of the
    depth slider. *)
Definition loadSchema (schemaName : string) (response : option value)
           (depth : Z) : M unit :=
  tryCatch
    (match response with
     | None => fun st => (Throw, st)
     | Some schemaData =>
         lift (setSchema schemaData) >>
         match Parser.parseSchema schemaData schemaName with
         | None => fun st => (Throw, st)
         | Some parsed =>
             lift (setNodes parsed) >>
             nodeParam <~ read (fun st => Url.get (url st) "node") ;;
             linkParam <~ read (fun st => Url.get (url st) "link") ;;
             Graph.initializeGraph depth None >>
             match nonEmpty nodeParam, nonEmpty linkParam with
             | Some nodeId, _ => lift (Sidebar.selectNode nodeId)
             | None, Some linkId => restoreLink linkId
             | None, None => lift (perform [Dom.sidebarEmpty])
             end
         end
     end)
    (lift (perform [Dom.sidebarError])).

(** [handleInternalLink(targetRef)] *)
Definition handleInternalLink (targetRef : string) : M unit :=
  found <~
    read (fun st =>
            if JsMap.has (nodes st) targetRef then Some targetRef
            else find (fun id => String.eqb (Str.toLowerCase id)
                                            (Str.toLowerCase targetRef))
                      (JsMap.keys (nodes st))) ;;
  match nonEmpty found with
  | Some nodeId =>
      hidden <~ read (fun st => negb (JsSet.has (displayedNodes st)
                                        nodeId)) ;;
      when hidden (lift (addDisplayed nodeId) >> Graph.updateGraph) >>
      lift (Sidebar.selectNode nodeId)
  | None => ret tt
  end.

End App.

(* ================================================================== *)
(** * Vocabulary of the properties *)

Unset Implicit Arguments.

Module Selection.

(** A call to one of the two selection entry points. *)
Inductive call : Type :=
| SelectNode (nodeId : string)
| SelectLink (linkId : string).

Definition run (st : State) (c : call) : State :=
  match c with
  | SelectNode nodeId => Sidebar.selectNode nodeId st
  | SelectLink linkId => Sidebar.selectLink linkId st
  end.

(** At most one of the two selection fields is set. *)
Definition exclusive (st : State) : Prop :=
  selectedNode st = None \/ selectedLink st = None.

End Selection.

Module Closure.

(** Every relation of [rels] points to a key of [allNodes]. *)
Definition targetsIn (allNodes : NodeMap) (rels : list Relation.t) : Prop :=
  Forall (fun r => JsMap.has allNodes (Relation.target r) = true) rels.

(** Every relation held by a node of [nodes] points to a key of
    [allNodes]. *)
Definition closed (allNodes nodes : NodeMap) : Prop :=
  forall id node, In (id, node) nodes ->
                  targetsIn allNodes (Node.relations node).

Definition sameKeys (m m' : NodeMap) : Prop :=
  forall x, JsMap.has m x = JsMap.has m' x.

(** The nodes hold no relation: the map before the extraction starts. *)
Definition bare (nodes : NodeMap) : Prop :=
  forall id node, In (id, node) nodes -> Node.relations node = [].

End Closure.

Module Edges.

(** The number of displayed links between [source] and [target] for
    [property]. *)
Definition countEdges (source target property : string)
           (links : list Link.t) : nat :=
  List.length (filter (Graph.sameEdge source target property) links).

(** The number of displayed links that carry the composite id [id]. *)
Definition countIds (id : string) (links : list Link.t) : nat :=
  List.length (filter (Graph.hasId id) links).

(** [st'] is [st] up to the displayed nodes and links. *)
Definition sameFrame (st st' : State) : Prop :=
  st' = setDisplayedLinks (displayedLinks st')
                          (setDisplayedNodes (displayedNodes st') st).

(** The displayed links of [st'] are those of [st] followed by new
    ones. *)
Definition linksExtend (st st' : State) : Prop :=
  exists new, displayedLinks st' = displayedLinks st ++ new.

Definition displayedExtend (st st' : State) : Prop :=
  forall x, In x (displayedNodes st) -> In x (displayedNodes st').

(** No pair of nodes gets a second link for a property. *)
Definition edgesStayUnique (st st' : State) : Prop :=
  forall source target property,
    (countEdges source target property (displayedLinks st) <= 1)%nat ->
    (countEdges source target property (displayedLinks st') <= 1)%nat.

(** No two displayed links carry the same composite id. *)
Definition idsUnique (links : list Link.t) : Prop :=
  NoDup (List.map Link.id links).

(** The state in which the loop of [expandNode(nodeId, depth)] reaches
    the relation that follows [before] among the relations of the node:
    the node is displayed, then the relations of [before] are passed with
    the recursive call [expandNode(target, depth - 1)]. *)
Definition reached (nodeId : string) (depth : Z)
           (before : list Relation.t) (st : State) : State :=
  fold_left (Graph.expandRelation
               (fun id => Graph.expandNode id (depth - 1)) nodeId)
            before (addDisplayed nodeId st).

(** The body of the loop of [autoAddReverseLinks]. *)
Definition reverseStep (id : string) (acc : bool * State)
           (reverse : Reverse.t) : bool * State :=
  if JsSet.has (displayedNodes (snd acc)) (Reverse.source reverse)
  then Graph.pushIfAbsent (Graph.linkOfReverse id reverse) acc
  else acc.

End Edges.

Module Examples.

(** The state once the app entry has installed its callbacks, the page
    being loaded with the search parameters [u]. *)
Definition page (u : Url.t) : State := setOnNodeSelect true (initialState u).

(** [{ "$ref": "#/definitions/<name>" }] *)
Definition ref (name : string) : value :=
  VObj [("$ref", VStr ("#/definitions/" ++ name))].

Definition parsed (schema : value) (schemaName : string) : NodeMap :=
  match Parser.parseSchema schema schemaName with
  | Some nodes => nodes
  | None => []
  end.

(** A document of packages: a package has a parent package and package
    links; the root refers to its packages twice through one property
    and to a definition that does not exist. *)
Definition packageSchema : value :=
  VObj
    [("title", VStr "ORD Document");
     ("properties",
      VObj [("packages",
             VObj [("type", VStr "array");
                   ("items",
                    VObj [("$ref", VStr "#/definitions/Package");
                          ("x-association-target",
                           VArr [VStr "#/definitions/Package"])])]);
            ("vendor", ref "Vendor")]);
     ("definitions",
      VObj [("Package",
             VObj [("properties",
                    VObj [("parent",
                           VObj [("type", VStr "string");
                                 ("x-association-target",
                                  VArr [VStr "#/definitions/Package"])]);
                          ("packageLinks",
                           VObj [("type", VStr "array");
                                 ("items", ref "PackageLink")])])]);
            ("PackageLink",
             VObj [("properties",
                    VObj [("url", VObj [("type", VStr "string")])])])])].

Definition packageNodes : NodeMap :=
  Eval vm_compute in parsed packageSchema "Document".

Definition documentNode : Node.t :=
  Eval vm_compute in
    match JsMap.get packageNodes "Document" with
    | Some node => node
    | None => Node.mk "" VNull VNull VNull VNull VNull VNull VNull VNull []
                      VNull VNull VNull
    end.

Definition packageNode : Node.t :=
  Eval vm_compute in
    match JsMap.get packageNodes "Package" with
    | Some node => node
    | None => documentNode
    end.

(** The relation of a package to its parent package. *)
Definition parentRelation : Relation.t :=
  Relation.mk association "Package" "parent" false
              (VStr "#/definitions/Package") (VStr "").

(** Definitions whose names and properties contain the separator of the
    composite link id: the links from [a-b] to [c] for [d] and from [a]
    to [b] for [c-d] share the id [a-b-c-d]. *)
Definition hyphenSchema : value :=
  VObj
    [("definitions",
      VObj [("a-b", VObj [("properties",
                           VObj [("d", ref "c"); ("y", ref "a")])]);
            ("c", VObj []);
            ("a", VObj [("properties", VObj [("c-d", ref "b")])]);
            ("b", VObj [])])].

Definition hyphenNodes : NodeMap :=
  Eval vm_compute in parsed hyphenSchema "Document".

(** The page loaded with [?node=a-b] and the schema parsed. *)
Definition hyphenState : State :=
  setNodes hyphenNodes (page [("node", "a-b")]).

(** The page loaded without search parameters, the schema parsed, nothing
    displayed yet. *)
Definition packageState : State :=
  setNodes packageNodes (page []).

(** A schema document whose title is the number 5. *)
Definition numberedSchema : value :=
  VObj
    [("title", VNum 5);
     ("properties", VObj [("packages", ref "Package")]);
     ("definitions",
      VObj [("Package",
             VObj [("properties",
                    VObj [("url", VObj [("type", VStr "string")])])])])].

End Examples.

Module Ranking.

(** A comparator is consistent when swapping its arguments swaps the sign
    of its result and its order is transitive. *)
Definition consistent {A} (compare : A -> A -> Z) : Prop :=
  (forall a b, Z.sgn (compare a b) = - Z.sgn (compare b a)) /\
  (forall a b c, compare a b <= 0 -> compare b c <= 0 -> compare a c <= 0).

Definition lower (r : Result.t) : string := Str.toLowerCase (Result.name r).

(** 0 when the match-relevant part of the name starts with the query. *)
Definition prefixRank (query : string) (r : Result.t) : Z :=
  if Str.startsWith query (Search.matchPart (Result.type r) (lower r))
  then 0 else 1.

(** The order of the specification: type weight, then prefix matches
    first, then the shorter name, then the collation of the names. *)
Definition ranksBefore (localeCompare : string -> string -> Z)
           (query : string) (a b : Result.t) : Prop :=
  let wa := Search.typeWeight (Result.type a) in
  let wb := Search.typeWeight (Result.type b) in
  let pa := prefixRank query a in
  let pb := prefixRank query b in
  let la := Z.of_nat (String.length (lower a)) in
  let lb := Z.of_nat (String.length (lower b)) in
  wa < wb \/
  (wa = wb /\
   (pa < pb \/
    (pa = pb /\
     (la < lb \/
      (la = lb /\ localeCompare (lower a) (lower b) <= 0))))).

(** Every node has a string for a name and no property definition is
    [null]: what [performSearch] reads without raising. *)
Definition searchable (nodes : NodeMap) : Prop :=
  forall id node,
    In (id, node) nodes ->
    (exists s, Node.name node = VStr s) /\
    (forall k v, In (k, v) (Js.ownEntries (Node.properties node)) ->
                 Js.nullish v = false).

(** The part of a node that [performSearch] reads besides the
    relations. *)
Definition sameShape (n n' : Node.t) : Prop :=
  Node.name n = Node.name n' /\ Node.properties n = Node.properties n'.

(** A schema document whose title, when it has one, is a string and
    whose definitions have distinct names other than the schema name. *)
Definition plainSchema (schema : value) (schemaName : string) : Prop :=
  (forall t, Js.get schema "title" = Some t ->
             Js.truthy t = true -> exists s, t = VStr s) /\
  (forall d, Js.get schema "definitions" = Some d ->
             NoDup (List.map fst (Js.ownEntries (Js.or d (VObj [])))) /\
             JsMap.has (Js.ownEntries (Js.or d (VObj []))) schemaName
             = false).

(** The comparison of strings by code units, a consistent collation. *)
Definition codeUnitCompare (a b : string) : Z :=
  match String.compare a b with
  | Lt => -1
  | Eq => 0
  | Gt => 1
  end.

End Ranking.

Module Invariants.

(** Every displayed id is a key of the node map. *)
Definition displayedKnown (st : State) : Prop :=
  forall x, In x (displayedNodes st) -> JsMap.has (nodes st) x = true.

(** The link joins two nodes of the set. *)
Definition endpointsShown (shown : JsSet.t) (l : Link.t) : Prop :=
  In (Link.source l) shown /\ In (Link.target l) shown.

(** Every displayed link joins two displayed nodes. *)
Definition linksJoin (st : State) : Prop :=
  forall l, In l (displayedLinks st) ->
            endpointsShown (displayedNodes st) l.

(** The link is the one [expandNode] builds for a relation that its
    source node holds in the node map. *)
Definition fromRelation (all : NodeMap) (l : Link.t) : Prop :=
  exists node r,
    JsMap.get all (Link.source l) = Some node /\
    In r (Node.relations node) /\
    l = Graph.linkOf (Link.source l) r.

(** What a run of [expandNode] does to the state: the node map is kept,
    displayed nodes stay displayed, and every link that was not there
    before joins displayed nodes and comes from a relation. *)
Definition expands (st st' : State) : Prop :=
  nodes st' = nodes st /\
  (forall x, In x (displayedNodes st) -> In x (displayedNodes st')) /\
  (forall l, In l (displayedLinks st') ->
             In l (displayedLinks st) \/
             (endpointsShown (displayedNodes st') l /\
              fromRelation (nodes st) l)).

End Invariants.

Module Loops.

(** The body shared by the loops of [autoAddReverseLinks] and
    [autoAddForwardLinks]: an item whose other end is displayed gets its
    link unless a link has that id. *)
Definition pushStep {A} (shown : State -> A -> bool) (mk : A -> Link.t)
           (acc : bool * State) (a : A) : bool * State :=
  if shown (snd acc) a then Graph.pushIfAbsent (mk a) acc else acc.

(** The body shared by the two loops of [expandAllNeighbors]: the other
    end of the item is displayed and its link is pushed unless a link has
    that id. *)
Definition neighborStep {A} (known : State -> A -> bool)
           (key : A -> string) (mk : A -> Link.t)
           (acc : bool * State) (a : A) : bool * State :=
  if known (snd acc) a
  then Graph.pushIfAbsent (mk a) (Graph.addIfHidden (key a) acc)
  else acc.

(** The guards of the two loops. *)
Definition targetShown (st : State) (r : Relation.t) : bool :=
  JsSet.has (displayedNodes st) (Relation.target r).

Definition sourceShown (st : State) (rv : Reverse.t) : bool :=
  JsSet.has (displayedNodes st) (Reverse.source rv).

(** The guards of the two loops of [expandAllNeighbors]: the forward
    loop skips a relation whose target is not a key of the node map, the
    reverse loop skips nothing. *)
Definition targetKnown (st : State) (r : Relation.t) : bool :=
  JsMap.has (nodes st) (Relation.target r).

Definition always (st : State) (rv : Reverse.t) : bool := true.

(** The other end of the item is displayed and a link has its id. *)
Definition settled {A} (key : A -> string) (mk : A -> Link.t)
           (st : State) (a : A) : Prop :=
  JsSet.has (displayedNodes st) (key a) = true /\
  existsb (Graph.hasId (Link.id (mk a))) (displayedLinks st) = true.

(** The displayed sets that [addRelationToGraph] builds before it
    redraws. *)
Definition relationAdded (sourceId : string) (relation : Relation.t)
           (st : State) : State :=
  let isNewNode := negb (JsSet.has (displayedNodes st)
                                   (Relation.target relation)) in
  let st1 := if isNewNode then addDisplayed (Relation.target relation) st
             else st in
  let st2 := snd (Graph.pushIfAbsent (Graph.linkOf sourceId relation)
                                     (false, st1)) in
  if isNewNode
  then snd (Graph.autoAddReverseLinks (Relation.target relation) st2)
  else st2.

End Loops.

Module Address.

(** The entries of the search parameters that carry the name [k], in
    order. *)
Definition named (k : string) (u : Url.t) : Url.t :=
  filter (fun kv => String.eqb (fst kv) k) u.

(** The search parameters name the node [id] and no link. *)
Definition showsNode (id : string) (u : Url.t) : Prop :=
  named "node" u = [("node", id)] /\ named "link" u = [].

(** The search parameters name the link [id] and no node. *)
Definition showsLink (id : string) (u : Url.t) : Prop :=
  named "link" u = [("link", id)] /\ named "node" u = [].

(** The entries of [u'] with another name than [node] and [link] are
    those of [u]. *)
Definition othersKept (u u' : Url.t) : Prop :=
  forall k, k <> "node" -> k <> "link" -> named k u' = named k u.

(** A URL that carried other parameters and a link selection. *)
Definition sample : Url.t :=
  [("schema", "Package"); ("link", "Package-PackageLink-links");
   ("node", "Old")].

End Address.

Module Ids.

(** The string holds no occurrence of the separator. *)
Fixpoint free (sep : ascii) (s : string) : bool :=
  match s with
  | EmptyString => true
  | String c s' => (negb (Ascii.eqb c sep) && free sep s')%bool
  end.

End Ids.

Module Restore.

(** [if (!displayedNodes.has(id)) displayedNodes.add(id)] of the link
    restoration. *)
Definition shown (id : string) (st : State) : State :=
  if negb (JsSet.has (displayedNodes st) id) then addDisplayed id st
  else st.

(** The link the restoration pushes for the relation it found. *)
Definition restored (linkParam sourceId targetId : string)
           (rel : Relation.t) : Link.t :=
  Link.mk linkParam sourceId targetId (Relation.type rel)
          (Relation.property rel) (Relation.isArray rel)
          (Relation.via rel).

(** The relation the restoration looks for. *)
Definition wanted (targetId property : string) (r : Relation.t) : bool :=
  (String.eqb (Relation.target r) targetId &&
   String.eqb (Relation.property r) property)%bool.

(** The part of the link restoration that looks for the link and pushes
    it when a relation stands for it. *)
Definition pushFound (linkParam sourceId targetId property : string)
           (st : State) : bool * State :=
  if existsb (Graph.hasId linkParam) (displayedLinks st)
  then (false, st)
  else
    match JsMap.get (nodes st) sourceId with
    | None => (false, st)
    | Some sourceNode =>
        match find (wanted targetId property)
                   (Node.relations sourceNode) with
        | None => (false, st)
        | Some rel =>
            (true, pushLink (restored linkParam sourceId targetId rel) st)
        end
    end.

(** The link restoration once the parameter has been split. *)
Definition run (linkParam sourceId targetId property : string) : M unit :=
  fun st =>
    let st2 := shown targetId (shown sourceId st) in
    let acc := pushFound linkParam sourceId targetId property st2 in
    if (negb (JsSet.has (displayedNodes st) sourceId)
        || negb (JsSet.has (displayedNodes (shown sourceId st)) targetId)
        || fst acc)%bool
    then match Graph.updateGraph (snd acc) with
         | (Done _, st4) => (Done tt, Sidebar.selectLink linkParam st4)
         | (Throw, st4) => (Throw, st4)
         end
    else (Done tt, Sidebar.selectLink linkParam (snd acc)).

End Restore.

Module Internal.

(** The node id that [handleInternalLink] resolves a reference to: the
    reference itself when it is a key of the node map, otherwise the
    first key that equals it up to case. *)
Definition resolve (targetRef : string) (st : State) : option string :=
  if JsMap.has (nodes st) targetRef then Some targetRef
  else find (fun id => String.eqb (Str.toLowerCase id)
                                  (Str.toLowerCase targetRef))
            (JsMap.keys (nodes st)).

End Internal.

Module Matches.

(** The result [performSearch] pushes for a node that matches. *)
Definition entityOf (id nodeName : string) (node : Node.t) : Result.t :=
  Result.mk ResultType.entity id nodeName None None
            (Some "var(--color-root)")
            (if negb (String.eqb id nodeName) then VStr id
             else Js.or (Node.description node) (VStr "")).

(** The result [performSearch] pushes for a property that matches: a
    relation when the node holds a relation of that property. *)
Definition propertyOf (id nodeName : string) (relations : list Relation.t)
           (propName : string) (propDef : value) : Result.t :=
  Result.mk
    (match find (fun r => String.eqb (Relation.property r) propName)
                relations with
     | Some _ => ResultType.relation
     | None => ResultType.property
     end)
    (id ++ "-" ++ propName)
    (nodeName ++ "." ++ propName)
    (Some id)
    (find (fun r => String.eqb (Relation.property r) propName) relations)
    None
    (Js.or (Js.getOpt propDef "description") (VStr "")).

(** [r] is the result of a node of [nodes] whose name or id contains the
    query, or of a property of a node whose name contains it. *)
Definition hit (query : string) (nodes : NodeMap) (r : Result.t) : Prop :=
  exists id node nodeName,
    In (id, node) nodes /\
    Node.name node = VStr nodeName /\
    (((Str.includes query (Str.toLowerCase nodeName)
       || Str.includes query (Str.toLowerCase id))%bool = true /\
      r = entityOf id nodeName node) \/
     (Js.truthy (Node.properties node) = true /\
      exists propName propDef,
        In (propName, propDef) (Js.ownEntries (Node.properties node)) /\
        Str.includes query (Str.toLowerCase propName) = true /\
        r = propertyOf id nodeName (Node.relations node) propName
                       propDef)).

End Matches.

Module Composite.

(** The id of the link is the composite of its own fields. *)
Definition idOfFields (l : Link.t) : Prop :=
  Link.id l
  = Graph.linkId (Link.source l) (Link.target l) (Link.property l).

Definition all (st : State) : Prop :=
  forall l, In l (displayedLinks st) -> idOfFields l.

(** The operation leaves a state whose links have composite ids when it
    starts from one, whether it returns or raises. *)
Definition keeps {A} (m : M A) : Prop :=
  forall st, all st -> all (snd (m st)).

End Composite.

Module Parsed.

(** What [parseSchema] fixes of a node when it creates it; the relations
    come later. *)
Definition base (n : Node.t) : string * value * value * value :=
  (Node.id n, Node.name n, Node.type n, Node.rawSchema n).

Definition bases (nodes : NodeMap)
  : list (string * (string * value * value * value)) :=
  List.map (fun e => (fst e, base (snd e))) nodes.

(** The entries of [schema.definitions || {}]. *)
Definition definitionsOf (schema : value) : list (string * value) :=
  Js.ownEntries (Js.or (Js.getOpt schema "definitions") (VObj [])).

End Parsed.

Module Words.

(** Every character is a word character of a regular expression. *)
Fixpoint allWord (s : string) : bool :=
  match s with
  | EmptyString => true
  | String c s' => (Str.isWord c && allWord s')%bool
  end.

(** The string is empty or starts with a character that is not a word
    character: a greedy [\w+] stops in front of it. *)
Definition stops (s : string) : bool :=
  match s with
  | EmptyString => true
  | String c _ => negb (Str.isWord c)
  end.

End Words.

Module Slug.

(** Every character of the string satisfies [P]. *)
Fixpoint every (P : ascii -> bool) (s : string) : bool :=
  match s with
  | EmptyString => true
  | String c s' => (P c && every P s')%bool
  end.

(** The characters of a slug: lower-case letters, digits, the
    underscore and the hyphen. *)
Definition slugChar (c : ascii) : bool :=
  (Str.isLower c || Str.isDigit c || Ascii.eqb c "_"
   || Utils.isHyphen c)%bool.

Definition startsHyphen (s : string) : bool :=
  match s with
  | EmptyString => false
  | String c _ => Utils.isHyphen c
  end.

Fixpoint endsHyphen (s : string) : bool :=
  match s with
  | EmptyString => false
  | String c EmptyString => Utils.isHyphen c
  | String _ s' => endsHyphen s'
  end.

(** No two hyphens in a row. *)
Fixpoint noDouble (s : string) : bool :=
  match s with
  | EmptyString => true
  | String c s' =>
      (negb (Utils.isHyphen c && startsHyphen s') && noDouble s')%bool
  end.

(** A slug: made of slug characters, without a hyphen at either end and
    without two hyphens in a row. *)
Definition clean (s : string) : bool :=
  (every slugChar s && noDouble s
   && negb (startsHyphen s) && negb (endsHyphen s))%bool.

End Slug.

Module Letters.

(** A character of the ASCII range: on these the case mappings of
    JavaScript are the ones of [Str]. *)
Definition ascii7 (c : ascii) : bool := Nat.ltb (Str.code c) 128.

(** A string of ASCII characters. *)
Definition plain (s : string) : bool := Slug.every ascii7 s.

End Letters.

Module Names.

(** The string without its space characters. *)
Fixpoint unspace (s : string) : string :=
  match s with
  | EmptyString => EmptyString
  | String c s' =>
      if Ascii.eqb c " " then unspace s' else String c (unspace s')
  end.

(** The string with its first character in upper case. *)
Definition capitalise (s : string) : string :=
  match s with
  | EmptyString => EmptyString
  | String c s' => String (Str.upperChar c) s'
  end.

Definition noSpace (c : ascii) : bool := negb (Str.isSpace c).

(** White space, if any, is the space character. *)
Definition plainSpace (c : ascii) : bool :=
  (negb (Str.isSpace c) || Ascii.eqb c " ")%bool.

End Names.

(* ================================================================== *)
(** * Properties *)


(* ------------------------------------------------------------------ *)
(** ** Selection *)

Module SelectionFacts.

Import Selection.

Lemma selectNode_selection (nodeId : string) (st : State) :
  selectedNode (Sidebar.selectNode nodeId st) = Some nodeId /\
  selectedLink (Sidebar.selectNode nodeId st) = None.
Proof.
  unfold Sidebar.selectNode; cbn.
  destruct (JsMap.get (nodes st) nodeId); cbn; split; reflexivity.
Qed.

Lemma selectLink_selection (linkId : string) (st : State) :
  selectedLink (Sidebar.selectLink linkId st) = Some linkId /\
  selectedNode (Sidebar.selectLink linkId st) = None.
Proof.
  unfold Sidebar.selectLink; cbn.
  destruct (find _ (displayedLinks st)); cbn; split; reflexivity.
Qed.

Lemma run_exclusive (st : State) (c : call) : exclusive (run st c).
Proof.
  destruct c as [nodeId | linkId]; cbn.
  - right. apply selectNode_selection.
  - left. apply selectLink_selection.
Qed.

Lemma runs_exclusive (calls : list call) (st : State) :
  exclusive st -> exclusive (fold_left run calls st).
Proof.
  revert st; induction calls as [| c calls IH]; intros st Hst; cbn.
  - exact Hst.
  - apply IH, run_exclusive.
Qed.

Lemma find_hasId_none (linkId : string) (links : list Link.t) :
  (forall l, In l links -> Link.id l <> linkId) ->
  find (fun l => String.eqb (Link.id l) linkId) links = None.
Proof.
  intros Hno. destruct (find _ links) as [l |] eqn:Hfind; [| reflexivity].
  apply find_some in Hfind. destruct Hfind as [Hin Heq].
  apply String.eqb_eq in Heq. exfalso. exact (Hno l Hin Heq).
Qed.

End SelectionFacts.

(** C1. From a state in which neither a node nor a link is selected, after
    every call of every sequence of calls to [selectNode] and [selectLink]
    at most one of [selectedNode] and [selectedLink] is set: a call to
    [selectNode] leaves [selectedLink] null and a call to [selectLink]
    leaves [selectedNode] null. *)
Theorem selection_mutually_exclusive :
  forall (st0 : State) (calls : list Selection.call),
    selectedNode st0 = None ->
    selectedLink st0 = None ->
    Selection.exclusive (fold_left Selection.run calls st0) /\
    (forall before c after,
        calls = before ++ c :: after ->
        let st := fold_left Selection.run (before ++ [c]) st0 in
        Selection.exclusive st /\
        match c with
        | Selection.SelectNode nodeId =>
            selectedNode st = Some nodeId /\ selectedLink st = None
        | Selection.SelectLink linkId =>
            selectedLink st = Some linkId /\ selectedNode st = None
        end).
Proof.
  intros st0 calls Hnode Hlink. split.
  - apply SelectionFacts.runs_exclusive. left. exact Hnode.
  - intros before c after _ st. subst st.
    rewrite fold_left_app. cbn [fold_left]. split.
    + apply SelectionFacts.run_exclusive.
    + destruct c as [nodeId | linkId]; cbn [Selection.run].
      * apply SelectionFacts.selectNode_selection.
      * apply SelectionFacts.selectLink_selection.
Qed.

Lemma selection_mutually_exclusive_witness :
  let st0 := Examples.packageState in
  let calls := [Selection.SelectNode "Package";
                Selection.SelectLink "Package-Package-parent";
                Selection.SelectNode "Ghost"] in
  Selection.exclusive (fold_left Selection.run calls st0) /\
  selectedNode (fold_left Selection.run calls st0) = Some "Ghost".
Proof.
  intros st0 calls.
  destruct (selection_mutually_exclusive st0 calls eq_refl eq_refl)
    as [Hall _].
  split; [exact Hall | reflexivity].
Defined.

(** C2, counterexample. Selecting the id of no displayed link still
    overwrites the two selection fields. *)
Lemma selectLink_unknown_changes_state :
  let st := setSelectedNode (Some "Document") Examples.packageState in
  (forall l, In l (displayedLinks st) -> Link.id l <> "a-b-c") /\
  Sidebar.selectLink "a-b-c" st <> st /\
  selectedNode (Sidebar.selectLink "a-b-c" st) = None /\
  selectedLink (Sidebar.selectLink "a-b-c" st) = Some "a-b-c".
Proof.
  cbn. repeat split.
  - intros l [].
  - discriminate.
Qed.

(** C2, amended. For every state and every link id that is the id of no
    displayed link, [selectLink] sets [selectedLink] to that id and
    [selectedNode] to null and does nothing else: the node map, the
    displayed nodes and links, the URL and the page are unchanged. *)
Theorem selectLink_unknown_only_selection :
  forall (st : State) (linkId : string),
    (forall l, In l (displayedLinks st) -> Link.id l <> linkId) ->
    Sidebar.selectLink linkId st
    = setSelectedNode None (setSelectedLink (Some linkId) st) /\
    nodes (Sidebar.selectLink linkId st) = nodes st /\
    displayedNodes (Sidebar.selectLink linkId st) = displayedNodes st /\
    displayedLinks (Sidebar.selectLink linkId st) = displayedLinks st /\
    url (Sidebar.selectLink linkId st) = url st /\
    dom (Sidebar.selectLink linkId st) = dom st.
Proof.
  intros st linkId Hno.
  assert (Heq : Sidebar.selectLink linkId st
                = setSelectedNode None (setSelectedLink (Some linkId) st)).
  { unfold Sidebar.selectLink. cbn [displayedLinks setSelectedNode
                                    setSelectedLink].
    rewrite (SelectionFacts.find_hasId_none linkId _ Hno). reflexivity. }
  rewrite Heq. repeat split; reflexivity.
Qed.

Lemma selectLink_unknown_only_selection_witness :
  let st := setSelectedNode (Some "Document") Examples.packageState in
  Sidebar.selectLink "a-b-c" st
  = setSelectedNode None (setSelectedLink (Some "a-b-c") st).
Proof.
  intros st.
  refine (proj1 (selectLink_unknown_only_selection st "a-b-c" _)).
  intros l [].
Defined.

(** C10. For every state and every node id that is not a key of the node
    map, [selectNode] sets [selectedNode] to that id and [selectedLink] to
    null before its existence check returns, and nothing else happens: no
    call on the page, no URL update. *)
Theorem selectNode_unknown_overwrites_selection :
  forall (st : State) (nodeId : string),
    JsMap.has (nodes st) nodeId = false ->
    selectedNode (Sidebar.selectNode nodeId st) = Some nodeId /\
    selectedLink (Sidebar.selectNode nodeId st) = None /\
    dom (Sidebar.selectNode nodeId st) = dom st /\
    url (Sidebar.selectNode nodeId st) = url st /\
    Sidebar.selectNode nodeId st
    = setSelectedLink None (setSelectedNode (Some nodeId) st).
Proof.
  intros st nodeId Hunknown.
  assert (Heq : Sidebar.selectNode nodeId st
                = setSelectedLink None (setSelectedNode (Some nodeId) st)).
  { unfold Sidebar.selectNode. cbn [nodes setSelectedNode setSelectedLink].
    unfold JsMap.has in Hunknown.
    destruct (JsMap.get (nodes st) nodeId); [discriminate | reflexivity]. }
  rewrite Heq. repeat split; reflexivity.
Qed.

Lemma selectNode_unknown_overwrites_selection_witness :
  let st := setSelectedLink (Some "Document-Package-packages")
                            Examples.packageState in
  selectedNode (Sidebar.selectNode "Ghost" st) = Some "Ghost" /\
  selectedLink (Sidebar.selectNode "Ghost" st) = None.
Proof.
  intros st.
  destruct (selectNode_unknown_overwrites_selection st "Ghost" eq_refl)
    as (Hn & Hl & _).
  split; assumption.
Defined.

(* ------------------------------------------------------------------ *)
(** ** The parser records only relations to parsed nodes *)

Module MapFacts.

Lemma get_set {V} (m : JsMap.t V) (k x : string) (v : V) :
  JsMap.get (JsMap.set m k v) x
  = if String.eqb k x then Some v else JsMap.get m x.
Proof.
  induction m as [| [k' v'] m IH]; cbn.
  - reflexivity.
  - destruct (String.eqb_spec k' k) as [-> | Hne]; cbn.
    + destruct (String.eqb k x); reflexivity.
    + rewrite IH. destruct (String.eqb_spec k' x) as [-> | Hx].
      * destruct (String.eqb_spec k x) as [-> | _];
          [contradiction | reflexivity].
      * reflexivity.
Qed.

Lemma has_set {V} (m : JsMap.t V) (k x : string) (v : V) :
  JsMap.has (JsMap.set m k v) x = (String.eqb k x || JsMap.has m x)%bool.
Proof.
  unfold JsMap.has. rewrite get_set. destruct (String.eqb k x); reflexivity.
Qed.

Lemma in_set {V} (m : JsMap.t V) (k : string) (v : V) (e : string * V) :
  In e (JsMap.set m k v) -> e = (k, v) \/ In e m.
Proof.
  induction m as [| [k' v'] m IH]; cbn.
  - intros [<- | []]. left; reflexivity.
  - destruct (String.eqb k' k); cbn.
    + intros [<- | Hin]; [left; reflexivity | right; right; exact Hin].
    + intros [<- | Hin]; [right; left; reflexivity |].
      destruct (IH Hin) as [-> | Hm]; [left; reflexivity | right; right; exact Hm].
Qed.

Lemma get_in {V} (m : JsMap.t V) (k : string) (v : V) :
  JsMap.get m k = Some v -> In (k, v) m.
Proof.
  induction m as [| [k' v'] m IH]; cbn; [discriminate |].
  destruct (String.eqb_spec k' k) as [-> | _].
  - intros [= ->]. left; reflexivity.
  - intros H. right. exact (IH H).
Qed.

Lemma in_has {V} (m : JsMap.t V) (k : string) (v : V) :
  In (k, v) m -> JsMap.has m k = true.
Proof.
  unfold JsMap.has.
  induction m as [| [k' v'] m IH]; cbn; [intros [] |].
  intros [[= -> ->] | Hin].
  - rewrite String.eqb_refl. reflexivity.
  - destruct (String.eqb k' k); [reflexivity | exact (IH Hin)].
Qed.

Lemma has_true_get {V} (m : JsMap.t V) (k : string) :
  JsMap.has m k = true -> exists v, JsMap.get m k = Some v.
Proof.
  unfold JsMap.has. destruct (JsMap.get m k) as [v |];
    [exists v; reflexivity | discriminate].
Qed.

End MapFacts.

Module ParserFacts.

Import Closure.

(** Inversion of one step of a computation that may raise. *)
Ltac step H :=
  match type of H with
  | match ?e with Some _ => _ | None => None end = Some _ =>
      let E := fresh "E" in destruct e eqn:E; [| discriminate H]
  | (if ?b then _ else _) = Some _ =>
      let E := fresh "E" in destruct b eqn:E
  | Some _ = Some _ => injection H as H
  end.

Lemma targetsIn_app allNodes rels1 rels2 :
  targetsIn allNodes rels1 -> targetsIn allNodes rels2 ->
  targetsIn allNodes (rels1 ++ rels2).
Proof. intros H1 H2. apply Forall_app. split; assumption. Qed.

Lemma pushIfKnown_targets allNodes target mkRel :
  (forall t, Relation.target (mkRel t) = t) ->
  targetsIn allNodes (Parser.pushIfKnown allNodes target mkRel).
Proof.
  intros Hmk. unfold Parser.pushIfKnown.
  destruct target as [t |]; [| constructor].
  destruct (negb (Str.isEmpty t)); cbn; [| constructor].
  destruct (JsMap.has allNodes t) eqn:Hhas; constructor; [| constructor].
  rewrite Hmk. exact Hhas.
Qed.

Lemma associations_targets allNodes propName isArray description targets :
  forall rels,
    Parser.associations allNodes propName isArray description targets
    = Some rels ->
    targetsIn allNodes rels.
Proof.
  induction targets as [| assocTarget rest IH]; cbn; intros rels H.
  - injection H as <-. constructor.
  - repeat step H. subst rels. apply targetsIn_app.
    + apply pushIfKnown_targets. reflexivity.
    + apply IH. reflexivity.
Qed.

Lemma propertyRelations_targets allNodes propName propDef rels :
  Parser.propertyRelations allNodes propName propDef = Some rels ->
  targetsIn allNodes rels.
Proof.
  unfold Parser.propertyRelations. intros H.
  destruct (Js.get propDef "$ref") as [v |]; [| discriminate H].
  destruct (Js.get propDef "description") as [v0 |]; [| discriminate H].
  destruct (Js.get propDef "items") as [v1 |]; [| discriminate H].
  destruct (Js.get propDef "x-association-target") as [v2 |];
    [| discriminate H].
  destruct (if Js.truthy v then _ else Some []) as [direct |] eqn:Hdirect;
    [| discriminate H].
  destruct (if Js.truthy (Js.getOpt v1 "$ref") then _ else Some [])
    as [array |] eqn:Harray; [| discriminate H].
  destruct (if Js.truthy v2 then _ else Some []) as [assocs |] eqn:Hassocs;
    [| discriminate H].
  destruct (if Js.truthy (Js.getOpt v1 "x-association-target")
            then _ else Some []) as [arrayAssocs |] eqn:HarrayAssocs;
    [| discriminate H].
  injection H as <-.
  repeat apply targetsIn_app.
  - repeat step Hdirect; subst; try constructor.
    apply pushIfKnown_targets. reflexivity.
  - repeat step Harray; subst; try constructor.
    apply pushIfKnown_targets. reflexivity.
  - step Hassocs; [| injection Hassocs as <-; constructor].
    step Hassocs. eapply associations_targets. exact Hassocs.
  - step HarrayAssocs; [| injection HarrayAssocs as <-; constructor].
    step HarrayAssocs. eapply associations_targets. exact HarrayAssocs.
Qed.

Lemma relationsOf_targets allNodes props :
  forall rels,
    Parser.relationsOf allNodes props = Some rels ->
    targetsIn allNodes rels.
Proof.
  induction props as [| [propName propDef] rest IH]; cbn; intros rels H.
  - injection H as <-. constructor.
  - repeat step H. subst rels. apply targetsIn_app.
    + eapply propertyRelations_targets. eassumption.
    + apply IH. reflexivity.
Qed.

Lemma extractRelations_targets properties allNodes rels :
  Parser.extractRelations properties allNodes = Some rels ->
  targetsIn allNodes rels.
Proof.
  unfold Parser.extractRelations. intros H. step H.
  eapply relationsOf_targets. exact H.
Qed.

Lemma targetsIn_sameKeys m m' rels :
  sameKeys m m' -> targetsIn m' rels -> targetsIn m rels.
Proof.
  intros Hkeys H. unfold targetsIn in *.
  eapply Forall_impl; [| exact H]. cbn. intros r Hr.
  rewrite Hkeys. exact Hr.
Qed.

Lemma pushRelations_sameKeys nodes name rels :
  sameKeys nodes (Parser.pushRelations nodes name rels).
Proof.
  intros x. unfold Parser.pushRelations.
  destruct (JsMap.get nodes name) as [node |] eqn:Hget; [| reflexivity].
  rewrite MapFacts.has_set.
  destruct (String.eqb_spec name x) as [<- | _]; [| reflexivity].
  unfold JsMap.has. rewrite Hget. reflexivity.
Qed.

Lemma pushRelations_closed allNodes nodes name rels :
  closed allNodes nodes -> targetsIn allNodes rels ->
  closed allNodes (Parser.pushRelations nodes name rels).
Proof.
  intros Hclosed Hrels id node Hin. unfold Parser.pushRelations in Hin.
  destruct (JsMap.get nodes name) as [old |] eqn:Hget.
  - apply MapFacts.in_set in Hin. destruct Hin as [[= -> ->] | Hin].
    + cbn. apply targetsIn_app; [| exact Hrels].
      eapply Hclosed. apply MapFacts.get_in. exact Hget.
    + eapply Hclosed. exact Hin.
  - eapply Hclosed. exact Hin.
Qed.

Lemma extractAll_closed definitions rootId names :
  forall allNodes nodes result,
    sameKeys allNodes nodes ->
    closed allNodes nodes ->
    Parser.extractAll definitions rootId names nodes = Some result ->
    sameKeys allNodes result /\ closed allNodes result.
Proof.
  induction names as [| name rest IH]; cbn; intros allNodes nodes result
                                                   Hkeys Hclosed H.
  - injection H as <-. split; assumption.
  - destruct (String.eqb name rootId); [eapply IH; eassumption |].
    destruct (Js.truthy _); [| eapply IH; eassumption].
    step H. eapply IH; [| | exact H].
    + intros x. rewrite Hkeys. apply pushRelations_sameKeys.
    + apply pushRelations_closed; [exact Hclosed |].
      eapply targetsIn_sameKeys; [exact Hkeys |].
      eapply extractRelations_targets. eassumption.
Qed.

Lemma rootNodeOf_bare schema schemaName node :
  Parser.rootNodeOf schema schemaName = Some node ->
  Node.relations node = [].
Proof.
  unfold Parser.rootNodeOf. intros H. repeat step H. subst node.
  reflexivity.
Qed.

Lemma definitionNodeOf_bare name def node :
  Parser.definitionNodeOf name def = Some node ->
  Node.relations node = [].
Proof.
  unfold Parser.definitionNodeOf. intros H. repeat step H. subst node.
  reflexivity.
Qed.

Lemma addDefinitions_bare defs :
  forall nodes result,
    bare nodes ->
    Parser.addDefinitions defs nodes = Some result ->
    bare result.
Proof.
  induction defs as [| [name def] rest IH]; cbn; intros nodes result Hbare H.
  - injection H as <-. exact Hbare.
  - step H. eapply IH; [| exact H].
    intros id node Hin. apply MapFacts.in_set in Hin.
    destruct Hin as [[= -> ->] | Hin].
    + eapply definitionNodeOf_bare. eassumption.
    + eapply Hbare. exact Hin.
Qed.

Lemma bare_closed allNodes nodes : bare nodes -> closed allNodes nodes.
Proof.
  intros Hbare id node Hin. unfold targetsIn.
  rewrite (Hbare id node Hin). constructor.
Qed.

(** The node map returned by [parseSchema] is closed under its
    relations. *)
Lemma parseSchema_closed schema schemaName nodes :
  Parser.parseSchema schema schemaName = Some nodes ->
  closed nodes nodes.
Proof.
  unfold Parser.parseSchema. intros H.
  destruct (Js.get schema "definitions") as [definitionsProp |];
    [| discriminate H].
  destruct (Parser.rootNodeOf schema schemaName) as [rootNode |] eqn:Hroot;
    [| discriminate H].
  destruct (Js.entries _) as [l |]; [| discriminate H].
  destruct (Parser.addDefinitions l _) as [n0 |] eqn:Hadd;
    [| discriminate H].
  destruct (Parser.extractRelations _ n0) as [l0 |] eqn:Hrels;
    [| discriminate H].
  set (built := if JsMap.has l schemaName then n0
                else Parser.pushRelations n0 schemaName l0) in H.
  assert (Hbare : bare n0).
  { eapply addDefinitions_bare; [| eassumption].
    intros id node [[= <- <-] | []].
    eapply rootNodeOf_bare. eassumption. }
  assert (Hkeys : sameKeys n0 built).
  { subst built. destruct (JsMap.has l schemaName).
    - intros x. reflexivity.
    - apply pushRelations_sameKeys. }
  assert (Hclosed : closed n0 built).
  { subst built. destruct (JsMap.has l schemaName).
    - apply bare_closed. exact Hbare.
    - apply pushRelations_closed.
      + apply bare_closed. exact Hbare.
      + eapply extractRelations_targets. eassumption. }
  destruct (extractAll_closed _ _ _ _ _ _ Hkeys Hclosed H) as [Hk Hc].
  intros id node Hin. eapply targetsIn_sameKeys; [| eapply Hc; exact Hin].
  intros x. symmetry. apply Hk.
Qed.

End ParserFacts.

(** C6. For every schema document, every relation held by a node of the
    map returned by [parseSchema] has a target that is a key of that map:
    a reference to a definition that is not parsed yields no relation. *)
Theorem parseSchema_relation_targets_exist :
  forall (schema : value) (schemaName : string) (nodes : NodeMap),
    Parser.parseSchema schema schemaName = Some nodes ->
    forall (id : string) (node : Node.t) (r : Relation.t),
      In (id, node) nodes ->
      In r (Node.relations node) ->
      JsMap.has nodes (Relation.target r) = true.
Proof.
  intros schema schemaName nodes Hparse id node r Hnode Hr.
  pose proof (ParserFacts.parseSchema_closed _ _ _ Hparse id node Hnode) as H.
  unfold Closure.targetsIn in H. rewrite Forall_forall in H.
  exact (H r Hr).
Qed.

(* ------------------------------------------------------------------ *)
(** ** Expansion *)

Module SetFacts.

Lemma has_in (s : JsSet.t) (x : string) :
  JsSet.has s x = true <-> In x s.
Proof.
  unfold JsSet.has. rewrite existsb_exists. split.
  - intros [y [Hin Heq]]. apply String.eqb_eq in Heq. subst y. exact Hin.
  - intros Hin. exists x. split; [exact Hin | apply String.eqb_refl].
Qed.

Lemma has_false (s : JsSet.t) (x : string) :
  JsSet.has s x = false <-> ~ In x s.
Proof.
  rewrite <- has_in. destruct (JsSet.has s x); split; intros H;
    try reflexivity; try discriminate; try (exfalso; apply H; reflexivity).
Qed.

Lemma in_add (s : JsSet.t) (x y : string) :
  In x (JsSet.add s y) <-> In x s \/ x = y.
Proof.
  unfold JsSet.add. destruct (JsSet.has s y) eqn:Hhas.
  - apply has_in in Hhas. split; [intros H; left; exact H |].
    intros [H | ->]; assumption.
  - rewrite in_app_iff. cbn. split.
    + intros [H | [<- | []]]; [left; exact H | right; reflexivity].
    + intros [H | ->]; [left; exact H | right; left; reflexivity].
Qed.

Lemma NoDup_add (s : JsSet.t) (y : string) :
  NoDup s -> NoDup (JsSet.add s y).
Proof.
  intros Hnd. unfold JsSet.add. destruct (JsSet.has s y) eqn:Hhas.
  - exact Hnd.
  - apply has_false in Hhas. apply NoDup_rev in Hnd.
    rewrite <- (rev_involutive (s ++ [y])). apply NoDup_rev.
    rewrite rev_app_distr. cbn. constructor; [| exact Hnd].
    rewrite <- in_rev. exact Hhas.
Qed.

Lemma add_has (s : JsSet.t) (y : string) :
  JsSet.has (JsSet.add s y) y = true.
Proof. apply has_in, in_add. right. reflexivity. Qed.

End SetFacts.

Module EdgeFacts.

Import Edges.

Lemma existsb_count {A} (f : A -> bool) (l : list A) :
  existsb f l = true <-> (1 <= List.length (filter f l))%nat.
Proof.
  induction l as [| x l IH]; cbn.
  - split; [discriminate | lia].
  - destruct (f x); cbn; [split; [lia | reflexivity] | exact IH].
Qed.

Lemma existsb_count_0 {A} (f : A -> bool) (l : list A) :
  existsb f l = false <-> List.length (filter f l) = 0%nat.
Proof.
  pose proof (existsb_count f l) as H.
  destruct (existsb f l); split; intros H'; try reflexivity.
  - discriminate H'.
  - assert (1 <= List.length (filter f l))%nat by (apply H; reflexivity).
    lia.
  - destruct (List.length (filter f l)); [reflexivity |].
    assert (false = true) by (apply H; lia). discriminate.
Qed.

Lemma count_snoc {A} (f : A -> bool) (l : list A) (x : A) :
  List.length (filter f (l ++ [x]))
  = (List.length (filter f l) + if f x then 1 else 0)%nat.
Proof.
  rewrite filter_app, length_app. cbn. destruct (f x); reflexivity.
Qed.

Lemma count_app_le {A} (f : A -> bool) (l new : list A) :
  (List.length (filter f l) <= List.length (filter f (l ++ new)))%nat.
Proof. rewrite filter_app, length_app. lia. Qed.

Lemma sameEdge_linkOf source target property nodeId r :
  Graph.sameEdge source target property (Graph.linkOf nodeId r) = true ->
  nodeId = source /\ Relation.target r = target /\
  Relation.property r = property.
Proof.
  unfold Graph.sameEdge, Graph.linkOf. cbn. intros H.
  apply andb_prop in H. destruct H as [H H3].
  apply andb_prop in H. destruct H as [H1 H2].
  apply String.eqb_eq in H1, H2, H3. repeat split; assumption.
Qed.

Lemma sameEdge_linkOf_refl nodeId r :
  Graph.sameEdge nodeId (Relation.target r) (Relation.property r)
                 (Graph.linkOf nodeId r) = true.
Proof.
  unfold Graph.sameEdge, Graph.linkOf. cbn.
  rewrite !String.eqb_refl. reflexivity.
Qed.

Lemma sameFrame_refl st : sameFrame st st.
Proof. destruct st. reflexivity. Qed.

Lemma sameFrame_trans a b c : sameFrame a b -> sameFrame b c -> sameFrame a c.
Proof.
  unfold sameFrame. intros Hab Hbc. rewrite Hbc. rewrite Hab.
  destruct a. reflexivity.
Qed.

Lemma linksExtend_refl st : linksExtend st st.
Proof. exists []. symmetry. apply app_nil_r. Qed.

Lemma linksExtend_trans a b c :
  linksExtend a b -> linksExtend b c -> linksExtend a c.
Proof.
  intros [n1 H1] [n2 H2]. exists (n1 ++ n2).
  rewrite H2, H1. symmetry. apply app_assoc.
Qed.

Lemma edgesStayUnique_push st nodeId r :
  existsb (Graph.sameEdge nodeId (Relation.target r) (Relation.property r))
          (displayedLinks st) = false ->
  edgesStayUnique st (pushLink (Graph.linkOf nodeId r) st).
Proof.
  intros Hfresh source target property Hle. cbn. unfold countEdges in *.
  rewrite count_snoc.
  destruct (Graph.sameEdge source target property (Graph.linkOf nodeId r))
    eqn:Hsame; [| lia].
  apply sameEdge_linkOf in Hsame. destruct Hsame as (-> & <- & <-).
  apply existsb_count_0 in Hfresh. lia.
Qed.

End EdgeFacts.

Module ExpandFacts.

Import Edges.

(** A relation between the state before and after that contains the two
    mutations of [expandNode] contains every run of it. *)
Section Steps.

Variable P : State -> State -> Prop.
Hypothesis P_refl : forall st, P st st.
Hypothesis P_trans : forall a b c, P a b -> P b c -> P a c.
Hypothesis P_add :
  forall st id, JsMap.has (nodes st) id = true -> P st (addDisplayed id st).
Hypothesis P_push :
  forall st nodeId r,
    JsMap.has (nodes st) (Relation.target r) = true ->
    existsb (Graph.sameEdge nodeId (Relation.target r)
                            (Relation.property r))
            (displayedLinks st) = false ->
    P st (pushLink (Graph.linkOf nodeId r) st).

Lemma expandRelation_steps recurse :
  (forall t s, P s (recurse t s)) ->
  forall nodeId st r, P st (Graph.expandRelation recurse nodeId st r).
Proof.
  intros Hrec nodeId st r. unfold Graph.expandRelation.
  destruct (JsMap.has (nodes st) (Relation.target r)) eqn:Hhas;
    [| apply P_refl].
  destruct (existsb _ (displayedLinks st)) eqn:Hex.
  - destruct (negb _); [apply Hrec | apply P_refl].
  - destruct (negb _).
    + apply P_trans with (pushLink (Graph.linkOf nodeId r) st);
        [apply P_push; assumption | apply Hrec].
    + apply P_push; assumption.
Qed.

Lemma fold_steps (f : State -> Relation.t -> State) :
  (forall st r, P st (f st r)) ->
  forall rels st, P st (fold_left f rels st).
Proof.
  intros Hf rels. induction rels as [| r rels IH]; intros st; cbn.
  - apply P_refl.
  - eapply P_trans; [apply Hf | apply IH].
Qed.

Lemma expandLevels_steps :
  forall levels nodeId st, P st (Graph.expandLevels levels nodeId st).
Proof.
  induction levels as [| levels IH]; intros nodeId st; cbn.
  - destruct (JsMap.has (nodes st) nodeId) eqn:Hhas; cbn;
      [apply P_add; exact Hhas | apply P_refl].
  - destruct (JsMap.has (nodes st) nodeId) eqn:Hhas; cbn; [| apply P_refl].
    destruct (JsMap.get (nodes st) nodeId) as [node |];
      [| apply P_add; exact Hhas].
    eapply P_trans; [apply P_add; exact Hhas |].
    apply fold_steps. intros s r. apply expandRelation_steps. apply IH.
Qed.

End Steps.

Lemma expandLevels_sameFrame levels nodeId st :
  sameFrame st (Graph.expandLevels levels nodeId st).
Proof.
  apply expandLevels_steps.
  - apply EdgeFacts.sameFrame_refl.
  - apply EdgeFacts.sameFrame_trans.
  - intros s id _. destruct s. reflexivity.
  - intros s id r _ _. destruct s. reflexivity.
Qed.

Lemma expandLevels_nodes levels nodeId st :
  nodes (Graph.expandLevels levels nodeId st) = nodes st.
Proof.
  pose proof (expandLevels_sameFrame levels nodeId st) as H.
  unfold sameFrame in H. rewrite H. reflexivity.
Qed.

Lemma expandLevels_linksExtend levels nodeId st :
  linksExtend st (Graph.expandLevels levels nodeId st).
Proof.
  apply expandLevels_steps.
  - apply EdgeFacts.linksExtend_refl.
  - apply EdgeFacts.linksExtend_trans.
  - intros s id _. exists []. cbn. symmetry. apply app_nil_r.
  - intros s id r _ _. eexists. reflexivity.
Qed.

Lemma expandLevels_displayedExtend levels nodeId st :
  displayedExtend st (Graph.expandLevels levels nodeId st).
Proof.
  apply expandLevels_steps.
  - intros s x H. exact H.
  - intros a b c Hab Hbc x H. apply Hbc, Hab, H.
  - intros s id _ x H. cbn. apply SetFacts.in_add. left. exact H.
  - intros s id r _ _ x H. exact H.
Qed.

Lemma expandLevels_edgesStayUnique levels nodeId st :
  edgesStayUnique st (Graph.expandLevels levels nodeId st).
Proof.
  apply expandLevels_steps.
  - intros s source target property H. exact H.
  - intros a b c Hab Hbc source target property H. apply Hbc, Hab, H.
  - intros s id _ source target property H. exact H.
  - intros s id r _ Hfresh. apply EdgeFacts.edgesStayUnique_push.
    exact Hfresh.
Qed.

(** One pass over a relation leaves a link for it. *)
Lemma expandRelation_registers recurse nodeId st r :
  (forall t s, linksExtend s (recurse t s)) ->
  JsMap.has (nodes st) (Relation.target r) = true ->
  existsb (Graph.sameEdge nodeId (Relation.target r) (Relation.property r))
          (displayedLinks (Graph.expandRelation recurse nodeId st r)) = true.
Proof.
  intros Hrec Hhas. unfold Graph.expandRelation. rewrite Hhas.
  set (st1 := if existsb _ (displayedLinks st) then st else _).
  assert (H1 : existsb (Graph.sameEdge nodeId (Relation.target r)
                                       (Relation.property r))
                       (displayedLinks st1) = true).
  { subst st1. destruct (existsb _ (displayedLinks st)) eqn:Hex;
      [exact Hex |].
    cbn. rewrite existsb_app. cbn.
    rewrite EdgeFacts.sameEdge_linkOf_refl.
    rewrite orb_true_r. reflexivity. }
  destruct (negb _); [| exact H1].
  destruct (Hrec (Relation.target r) st1) as [new Hnew].
  rewrite Hnew, existsb_app, H1. reflexivity.
Qed.

Lemma fold_registers (f : State -> Relation.t -> State) nodeId :
  (forall st r, linksExtend st (f st r)) ->
  (forall st r, nodes (f st r) = nodes st) ->
  (forall st r,
      JsMap.has (nodes st) (Relation.target r) = true ->
      existsb (Graph.sameEdge nodeId (Relation.target r)
                              (Relation.property r))
              (displayedLinks (f st r)) = true) ->
  forall rels st r,
    In r rels ->
    JsMap.has (nodes st) (Relation.target r) = true ->
    existsb (Graph.sameEdge nodeId (Relation.target r) (Relation.property r))
            (displayedLinks (fold_left f rels st)) = true.
Proof.
  intros Hext Hnodes Hreg rels.
  induction rels as [| r0 rels IH]; intros st r Hin Hhas; cbn.
  - destruct Hin.
  - destruct Hin as [-> | Hin].
    + assert (Hrest : linksExtend (f st r) (fold_left f rels (f st r))).
      { apply fold_steps.
        - apply EdgeFacts.linksExtend_refl.
        - apply EdgeFacts.linksExtend_trans.
        - apply Hext. }
      destruct Hrest as [new Hnew]. rewrite Hnew, existsb_app.
      rewrite (Hreg st r Hhas). reflexivity.
    + apply IH; [exact Hin |]. rewrite Hnodes. exact Hhas.
Qed.

Lemma expandRelation_nodes levels nodeId st r :
  nodes (Graph.expandRelation (Graph.expandLevels levels) nodeId st r)
  = nodes st.
Proof.
  assert (H : sameFrame st (Graph.expandRelation
                              (Graph.expandLevels levels) nodeId st r)).
  { apply expandRelation_steps.
    - apply EdgeFacts.sameFrame_refl.
    - apply EdgeFacts.sameFrame_trans.
    - intros s id r0 _ _. destruct s. reflexivity.
    - intros t s. apply expandLevels_sameFrame. }
  unfold sameFrame in H. rewrite H. reflexivity.
Qed.

(** After [expandNode(nodeId, depth)] with [depth >= 1] every relation
    of the node to a parsed node has a displayed link. *)
Lemma expandLevels_registers levels nodeId st node r :
  JsMap.get (nodes st) nodeId = Some node ->
  In r (Node.relations node) ->
  JsMap.has (nodes st) (Relation.target r) = true ->
  existsb (Graph.sameEdge nodeId (Relation.target r) (Relation.property r))
          (displayedLinks (Graph.expandLevels (S levels) nodeId st)) = true.
Proof.
  intros Hget Hin Hhas. cbn.
  assert (Hnode : JsMap.has (nodes st) nodeId = true).
  { unfold JsMap.has. rewrite Hget. reflexivity. }
  rewrite Hnode. cbn. rewrite Hget.
  apply fold_registers; try assumption.
  - intros s r0. apply expandRelation_steps.
    + apply EdgeFacts.linksExtend_refl.
    + apply EdgeFacts.linksExtend_trans.
    + intros s0 id r1 _ _. eexists. reflexivity.
    + intros t s0. apply expandLevels_linksExtend.
  - intros s r0. apply expandRelation_nodes.
  - intros s r0 Hr0. apply expandRelation_registers; [| exact Hr0].
    intros t s0. apply expandLevels_linksExtend.
Qed.

End ExpandFacts.

Module DepthOneFacts.

Import Edges.

Lemma addDisplayed_present id st :
  JsSet.has (displayedNodes st) id = true -> addDisplayed id st = st.
Proof.
  intros Hhas. unfold addDisplayed, JsSet.add. rewrite Hhas.
  destruct st. reflexivity.
Qed.

(** With no level left the recursive call only displays the target. *)
Lemma expandRelation_last root st r :
  JsMap.has (nodes st) (Relation.target r) = true ->
  Graph.expandRelation (Graph.expandLevels 0) root st r
  = addDisplayed (Relation.target r)
      (if existsb (Graph.sameEdge root (Relation.target r)
                                  (Relation.property r))
                  (displayedLinks st)
       then st else pushLink (Graph.linkOf root r) st).
Proof.
  intros Hhas. unfold Graph.expandRelation. rewrite Hhas.
  set (st1 := if existsb _ (displayedLinks st) then st else _).
  assert (Hnodes : nodes st1 = nodes st).
  { subst st1. destruct (existsb _ (displayedLinks st)); reflexivity. }
  destruct (JsSet.has (displayedNodes st1) (Relation.target r)) eqn:Hshown;
    cbn [negb].
  - symmetry. apply addDisplayed_present. exact Hshown.
  - cbn. rewrite Hnodes, Hhas. reflexivity.
Qed.

Lemma depth_one_loop root rels :
  forall st,
    (forall r, In r rels ->
               JsMap.has (nodes st) (Relation.target r) = true) ->
    let st' := fold_left (Graph.expandRelation (Graph.expandLevels 0) root)
                         rels st in
    nodes st' = nodes st /\
    (forall x, In x (displayedNodes st') <->
               In x (displayedNodes st) \/
               exists r, In r rels /\ Relation.target r = x) /\
    (forall l, In l (displayedLinks st') ->
               In l (displayedLinks st) \/
               exists r, In r rels /\ l = Graph.linkOf root r).
Proof.
  induction rels as [| r rels IH]; intros st Hknown; cbn [fold_left];
    cbv zeta in *.
  - repeat split.
    + intros H. left. exact H.
    + intros [H | (r & [] & _)]. exact H.
    + intros l H. left. exact H.
  - rewrite expandRelation_last by (apply Hknown; left; reflexivity).
    set (st1 := if existsb _ (displayedLinks st) then st else _).
    assert (Hnodes : nodes (addDisplayed (Relation.target r) st1)
                     = nodes st).
    { subst st1. destruct (existsb _ (displayedLinks st)); reflexivity. }
    assert (Hshown : displayedNodes (addDisplayed (Relation.target r) st1)
                     = JsSet.add (displayedNodes st) (Relation.target r)).
    { subst st1. destruct (existsb _ (displayedLinks st)); reflexivity. }
    assert (Hlinks : forall l,
               In l (displayedLinks (addDisplayed (Relation.target r) st1)) ->
               In l (displayedLinks st) \/ l = Graph.linkOf root r).
    { subst st1. intros l.
      destruct (existsb _ (displayedLinks st)); cbn.
      - intros H. left. exact H.
      - rewrite in_app_iff. cbn. intros [H | [<- | []]];
          [left; exact H | right; reflexivity]. }
    destruct (IH (addDisplayed (Relation.target r) st1)) as (Hn & Hd & Hl).
    { intros r0 Hin. rewrite Hnodes. apply Hknown. right. exact Hin. }
    split; [rewrite Hn; exact Hnodes |]. split.
    + intros x. rewrite Hd, Hshown, SetFacts.in_add. split.
      * intros [[H | ->] | (r0 & Hin & Heq)].
        -- left. exact H.
        -- right. exists r. split; [left; reflexivity | reflexivity].
        -- right. exists r0. split; [right; exact Hin | exact Heq].
      * intros [H | (r0 & [<- | Hin] & Heq)].
        -- left. left. exact H.
        -- left. right. symmetry. exact Heq.
        -- right. exists r0. split; assumption.
    + intros l Hin. destruct (Hl l Hin) as [H | (r0 & Hr0 & Heq)].
      * destruct (Hlinks l H) as [H' | ->]; [left; exact H' |].
        right. exists r. split; [left; reflexivity | reflexivity].
      * right. exists r0. split; [right; exact Hr0 | exact Heq].
Qed.

Lemma expandLevels_NoDup levels nodeId st :
  NoDup (displayedNodes st) ->
  NoDup (displayedNodes (Graph.expandLevels levels nodeId st)).
Proof.
  revert st.
  apply (ExpandFacts.expandLevels_steps
           (fun a b => NoDup (displayedNodes a) -> NoDup (displayedNodes b))).
  - intros s H. exact H.
  - intros a b c Hab Hbc H. apply Hbc, Hab, H.
  - intros s id _ H. cbn. apply SetFacts.NoDup_add. exact H.
  - intros s id r _ _ H. exact H.
Qed.

Lemma count_one source target property links :
  (Edges.countEdges source target property links <= 1)%nat ->
  existsb (Graph.sameEdge source target property) links = true ->
  Edges.countEdges source target property links = 1%nat.
Proof.
  intros Hle Hex. apply EdgeFacts.existsb_count in Hex.
  unfold Edges.countEdges in *. lia.
Qed.

End DepthOneFacts.

(** C3. For every parsed schema and every node [root] of its node map,
    from a state that displays nothing: [expandNode(root, 0)] displays the
    root alone and no link; [expandNode(root, 1)] displays the root and
    exactly the targets of its relations, every displayed link is the link
    of a relation of the root, and every (target, property) pair among the
    relations of the root has exactly one displayed link. *)
Theorem expandNode_depth_zero_and_one :
  forall (schema : value) (schemaName : string) (st : State)
         (root : string) (node : Node.t),
    Parser.parseSchema schema schemaName = Some (nodes st) ->
    JsMap.get (nodes st) root = Some node ->
    displayedNodes st = [] ->
    displayedLinks st = [] ->
    (displayedNodes (Graph.expandNode root 0 st) = [root] /\
     displayedLinks (Graph.expandNode root 0 st) = []) /\
    (NoDup (displayedNodes (Graph.expandNode root 1 st)) /\
     (forall x, In x (displayedNodes (Graph.expandNode root 1 st)) <->
                x = root \/
                exists r, In r (Node.relations node) /\
                          Relation.target r = x) /\
     (forall l, In l (displayedLinks (Graph.expandNode root 1 st)) ->
                exists r, In r (Node.relations node) /\
                          l = Graph.linkOf root r) /\
     (forall r, In r (Node.relations node) ->
                Edges.countEdges root (Relation.target r)
                                 (Relation.property r)
                                 (displayedLinks (Graph.expandNode root 1 st))
                = 1%nat)).
Proof.
  intros schema schemaName st root node Hparse Hget Hnone Hnolink.
  assert (Hroot : JsMap.has (nodes st) root = true).
  { unfold JsMap.has. rewrite Hget. reflexivity. }
  assert (Hknown : forall r, In r (Node.relations node) ->
                             JsMap.has (nodes st) (Relation.target r) = true).
  { intros r Hr.
    pose proof (ParserFacts.parseSchema_closed _ _ _ Hparse root node
                  (MapFacts.get_in _ _ _ Hget)) as Hclosed.
    unfold Closure.targetsIn in Hclosed. rewrite Forall_forall in Hclosed.
    exact (Hclosed r Hr). }
  split.
  - unfold Graph.expandNode. cbn. rewrite Hroot. cbn.
    rewrite Hnone, Hnolink. split; reflexivity.
  - assert (Hunfold : Graph.expandNode root 1 st
                      = fold_left (Graph.expandRelation
                                     (Graph.expandLevels 0) root)
                                  (Node.relations node)
                                  (addDisplayed root st)).
    { unfold Graph.expandNode. change (Z.to_nat 1) with 1%nat.
      cbn [Graph.expandLevels]. rewrite Hroot.
      cbn [negb nodes addDisplayed setDisplayedNodes].
      rewrite Hget. reflexivity. }
    destruct (DepthOneFacts.depth_one_loop root (Node.relations node)
                                 (addDisplayed root st) Hknown)
      as (_ & Hshown & Hlinks).
    rewrite <- Hunfold in Hshown, Hlinks.
    split; [| split; [| split]].
    + apply DepthOneFacts.expandLevels_NoDup. rewrite Hnone. constructor.
    + intros x. rewrite Hshown. cbn. rewrite Hnone. cbn. split.
      * intros [[H | []] | H]; [left; symmetry; exact H | right; exact H].
      * intros [H | H]; [left; left; symmetry; exact H | right; exact H].
    + intros l Hin. destruct (Hlinks l Hin) as [H | H]; [| exact H].
      cbn in H. rewrite Hnolink in H. destruct H.
    + intros r Hr. apply DepthOneFacts.count_one.
      * apply ExpandFacts.expandLevels_edgesStayUnique.
        rewrite Hnolink. cbn. lia.
      * apply ExpandFacts.expandLevels_registers with node;
          [exact Hget | exact Hr | apply Hknown; exact Hr].
Qed.

Lemma expandNode_depth_zero_and_one_witness :
  displayedNodes (Graph.expandNode "Document" 0 Examples.packageState)
  = ["Document"] /\
  NoDup (displayedNodes (Graph.expandNode "Document" 1 Examples.packageState)).
Proof.
  destruct (expandNode_depth_zero_and_one
              Examples.packageSchema "Document" Examples.packageState
              "Document" Examples.documentNode)
    as [[Hzero _] [Hone _]].
  - vm_compute. reflexivity.
  - vm_compute. reflexivity.
  - reflexivity.
  - reflexivity.
  - split; [exact Hzero | exact Hone].
Defined.

Module SelfFacts.

Import Edges.

Lemma fold_sameFrame recurse nodeId rels st :
  (forall t s, sameFrame s (recurse t s)) ->
  sameFrame st (fold_left (Graph.expandRelation recurse nodeId) rels st).
Proof.
  intros Hrec. apply ExpandFacts.fold_steps.
  - apply EdgeFacts.sameFrame_refl.
  - apply EdgeFacts.sameFrame_trans.
  - intros s r. apply ExpandFacts.expandRelation_steps.
    + apply EdgeFacts.sameFrame_refl.
    + apply EdgeFacts.sameFrame_trans.
    + intros s0 id r0 _ _. destruct s0. reflexivity.
    + exact Hrec.
Qed.

Lemma reached_nodes nodeId depth before st :
  nodes (reached nodeId depth before st) = nodes st.
Proof.
  unfold reached.
  pose proof (fold_sameFrame
                (fun id => Graph.expandNode id (depth - 1)) nodeId before
                (addDisplayed nodeId st)
                (fun t s => ExpandFacts.expandLevels_sameFrame _ t s)) as H.
  unfold sameFrame in H. rewrite H. reflexivity.
Qed.

Lemma reached_shown nodeId depth before st :
  In nodeId (displayedNodes (reached nodeId depth before st)).
Proof.
  unfold reached.
  assert (Hext : displayedExtend
                   (addDisplayed nodeId st)
                   (fold_left (Graph.expandRelation
                                 (fun id => Graph.expandNode id (depth - 1))
                                 nodeId)
                              before (addDisplayed nodeId st))).
  { apply ExpandFacts.fold_steps.
    - intros a x H. exact H.
    - intros a b c Hab Hbc x H. apply Hbc, Hab, H.
    - intros a r0. apply ExpandFacts.expandRelation_steps.
      + intros a0 x H. exact H.
      + intros a0 b c Hab Hbc x H. apply Hbc, Hab, H.
      + intros a0 id r1 _ _ x H. exact H.
      + intros t a0. apply ExpandFacts.expandLevels_displayedExtend. }
  apply Hext. cbn. apply SetFacts.in_add. right. reflexivity.
Qed.

(** The run of [expandNode] on a parsed node with a depth of at least 1:
    the node is displayed and its relations are passed in order. *)
Lemma expandNode_run nodeId depth st node :
  JsMap.get (nodes st) nodeId = Some node ->
  1 <= depth ->
  Graph.expandNode nodeId depth st
  = reached nodeId depth (Node.relations node) st.
Proof.
  intros Hget Hdepth. unfold reached, Graph.expandNode.
  replace (Z.to_nat depth) with (S (Z.to_nat (depth - 1))) by lia.
  cbn [Graph.expandLevels].
  assert (Hnode : JsMap.has (nodes st) nodeId = true).
  { unfold JsMap.has. rewrite Hget. reflexivity. }
  rewrite Hnode. cbn [negb].
  change (nodes (addDisplayed nodeId st)) with (nodes st).
  rewrite Hget. reflexivity.
Qed.

(** The pass over a relation whose target is displayed never reaches the
    recursive call. *)
Lemma expandRelation_shown recurse nodeId st r :
  JsMap.has (nodes st) (Relation.target r) = true ->
  In (Relation.target r) (displayedNodes st) ->
  Graph.expandRelation recurse nodeId st r
  = if existsb (Graph.sameEdge nodeId (Relation.target r)
                               (Relation.property r))
               (displayedLinks st)
    then st else pushLink (Graph.linkOf nodeId r) st.
Proof.
  intros Hhas Hshown. apply SetFacts.has_in in Hshown.
  unfold Graph.expandRelation. rewrite Hhas.
  destruct (existsb _ (displayedLinks st));
    cbn [displayedNodes pushLink setDisplayedLinks];
    rewrite Hshown; reflexivity.
Qed.

End SelfFacts.

(** C5. For every node that has a relation to itself, [expandNode] on that
    node with any depth of at least 1 returns and leaves exactly one
    displayed link from the node to itself for the property of that
    relation.  The run displays the node and then passes its relations in
    order; when it reaches the relation to itself the node is displayed, so
    whatever the recursive call is, the pass does not reach it: it
    registers the link when it is missing and goes on with the relations
    that follow. *)
Theorem expandNode_self_reference :
  forall (st : State) (nodeId : string) (node : Node.t) (r : Relation.t)
         (depth : Z),
    JsMap.get (nodes st) nodeId = Some node ->
    In r (Node.relations node) ->
    Relation.target r = nodeId ->
    1 <= depth ->
    (Edges.countEdges nodeId nodeId (Relation.property r)
                      (displayedLinks st) <= 1)%nat ->
    (exists l,
        filter (Graph.sameEdge nodeId nodeId (Relation.property r))
               (displayedLinks (Graph.expandNode nodeId depth st)) = [l] /\
        Link.source l = Link.target l) /\
    (forall before after,
        Node.relations node = before ++ r :: after ->
        In nodeId (displayedNodes (Edges.reached nodeId depth before st)) /\
        (forall recurse,
            Graph.expandRelation recurse nodeId
                                 (Edges.reached nodeId depth before st) r
            = if existsb (Graph.sameEdge nodeId nodeId (Relation.property r))
                         (displayedLinks
                            (Edges.reached nodeId depth before st))
              then Edges.reached nodeId depth before st
              else pushLink (Graph.linkOf nodeId r)
                            (Edges.reached nodeId depth before st)) /\
        Graph.expandNode nodeId depth st
        = fold_left (Graph.expandRelation
                       (fun id => Graph.expandNode id (depth - 1)) nodeId)
                    after
                    (Graph.expandRelation
                       (fun id => Graph.expandNode id (depth - 1)) nodeId
                       (Edges.reached nodeId depth before st) r)).
Proof.
  intros st nodeId node r depth Hget Hr Hself Hdepth Hle.
  assert (Hnode : JsMap.has (nodes st) nodeId = true).
  { unfold JsMap.has. rewrite Hget. reflexivity. }
  split.
  - assert (Hcount : Edges.countEdges nodeId nodeId (Relation.property r)
                       (displayedLinks (Graph.expandNode nodeId depth st))
                     = 1%nat).
    { unfold Graph.expandNode.
      destruct (Z.to_nat depth) as [| levels] eqn:Hlevels; [lia |].
      apply DepthOneFacts.count_one.
      - apply ExpandFacts.expandLevels_edgesStayUnique. exact Hle.
      - pose proof (ExpandFacts.expandLevels_registers levels nodeId st node r
                      Hget Hr) as H.
        rewrite Hself in H. apply H. exact Hnode. }
    unfold Edges.countEdges in Hcount.
    destruct (filter _ _) as [| l [| l' rest]] eqn:Hfilter;
      try discriminate Hcount.
    exists l. split; [reflexivity |].
    assert (Hin : In l (filter (Graph.sameEdge nodeId nodeId
                                               (Relation.property r))
                               (displayedLinks
                                  (Graph.expandNode nodeId depth st)))).
    { rewrite Hfilter. left. reflexivity. }
    apply filter_In in Hin. destruct Hin as [_ Hsame].
    unfold Graph.sameEdge in Hsame.
    apply andb_prop in Hsame. destruct Hsame as [Hsame _].
    apply andb_prop in Hsame. destruct Hsame as [Hs Ht].
    apply String.eqb_eq in Hs, Ht. congruence.
  - intros before after Hrels.
    pose proof (SelfFacts.reached_shown nodeId depth before st) as Hshown.
    split; [exact Hshown |]. split.
    + intros recurse.
      pose proof (SelfFacts.expandRelation_shown
                    recurse nodeId (Edges.reached nodeId depth before st) r)
        as Hstep.
      rewrite Hself in Hstep. apply Hstep; [| exact Hshown].
      rewrite SelfFacts.reached_nodes. exact Hnode.
    + rewrite (SelfFacts.expandNode_run nodeId depth st node Hget Hdepth).
      unfold Edges.reached. rewrite Hrels, fold_left_app. reflexivity.
Qed.

Lemma expandNode_self_reference_witness :
  (exists l,
      filter (Graph.sameEdge "Package" "Package" "parent")
             (displayedLinks (Graph.expandNode "Package" 3
                                               Examples.packageState)) = [l] /\
      Link.source l = Link.target l) /\
  In "Package"
     (displayedNodes (Edges.reached "Package" 3 [] Examples.packageState)) /\
  Graph.expandRelation (fun _ s => s) "Package"
                       (Edges.reached "Package" 3 [] Examples.packageState)
                       Examples.parentRelation
  = pushLink (Graph.linkOf "Package" Examples.parentRelation)
             (addDisplayed "Package" Examples.packageState).
Proof.
  destruct (expandNode_self_reference
              Examples.packageState "Package" Examples.packageNode
              Examples.parentRelation 3) as [Hone Hrun].
  - vm_compute. reflexivity.
  - vm_compute. left. reflexivity.
  - reflexivity.
  - lia.
  - vm_compute. lia.
  - split; [exact Hone |].
    destruct (Hrun [] (List.tl (Node.relations Examples.packageNode))
                   eq_refl) as (Hshown & Hstep & _).
    split; [exact Hshown |]. rewrite Hstep. reflexivity.
Defined.

Lemma parseSchema_relation_targets_exist_witness :
  JsMap.has Examples.packageNodes "Package" = true /\
  List.map Relation.property (Node.relations Examples.documentNode)
  = ["packages"; "packages"].
Proof.
  split; [| reflexivity].
  refine (parseSchema_relation_targets_exist
            Examples.packageSchema "Document" Examples.packageNodes _
            "Package" Examples.packageNode Examples.parentRelation _ _).
  - vm_compute. reflexivity.
  - vm_compute. right. left. reflexivity.
  - vm_compute. left. reflexivity.
Defined.

(* ------------------------------------------------------------------ *)
(** ** Reverse links *)

Module DistinctFacts.

Import Loops.

Section Distinct.

Variable A : Type.
Variable shown : State -> A -> bool.
Variable mk : A -> Link.t.

Lemma push_loop_fresh items :
  forall added st,
  exists new,
    displayedLinks (snd (fold_left (pushStep shown mk) items (added, st)))
    = displayedLinks st ++ new /\
    NoDup (List.map Link.id new) /\
    (forall l, In l new ->
               existsb (Graph.hasId (Link.id l)) (displayedLinks st)
               = false).
Proof.
  induction items as [| x items IH]; intros added st; cbn [fold_left].
  - exists []. cbn. rewrite app_nil_r. split; [reflexivity |].
    split; [constructor | intros l []].
  - unfold pushStep at 2. cbn [snd].
    destruct (shown st x); [| apply IH].
    unfold Graph.pushIfAbsent.
    destruct (existsb (Graph.hasId (Link.id (mk x))) (displayedLinks st))
      eqn:Hex; [apply IH |].
    destruct (IH true (pushLink (mk x) st)) as (new & Hnew & Hdup & Hfresh).
    cbn [displayedLinks pushLink setDisplayedLinks] in Hnew, Hfresh.
    exists (mk x :: new).
    split; [rewrite Hnew, <- app_assoc; reflexivity |]. split.
    + cbn [List.map]. constructor; [| exact Hdup].
      intros Hin. apply in_map_iff in Hin. destruct Hin as (l & Hid & Hl).
      pose proof (Hfresh l Hl) as Hf. rewrite existsb_app in Hf.
      apply orb_false_elim in Hf. destruct Hf as [_ Hf]. cbn in Hf.
      unfold Graph.hasId in Hf. rewrite Hid, String.eqb_refl in Hf.
      discriminate Hf.
    + intros l [<- | Hl]; [exact Hex |].
      pose proof (Hfresh l Hl) as Hf. rewrite existsb_app in Hf.
      apply orb_false_elim in Hf. apply Hf.
Qed.

(** No link is appended twice: the links that the loop appends carry
    distinct composite ids. *)
Lemma push_loop_distinct items added st new :
  displayedLinks (snd (fold_left (pushStep shown mk) items (added, st)))
  = displayedLinks st ++ new ->
  NoDup (List.map Link.id new).
Proof.
  intros Hnew.
  destruct (push_loop_fresh items added st) as (new' & Hnew' & Hdup & _).
  rewrite Hnew in Hnew'. apply app_inv_head in Hnew'. subst new'.
  exact Hdup.
Qed.

End Distinct.

End DistinctFacts.

Module ReverseFacts.

Import Edges.

Lemma getReverseRelations_spec id st rv :
  In rv (Graph.getReverseRelations id st) <->
  exists sourceId sourceNode r,
    In (sourceId, sourceNode) (nodes st) /\
    sourceId <> id /\
    In r (Node.relations sourceNode) /\
    Relation.target r = id /\
    rv = Reverse.mk sourceId (Node.name sourceNode) (Relation.type r)
                    (Relation.property r) (Relation.isArray r)
                    (Relation.via r) (Relation.description r).
Proof.
  unfold Graph.getReverseRelations. rewrite in_flat_map. split.
  - intros [[sourceId sourceNode] [Hentry Hin]]. cbn in Hin.
    destruct (String.eqb_spec sourceId id) as [-> | Hne]; [destruct Hin |].
    apply in_map_iff in Hin. destruct Hin as [r [<- Hr]].
    apply filter_In in Hr. destruct Hr as [Hr Htarget].
    apply String.eqb_eq in Htarget.
    exists sourceId, sourceNode, r. repeat split; assumption.
  - intros (sourceId & sourceNode & r & Hentry & Hne & Hr & Htarget & ->).
    exists (sourceId, sourceNode). split; [exact Hentry |]. cbn.
    destruct (String.eqb_spec sourceId id) as [-> | _]; [contradiction |].
    apply in_map_iff. exists r. split; [reflexivity |].
    apply filter_In. split; [exact Hr |]. apply String.eqb_eq. exact Htarget.
Qed.

Lemma reverse_loop id revs :
  forall added st,
    let res := fold_left (reverseStep id) revs (added, st) in
    snd res = setDisplayedLinks (displayedLinks (snd res)) st /\
    (exists new,
        displayedLinks (snd res) = displayedLinks st ++ new /\
        (fst res = true <-> added = true \/ new <> []) /\
        (forall l, In l new ->
                   exists rv,
                     In rv revs /\
                     JsSet.has (displayedNodes st) (Reverse.source rv)
                     = true /\
                     l = Graph.linkOfReverse id rv /\
                     existsb (Graph.hasId (Link.id l)) (displayedLinks st)
                     = false)) /\
    (forall rv,
        In rv revs ->
        JsSet.has (displayedNodes st) (Reverse.source rv) = true ->
        existsb (Graph.hasId (Link.id (Graph.linkOfReverse id rv)))
                (displayedLinks (snd res)) = true).
Proof.
  induction revs as [| rv revs IH]; intros added st; cbn [fold_left];
    cbv zeta in *.
  - cbn. split; [destruct st; reflexivity |]. split.
    + exists []. rewrite app_nil_r. split; [reflexivity |]. split.
      * split; [intros H; left; exact H | intros [H | H]; [exact H |]].
        exfalso. apply H. reflexivity.
      * intros l [].
    + intros rv [].
  - destruct (reverseStep id (added, st) rv) as [added1 st1] eqn:Hstep.
    unfold reverseStep in Hstep. cbn [snd] in Hstep.
    destruct (JsSet.has (displayedNodes st) (Reverse.source rv)) eqn:Hshown.
    + unfold Graph.pushIfAbsent in Hstep.
      destruct (existsb (Graph.hasId (Link.id (Graph.linkOfReverse id rv)))
                        (displayedLinks st)) eqn:Hex;
        injection Hstep as <- <-.
      * destruct (IH added st) as (Hframe & (new & Hnew & Hadded & Hfrom)
                                   & Hall).
        split; [exact Hframe |]. split.
        -- exists new. split; [exact Hnew |]. split; [exact Hadded |].
           intros l Hl. destruct (Hfrom l Hl) as (rv0 & Hin & H).
           exists rv0. split; [right; exact Hin | exact H].
        -- intros rv0 [<- | Hin] Hrv0; [| apply Hall; assumption].
           rewrite Hnew, existsb_app, Hex. reflexivity.
      * destruct (IH true (pushLink (Graph.linkOfReverse id rv) st))
          as (Hframe & (new & Hnew & Hadded & Hfrom) & Hall).
        cbn [displayedLinks displayedNodes pushLink setDisplayedLinks]
          in Hnew, Hfrom, Hall.
        split; [rewrite Hframe; destruct st; reflexivity |]. split.
        -- exists (Graph.linkOfReverse id rv :: new).
           split; [rewrite Hnew, <- app_assoc; reflexivity |]. split.
           ++ split; [intros _; right; discriminate |].
              intros _. apply Hadded. left. reflexivity.
           ++ intros l [<- | Hl].
              ** exists rv. repeat split; try assumption. left. reflexivity.
              ** destruct (Hfrom l Hl) as (rv0 & Hin & Hs & Heq & Hfresh).
                 exists rv0. split; [right; exact Hin |].
                 split; [exact Hs |]. split; [exact Heq |].
                 rewrite existsb_app in Hfresh.
                 apply orb_false_elim in Hfresh. apply Hfresh.
        -- intros rv0 [<- | Hin] Hrv0; [| apply Hall; assumption].
           rewrite Hnew, !existsb_app. cbn.
           unfold Graph.hasId at 2. rewrite String.eqb_refl.
           rewrite orb_true_r. reflexivity.
    + injection Hstep as <- <-.
      destruct (IH added st) as (Hframe & (new & Hnew & Hadded & Hfrom)
                                 & Hall).
      split; [exact Hframe |]. split.
      * exists new. split; [exact Hnew |]. split; [exact Hadded |].
        intros l Hl. destruct (Hfrom l Hl) as (rv0 & Hin & H).
        exists rv0. split; [right; exact Hin | exact H].
      * intros rv0 [<- | Hin] Hrv0; [| apply Hall; assumption].
        rewrite Hshown in Hrv0. discriminate Hrv0.
Qed.

End ReverseFacts.

(** C8, counterexample. The node itself is not among the sources that
    [autoAddReverseLinks] considers: a displayed node with a relation to
    itself gets no link and the result is [false]. *)
Lemma autoAddReverseLinks_skips_self_reference :
  let st := addDisplayed "Package" Examples.packageState in
  JsMap.get (nodes st) "Package" = Some Examples.packageNode /\
  In Examples.parentRelation (Node.relations Examples.packageNode) /\
  Relation.target Examples.parentRelation = "Package" /\
  JsSet.has (displayedNodes st) "Package" = true /\
  existsb (Graph.hasId "Package-Package-parent") (displayedLinks st) = false /\
  Graph.autoAddReverseLinks "Package" st = (false, st).
Proof.
  vm_compute. repeat split; try reflexivity. left. reflexivity.
Qed.

(** C8, amended. For every state and node id, [autoAddReverseLinks(id)]
    considers the relations that target [id] of all nodes other than [id]
    itself; for each whose source is displayed it appends the link of that
    relation unless a displayed link already carries its composite id, so
    no composite id is appended twice; nothing else changes, and the result
    is [true] if and only if at least one link was appended. *)
Theorem autoAddReverseLinks_adds_missing_links :
  forall (st : State) (id : string),
    (forall rv,
        In rv (Graph.getReverseRelations id st) <->
        exists sourceId sourceNode r,
          In (sourceId, sourceNode) (nodes st) /\
          sourceId <> id /\
          In r (Node.relations sourceNode) /\
          Relation.target r = id /\
          rv = Reverse.mk sourceId (Node.name sourceNode) (Relation.type r)
                          (Relation.property r) (Relation.isArray r)
                          (Relation.via r) (Relation.description r)) /\
    snd (Graph.autoAddReverseLinks id st)
    = setDisplayedLinks
        (displayedLinks (snd (Graph.autoAddReverseLinks id st))) st /\
    (exists new,
        displayedLinks (snd (Graph.autoAddReverseLinks id st))
        = displayedLinks st ++ new /\
        NoDup (List.map Link.id new) /\
        (fst (Graph.autoAddReverseLinks id st) = true <-> new <> []) /\
        (forall l,
            In l new ->
            exists rv,
              In rv (Graph.getReverseRelations id st) /\
              JsSet.has (displayedNodes st) (Reverse.source rv) = true /\
              l = Graph.linkOfReverse id rv /\
              existsb (Graph.hasId (Link.id l)) (displayedLinks st) = false)) /\
    (forall rv,
        In rv (Graph.getReverseRelations id st) ->
        JsSet.has (displayedNodes st) (Reverse.source rv) = true ->
        existsb (Graph.hasId (Graph.linkId (Reverse.source rv) id
                                           (Reverse.property rv)))
                (displayedLinks (snd (Graph.autoAddReverseLinks id st)))
        = true).
Proof.
  intros st id.
  split; [intros rv; apply ReverseFacts.getReverseRelations_spec |].
  change (Graph.autoAddReverseLinks id st)
    with (fold_left (Edges.reverseStep id) (Graph.getReverseRelations id st)
                    (false, st)).
  destruct (ReverseFacts.reverse_loop id (Graph.getReverseRelations id st) false st)
    as (Hframe & (new & Hnew & Hadded & Hfrom) & Hall).
  split; [exact Hframe |]. split; [| exact Hall].
  exists new. split; [exact Hnew |]. split.
  { exact (DistinctFacts.push_loop_distinct
             Reverse.t Loops.sourceShown (Graph.linkOfReverse id)
             (Graph.getReverseRelations id st) false st new Hnew). }
  split; [| exact Hfrom].
  rewrite Hadded. split.
  - intros [H | H]; [discriminate H | exact H].
  - intros H. right. exact H.
Qed.

(* ------------------------------------------------------------------ *)
(** ** A second expansion changes nothing *)

Module TwiceFacts.

Import Edges.

Lemma expandRelation_shows levels nodeId st r :
  JsMap.has (nodes st) (Relation.target r) = true ->
  In (Relation.target r)
     (displayedNodes
        (Graph.expandRelation (Graph.expandLevels levels) nodeId st r)).
Proof.
  intros Hhas. unfold Graph.expandRelation. rewrite Hhas.
  set (st1 := if existsb _ (displayedLinks st) then st else _).
  assert (Hnodes : nodes st1 = nodes st).
  { subst st1. destruct (existsb _ (displayedLinks st)); reflexivity. }
  destruct (JsSet.has (displayedNodes st1) (Relation.target r)) eqn:Hshown;
    cbn [negb].
  - apply SetFacts.has_in. exact Hshown.
  - destruct levels as [| levels]; cbn [Graph.expandLevels];
      rewrite Hnodes, Hhas; cbn [negb].
    + cbn. apply SetFacts.in_add. right. reflexivity.
    + assert (Hadded : In (Relation.target r)
                          (displayedNodes
                             (addDisplayed (Relation.target r) st1))).
      { cbn. apply SetFacts.in_add. right. reflexivity. }
      destruct (JsMap.get (nodes (addDisplayed (Relation.target r) st1))
                          (Relation.target r)) as [node |];
        [| exact Hadded].
      revert Hadded. generalize (addDisplayed (Relation.target r) st1).
      intros s Hs.
      assert (Hext : displayedExtend
                       s (fold_left (Graph.expandRelation
                                       (Graph.expandLevels levels)
                                       (Relation.target r))
                                    (Node.relations node) s)).
      { apply ExpandFacts.fold_steps.
        - intros a x H. exact H.
        - intros a b c Hab Hbc x H. apply Hbc, Hab, H.
        - intros a r0. apply ExpandFacts.expandRelation_steps.
          + intros a0 x H. exact H.
          + intros a0 b c Hab Hbc x H. apply Hbc, Hab, H.
          + intros a0 id r1 _ _ x H. exact H.
          + intros t a0. apply ExpandFacts.expandLevels_displayedExtend. }
      apply Hext. exact Hs.
Qed.

Lemma fold_shows levels nodeId rels :
  forall st r,
    In r rels ->
    JsMap.has (nodes st) (Relation.target r) = true ->
    In (Relation.target r)
       (displayedNodes
          (fold_left (Graph.expandRelation (Graph.expandLevels levels)
                                           nodeId) rels st)).
Proof.
  induction rels as [| r0 rels IH]; intros st r Hin Hhas; cbn [fold_left];
    [destruct Hin |].
  destruct Hin as [-> | Hin].
  - assert (Hext : displayedExtend
                     (Graph.expandRelation (Graph.expandLevels levels)
                                           nodeId st r)
                     (fold_left (Graph.expandRelation
                                   (Graph.expandLevels levels) nodeId)
                                rels
                                (Graph.expandRelation
                                   (Graph.expandLevels levels)
                                   nodeId st r))).
    { apply ExpandFacts.fold_steps.
      - intros a x H. exact H.
      - intros a b c Hab Hbc x H. apply Hbc, Hab, H.
      - intros a r0. apply ExpandFacts.expandRelation_steps.
        + intros a0 x H. exact H.
        + intros a0 b c Hab Hbc x H. apply Hbc, Hab, H.
        + intros a0 id r1 _ _ x H. exact H.
        + intros t a0. apply ExpandFacts.expandLevels_displayedExtend. }
    apply Hext. apply expandRelation_shows. exact Hhas.
  - apply IH; [exact Hin |].
    rewrite ExpandFacts.expandRelation_nodes. exact Hhas.
Qed.

Lemma fold_fixed (f : State -> Relation.t -> State) rels st :
  (forall r, In r rels -> f st r = st) -> fold_left f rels st = st.
Proof.
  induction rels as [| r rels IH]; intros Hfix; cbn; [reflexivity |].
  rewrite (Hfix r (or_introl eq_refl)). apply IH.
  intros r0 Hin. apply Hfix. right. exact Hin.
Qed.

(** [expandNode] called a second time with the same arguments leaves the
    state as the first call left it. *)
Lemma expandNode_twice nodeId depth st :
  Graph.expandNode nodeId depth (Graph.expandNode nodeId depth st)
  = Graph.expandNode nodeId depth st.
Proof.
  unfold Graph.expandNode. generalize (Z.to_nat depth) as levels.
  intros levels.
  destruct (JsMap.has (nodes st) nodeId) eqn:Hhas.
  - set (st1 := Graph.expandLevels levels nodeId st).
    assert (Hnodes : nodes st1 = nodes st)
      by apply ExpandFacts.expandLevels_nodes.
    assert (Hshown : JsSet.has (displayedNodes st1) nodeId = true).
    { apply SetFacts.has_in.
      destruct levels as [| levels]; subst st1; cbn [Graph.expandLevels];
        rewrite Hhas; cbn [negb].
      - cbn. apply SetFacts.in_add. right. reflexivity.
      - destruct (JsMap.get (nodes (addDisplayed nodeId st)) nodeId)
          as [node |].
        + assert (Hext : displayedExtend
                           (addDisplayed nodeId st)
                           (fold_left (Graph.expandRelation
                                         (Graph.expandLevels levels) nodeId)
                                      (Node.relations node)
                                      (addDisplayed nodeId st))).
          { apply ExpandFacts.fold_steps.
            - intros a x H. exact H.
            - intros a b c Hab Hbc x H. apply Hbc, Hab, H.
            - intros a r0. apply ExpandFacts.expandRelation_steps.
              + intros a0 x H. exact H.
              + intros a0 b c Hab Hbc x H. apply Hbc, Hab, H.
              + intros a0 id r1 _ _ x H. exact H.
              + intros t a0.
                apply ExpandFacts.expandLevels_displayedExtend. }
          apply Hext. cbn. apply SetFacts.in_add. right. reflexivity.
        + cbn. apply SetFacts.in_add. right. reflexivity. }
    destruct levels as [| levels].
    + cbn [Graph.expandLevels]. rewrite Hnodes, Hhas. cbn [negb].
      apply DepthOneFacts.addDisplayed_present. exact Hshown.
    + destruct (MapFacts.has_true_get _ _ Hhas) as [node Hget].
      change (Graph.expandLevels (S levels) nodeId st1)
        with (if negb (JsMap.has (nodes st1) nodeId) then st1
              else match JsMap.get (nodes (addDisplayed nodeId st1)) nodeId
                   with
                   | Some node' =>
                       fold_left (Graph.expandRelation
                                    (Graph.expandLevels levels) nodeId)
                                 (Node.relations node')
                                 (addDisplayed nodeId st1)
                   | None => addDisplayed nodeId st1
                   end).
      rewrite Hnodes, Hhas. cbn [negb].
      rewrite (DepthOneFacts.addDisplayed_present _ _ Hshown).
      rewrite Hnodes, Hget.
      apply fold_fixed. intros r Hr. unfold Graph.expandRelation.
      rewrite Hnodes.
      destruct (JsMap.has (nodes st) (Relation.target r)) eqn:Htarget;
        [| reflexivity].
      assert (Hedge : existsb (Graph.sameEdge nodeId (Relation.target r)
                                              (Relation.property r))
                              (displayedLinks st1) = true).
      { subst st1. apply ExpandFacts.expandLevels_registers with node;
          assumption. }
      rewrite Hedge.
      assert (Htshown : JsSet.has (displayedNodes st1) (Relation.target r)
                        = true).
      { apply SetFacts.has_in. subst st1. cbn [Graph.expandLevels].
        rewrite Hhas. cbn [negb]. cbn [nodes addDisplayed setDisplayedNodes].
        rewrite Hget. apply fold_shows; assumption. }
      rewrite Htshown. reflexivity.
  - destruct levels as [| levels]; cbn [Graph.expandLevels];
      rewrite Hhas; cbn [negb]; rewrite Hhas; reflexivity.
Qed.

End TwiceFacts.

(* ------------------------------------------------------------------ *)
(** ** Links found by composite id *)

Module IdFacts.

Import Edges.

(** The guarded push of the operations other than [expandNode] never
    gives a second link the same composite id. *)
Lemma pushIfAbsent_idsUnique link added st :
  idsUnique (displayedLinks st) ->
  idsUnique (displayedLinks (snd (Graph.pushIfAbsent link (added, st)))).
Proof.
  unfold idsUnique, Graph.pushIfAbsent. intros Hunique.
  destruct (existsb (Graph.hasId (Link.id link)) (displayedLinks st))
    eqn:Hex; cbn; [exact Hunique |].
  rewrite map_app. cbn.
  apply NoDup_rev in Hunique.
  rewrite <- (rev_involutive (List.map Link.id (displayedLinks st)
                              ++ [Link.id link])).
  apply NoDup_rev. rewrite rev_app_distr. cbn.
  constructor; [| exact Hunique].
  rewrite <- in_rev. intros Hin. apply in_map_iff in Hin.
  destruct Hin as [l [Heq Hl]].
  assert (Hfound : existsb (Graph.hasId (Link.id link)) (displayedLinks st)
                   = true).
  { apply existsb_exists. exists l. split; [exact Hl |].
    unfold Graph.hasId. rewrite Heq. apply String.eqb_refl. }
  rewrite Hfound in Hex. discriminate Hex.
Qed.

Lemma autoAddForwardLinks_idsUnique nodeId st :
  idsUnique (displayedLinks st) ->
  idsUnique (displayedLinks (snd (Graph.autoAddForwardLinks nodeId st))).
Proof.
  intros Hunique. unfold Graph.autoAddForwardLinks.
  destruct (JsMap.get (nodes st) nodeId) as [node |]; [| exact Hunique].
  generalize false. revert st Hunique.
  induction (Node.relations node) as [| r rels IH]; intros st Hunique added;
    cbn [fold_left snd]; [exact Hunique |].
  destruct (JsSet.has (displayedNodes st) (Relation.target r)).
  - pose proof (pushIfAbsent_idsUnique (Graph.linkOf nodeId r) added st
                  Hunique) as Hstep.
    destruct (Graph.pushIfAbsent (Graph.linkOf nodeId r) (added, st))
      as [added1 st1].
    apply IH. exact Hstep.
  - apply IH. exact Hunique.
Qed.

Lemma autoAddReverseLinks_idsUnique nodeId st :
  idsUnique (displayedLinks st) ->
  idsUnique (displayedLinks (snd (Graph.autoAddReverseLinks nodeId st))).
Proof.
  intros Hunique. unfold Graph.autoAddReverseLinks.
  generalize (Graph.getReverseRelations nodeId st) as revs.
  intros revs. generalize false. revert st Hunique.
  induction revs as [| rv revs IH];
    intros st0 Hunique added; cbn [fold_left snd]; [exact Hunique |].
  destruct (JsSet.has (displayedNodes st0) (Reverse.source rv)).
  - pose proof (pushIfAbsent_idsUnique (Graph.linkOfReverse nodeId rv)
                  added st0 Hunique) as Hstep.
    destruct (Graph.pushIfAbsent (Graph.linkOfReverse nodeId rv)
                                 (added, st0)) as [added1 st1].
    apply IH. exact Hstep.
  - apply IH. exact Hunique.
Qed.

End IdFacts.

(* ------------------------------------------------------------------ *)
(** ** Where the code departs from the specification *)

(** C4. [expandNode] looks for an existing link by its three fields while
    the other operations look for it by its composite id.  On the node map
    parsed from [Examples.hyphenSchema], [expandNode("a-b", 2)] from the
    state that displays nothing leaves two displayed links with the
    composite id [a-b-c-d], and so does calling it twice; this is the graph
    that loading the page with [?node=a-b] and depth 2 builds. *)
Theorem expandNode_duplicates_composite_id :
  Parser.parseSchema Examples.hyphenSchema "Document"
  = Some (nodes Examples.hyphenState) /\
  displayedLinks Examples.hyphenState = [] /\
  List.map (fun l => (Link.id l, Link.source l, Link.target l, Link.property l))
           (displayedLinks (Graph.expandNode "a-b" 2 Examples.hyphenState))
  = [("a-b-c-d", "a-b", "c", "d");
     ("a-b-a-y", "a-b", "a", "y");
     ("a-b-c-d", "a", "b", "c-d")] /\
  Edges.countIds "a-b-c-d"
                 (displayedLinks
                    (Graph.expandNode "a-b" 2 Examples.hyphenState)) = 2%nat /\
  Edges.countIds "a-b-c-d"
                 (displayedLinks
                    (Graph.expandNode "a-b" 2
                       (Graph.expandNode "a-b" 2 Examples.hyphenState)))
  = 2%nat /\
  displayedLinks (exec (App.loadSchema "Document"
                                       (Some Examples.hyphenSchema) 2)
                       (Examples.page [("node", "a-b")]))
  = displayedLinks (Graph.expandNode "a-b" 2 Examples.hyphenState).
Proof.
  vm_compute. repeat split; reflexivity.
Qed.

(** C7. The restoration of the [link] parameter adds the two ids it reads
    from the parameter to the displayed set without looking them up: with
    [?link=Foo-Bar-baz] the displayed set receives [Foo] and [Bar], which
    are not keys of the node map, and the redraw that follows raises.
    [initializeGraph] with depth 0 adds its start node in the same way. *)
Theorem loadSchema_displays_unknown_ids :
  let st := exec (App.loadSchema "Document" (Some Examples.packageSchema) 1)
                 (Examples.page [("link", "Foo-Bar-baz")]) in
  nodes st = Examples.packageNodes /\
  displayedNodes st = ["Document"; "Package"; "Foo"; "Bar"] /\
  JsMap.has (nodes st) "Foo" = false /\
  JsMap.has (nodes st) "Bar" = false /\
  fst (Graph.updateGraph st) = Throw /\
  dom st = [Dom.render; Dom.sidebarError] /\
  displayedNodes
    (exec (Graph.initializeGraph 0 None)
          (setNodes Examples.packageNodes (Examples.page [("node", "Ghost")])))
  = ["Ghost"].
Proof.
  vm_compute. repeat split; reflexivity.
Qed.

(* ------------------------------------------------------------------ *)
(** ** Search ranking *)

Module SortFacts.

Section Sorting.

Variable A : Type.
Variable compare : A -> A -> Z.
Hypothesis compare_consistent : Ranking.consistent compare.

Let le (a b : A) : Prop := compare a b <= 0.

Lemma le_total a b : le a b \/ le b a.
Proof.
  unfold le. destruct compare_consistent as [Hsym _].
  specialize (Hsym a b). lia.
Qed.

Lemma in_insert x y l :
  In y (Search.insert compare x l) <-> y = x \/ In y l.
Proof.
  induction l as [| z l IH]; cbn.
  - split; [intros [<- | []]; left; reflexivity |
            intros [-> | []]; left; reflexivity].
  - destruct (compare x z <=? 0); cbn.
    + split; [intros [<- | H]; [left; reflexivity | right; exact H] |
              intros [-> | H]; [left; reflexivity | right; exact H]].
    + rewrite IH. split.
      * intros [<- | [-> | H]];
          [right; left; reflexivity | left; reflexivity |
           right; right; exact H].
      * intros [-> | [<- | H]];
          [right; left; reflexivity | left; reflexivity |
           right; right; exact H].
Qed.

Lemma insert_sorted x l :
  StronglySorted le l -> StronglySorted le (Search.insert compare x l).
Proof.
  destruct compare_consistent as [_ Htrans].
  induction l as [| z l IH]; intros Hsorted; cbn.
  - constructor; constructor.
  - inversion Hsorted as [| ? ? Hl Hz]; subst.
    destruct (Z.leb_spec (compare x z) 0) as [Hle | Hgt].
    + constructor; [exact Hsorted |]. constructor; [exact Hle |].
      rewrite Forall_forall in Hz |- *. intros y Hy.
      unfold le in *. apply Htrans with z; [exact Hle | apply Hz, Hy].
    + constructor; [apply IH; exact Hl |].
      rewrite Forall_forall in Hz |- *. intros y Hy.
      apply in_insert in Hy. destruct Hy as [-> | Hy]; [| apply Hz, Hy].
      destruct (le_total z x) as [H | H]; [exact H |].
      unfold le in H. lia.
Qed.

Lemma sort_sorted l : StronglySorted le (Search.sort compare l).
Proof.
  induction l as [| x l IH]; cbn; [constructor |].
  apply insert_sorted. exact IH.
Qed.

Lemma firstn_sorted (R : A -> A -> Prop) n l :
  StronglySorted R l -> StronglySorted R (firstn n l).
Proof.
  revert l. induction n as [| n IH]; intros l Hsorted; cbn;
    [constructor |].
  destruct l as [| x l]; [constructor |].
  inversion Hsorted as [| ? ? Hl Hx]; subst.
  constructor; [apply IH; exact Hl |].
  rewrite Forall_forall in Hx |- *. intros y Hy. apply Hx.
  revert Hy. clear. revert l. induction n as [| n IHn]; intros l; cbn.
  - intros [].
  - destruct l as [| z l]; cbn; [intros [] |].
    intros [<- | H]; [left; reflexivity | right; apply IHn; exact H].
Qed.

End Sorting.

End SortFacts.

Module ReadableFacts.

Import Ranking.

Lemma get_some_nullish v k x : Js.get v k = Some x -> Js.nullish v = false.
Proof.
  unfold Js.get. destruct (Js.nullish v); [discriminate | reflexivity].
Qed.

Lemma get_getOpt v k x : Js.get v k = Some x -> Js.getOpt v k = x.
Proof. unfold Js.getOpt. intros ->. reflexivity. Qed.

Lemma relationsOf_nonnull allNodes props :
  forall rels,
    Parser.relationsOf allNodes props = Some rels ->
    forall k v, In (k, v) props -> Js.nullish v = false.
Proof.
  induction props as [| [propName propDef] rest IH]; cbn;
    intros rels H k v Hin; [destruct Hin |].
  destruct (Parser.propertyRelations allNodes propName propDef)
    as [here |] eqn:Hhere; [| discriminate H].
  destruct (Parser.relationsOf allNodes rest) as [more |] eqn:Hmore;
    [| discriminate H].
  destruct Hin as [[= <- <-] | Hin]; [| eapply IH; [reflexivity | exact Hin]].
  unfold Parser.propertyRelations in Hhere.
  destruct (Js.get propDef "$ref") as [ref |] eqn:Href;
    [| discriminate Hhere].
  eapply get_some_nullish. exact Href.
Qed.

Lemma extractRelations_nonnull properties allNodes rels :
  Parser.extractRelations properties allNodes = Some rels ->
  forall k v, In (k, v) (Js.ownEntries properties) -> Js.nullish v = false.
Proof.
  unfold Parser.extractRelations, Js.entries. intros H.
  destruct (Js.nullish properties); [discriminate H |].
  eapply relationsOf_nonnull. exact H.
Qed.

Lemma addDefinitions_entries defs :
  forall nodes result,
    Parser.addDefinitions defs nodes = Some result ->
    forall id node,
      In (id, node) result ->
      In (id, node) nodes \/
      exists def, In (id, def) defs /\
                  Parser.definitionNodeOf id def = Some node.
Proof.
  induction defs as [| [name def] rest IH]; cbn; intros nodes result H id
                                                   node Hin.
  - injection H as <-. left. exact Hin.
  - destruct (Parser.definitionNodeOf name def) as [built |] eqn:Hbuilt;
      [| discriminate H].
    destruct (IH _ _ H id node Hin) as [Hold | (def' & Hdef & Hnode)].
    + apply MapFacts.in_set in Hold. destruct Hold as [[= -> ->] | Hold].
      * right. exists def. split; [left; reflexivity | exact Hbuilt].
      * left. exact Hold.
    + right. exists def'. split; [right; exact Hdef | exact Hnode].
Qed.

Lemma pushRelations_shape nodes name rels id node :
  In (id, node) (Parser.pushRelations nodes name rels) ->
  exists node0, In (id, node0) nodes /\ sameShape node node0.
Proof.
  unfold Parser.pushRelations.
  destruct (JsMap.get nodes name) as [old |] eqn:Hget; intros Hin.
  - apply MapFacts.in_set in Hin. destruct Hin as [[= -> ->] | Hin].
    + exists old. split; [apply MapFacts.get_in; exact Hget |].
      split; reflexivity.
    + exists node. split; [exact Hin | split; reflexivity].
  - exists node. split; [exact Hin | split; reflexivity].
Qed.

Lemma extractAll_shape definitions rootId names :
  forall nodes result,
    Parser.extractAll definitions rootId names nodes = Some result ->
    forall id node,
      In (id, node) result ->
      exists node0, In (id, node0) nodes /\ sameShape node node0.
Proof.
  induction names as [| name rest IH]; cbn; intros nodes result H id node
                                                   Hin.
  - injection H as <-. exists node. split; [exact Hin | split; reflexivity].
  - destruct (String.eqb name rootId); [eapply IH; eassumption |].
    destruct (Js.truthy _); [| eapply IH; eassumption].
    destruct (Parser.extractRelations _ nodes) as [rels |];
      [| discriminate H].
    destruct (IH _ _ H id node Hin) as (node1 & Hin1 & [Hn1 Hp1]).
    destruct (pushRelations_shape _ _ _ _ _ Hin1) as (node0 & Hin0 & [Hn0 Hp0]).
    exists node0. split; [exact Hin0 |]. split; congruence.
Qed.

(** What the extraction loop has read of the definitions it visited. *)
Lemma extractAll_checked definitions rootId names :
  forall nodes result,
    Parser.extractAll definitions rootId names nodes = Some result ->
    forall name,
      In name names ->
      name <> rootId ->
      Js.truthy (Js.getOpt (Js.getOpt definitions name) "properties")
      = true ->
      forall k v,
        In (k, v) (Js.ownEntries
                     (Js.getOpt (Js.getOpt definitions name) "properties")) ->
        Js.nullish v = false.
Proof.
  induction names as [| name0 rest IH]; cbn; intros nodes result H name Hin
                                                    Hne Htruthy k v Hkv;
    [destruct Hin |].
  destruct (String.eqb_spec name0 rootId) as [-> | Hne0].
  - destruct Hin as [<- | Hin]; [contradiction |].
    eapply IH; eassumption.
  - destruct Hin as [<- | Hin].
    + rewrite Htruthy in H.
      destruct (Parser.extractRelations _ nodes) as [rels |] eqn:Hrels;
        [| discriminate H].
      eapply extractRelations_nonnull; eassumption.
    + destruct (Js.truthy _).
      * destruct (Parser.extractRelations _ nodes) as [rels |];
          [| discriminate H].
        eapply IH; eassumption.
      * eapply IH; eassumption.
Qed.

Lemma get_unique {V} (m : JsMap.t V) k v :
  NoDup (List.map fst m) -> In (k, v) m -> JsMap.get m k = Some v.
Proof.
  induction m as [| [k' v'] m IH]; cbn; intros Hnd Hin; [destruct Hin |].
  inversion Hnd as [| ? ? Hfresh Hrest]; subst.
  destruct Hin as [[= -> ->] | Hin].
  - rewrite String.eqb_refl. reflexivity.
  - destruct (String.eqb_spec k' k) as [-> | _]; [| apply IH; assumption].
    exfalso. apply Hfresh. apply in_map_iff. exists (k, v).
    split; [reflexivity | exact Hin].
Qed.

Lemma or_shape p :
  (Js.truthy p = true /\ Js.or p (VObj []) = p) \/
  (Js.truthy p = false /\ Js.or p (VObj []) = VObj []).
Proof.
  unfold Js.or. destruct (Js.truthy p); [left | right]; split; reflexivity.
Qed.

Lemma rootNodeOf_shape schema schemaName rootNode :
  Parser.rootNodeOf schema schemaName = Some rootNode ->
  exists title properties,
    Js.get schema "title" = Some title /\
    Js.get schema "properties" = Some properties /\
    Node.name rootNode = Js.or title (VStr ("ORD " ++ schemaName)) /\
    Node.properties rootNode = Js.or properties (VObj []).
Proof.
  unfold Parser.rootNodeOf. intros H.
  destruct (Js.get schema "title") as [title |]; [| discriminate H].
  destruct (Js.get schema "x-ums-type"); [| discriminate H].
  destruct (Js.get schema "description"); [| discriminate H].
  destruct (Js.get schema "properties") as [properties |];
    [| discriminate H].
  destruct (Js.get schema "required"); [| discriminate H].
  destruct (Js.get schema "x-recommended"); [| discriminate H].
  destruct (Js.get schema "examples"); [| discriminate H].
  destruct (Js.get schema "example"); [| discriminate H].
  destruct (Parser.extractXProperties schema); [| discriminate H].
  injection H as <-. exists title, properties. repeat split; reflexivity.
Qed.

Lemma definitionNodeOf_shape name def node :
  Parser.definitionNodeOf name def = Some node ->
  exists properties,
    Js.get def "properties" = Some properties /\
    Node.name node = VStr (Utils.formatName name) /\
    Node.properties node = Js.or properties (VObj []).
Proof.
  unfold Parser.definitionNodeOf. intros H.
  destruct (Js.get def "type"); [| discriminate H].
  destruct (Js.get def "x-ums-type"); [| discriminate H].
  destruct (Js.get def "title"); [| discriminate H].
  destruct (Js.get def "description"); [| discriminate H].
  destruct (Js.get def "properties") as [properties |]; [| discriminate H].
  destruct (Js.get def "required"); [| discriminate H].
  destruct (Js.get def "x-recommended"); [| discriminate H].
  destruct (Js.get def "examples"); [| discriminate H].
  destruct (Js.get def "example"); [| discriminate H].
  destruct (Parser.extractXProperties def); [| discriminate H].
  injection H as <-. exists properties. repeat split; reflexivity.
Qed.

(** The node map parsed from a plain schema can be searched. *)
Lemma parseSchema_searchable schema schemaName nodes :
  plainSchema schema schemaName ->
  Parser.parseSchema schema schemaName = Some nodes ->
  searchable nodes.
Proof.
  intros [Htitle Hdefs]. unfold Parser.parseSchema. intros H.
  destruct (Js.get schema "definitions") as [definitionsProp |] eqn:Hget;
    [| discriminate H].
  destruct (Hdefs definitionsProp eq_refl) as [Hnodup Hnoroot].
  set (definitions := Js.or definitionsProp (VObj [])) in *.
  destruct (Parser.rootNodeOf schema schemaName) as [rootNode |] eqn:Hroot;
    [| discriminate H].
  assert (Hentries : Js.entries definitions
                     = Some (Js.ownEntries definitions)).
  { unfold Js.entries. subst definitions. unfold Js.or.
    destruct definitionsProp; try reflexivity;
      destruct (Js.truthy _) eqn:Ht; try reflexivity; discriminate Ht. }
  rewrite Hentries in H.
  assert (Hnonnull : Js.nullish definitions = false).
  { unfold Js.entries in Hentries.
    destruct (Js.nullish definitions); [discriminate | reflexivity]. }
  destruct (Parser.addDefinitions (Js.ownEntries definitions) _)
    as [nodes1 |] eqn:Hadd; [| discriminate H].
  destruct (Parser.extractRelations _ nodes1) as [rootRels |] eqn:Hrels;
    [| discriminate H].
  rewrite Hnoroot in H.
  intros id node Hin.
  destruct (extractAll_shape _ _ _ _ _ H id node Hin)
    as (node2 & Hin2 & [Hname2 Hprops2]).
  assert (Hvisited : In id (JsMap.keys
                              (Parser.pushRelations nodes1 schemaName
                                                    rootRels))).
  { unfold JsMap.keys. apply in_map_iff. exists (id, node2).
    split; [reflexivity | exact Hin2]. }
  destruct (pushRelations_shape _ _ _ _ _ Hin2)
    as (node1 & Hin1 & [Hname1 Hprops1]).
  rewrite Hname2, Hname1, Hprops2, Hprops1.
  destruct (addDefinitions_entries _ _ _ Hadd id node1 Hin1)
    as [[[= -> ->] | []] | (def & Hdef & Hnode)].
  - destruct (rootNodeOf_shape _ _ _ Hroot)
      as (title & properties & Ht & Hp & -> & ->).
    split.
    + unfold Js.or. destruct (Js.truthy title) eqn:Htruthy.
      * apply (Htitle title Ht Htruthy).
      * eexists. reflexivity.
    + rewrite (get_getOpt _ _ _ Hp) in Hrels.
      eapply extractRelations_nonnull. exact Hrels.
  - destruct (definitionNodeOf_shape _ _ _ Hnode)
      as (properties & Hp & -> & ->).
    split; [eexists; reflexivity |].
    assert (Hne : id <> schemaName).
    { intros ->. apply MapFacts.in_has in Hdef.
      rewrite Hdef in Hnoroot. discriminate Hnoroot. }
    assert (Hlookup : Js.getOpt definitions id = def).
    { unfold Js.getOpt, Js.get. rewrite Hnonnull.
      rewrite (get_unique _ _ _ Hnodup Hdef). reflexivity. }
    destruct (or_shape properties) as [[Htruthy ->] | [_ ->]];
      [| intros k v []].
    pose proof (extractAll_checked _ _ _ _ _ H id Hvisited Hne) as Hchecked.
    rewrite Hlookup, (get_getOpt _ _ _ Hp) in Hchecked.
    exact (Hchecked Htruthy).
Qed.

End ReadableFacts.

Module RankingFacts.

Import Ranking.

Lemma compareResults_ranks localeCompare query a b :
  Search.compareResults localeCompare query a b <= 0 <->
  ranksBefore localeCompare query a b.
Proof.
  unfold Search.compareResults, ranksBefore, prefixRank, lower.
  destruct (Z.eqb_spec (Search.typeWeight (Result.type a))
                       (Search.typeWeight (Result.type b))) as [Hw | Hw];
    cbn [negb]; [| lia].
  destruct (Str.startsWith query
              (Search.matchPart (Result.type a)
                                (Str.toLowerCase (Result.name a))));
    destruct (Str.startsWith query
                (Search.matchPart (Result.type b)
                                  (Str.toLowerCase (Result.name b))));
    cbn [andb negb]; try lia.
  - destruct (Nat.eqb_spec
                (String.length (Str.toLowerCase (Result.name a)))
                (String.length (Str.toLowerCase (Result.name b))));
      cbn [negb]; lia.
  - destruct (Nat.eqb_spec
                (String.length (Str.toLowerCase (Result.name a)))
                (String.length (Str.toLowerCase (Result.name b))));
      cbn [negb]; lia.
Qed.

Lemma compareResults_consistent localeCompare query :
  consistent localeCompare ->
  consistent (Search.compareResults localeCompare query).
Proof.
  intros [Hsym Htrans]. split.
  - intros a b. unfold Search.compareResults.
    rewrite (Z.eqb_sym (Search.typeWeight (Result.type b))).
    rewrite (Nat.eqb_sym (String.length (Str.toLowerCase (Result.name b)))).
    destruct (Z.eqb_spec (Search.typeWeight (Result.type a))
                         (Search.typeWeight (Result.type b))) as [Hw | Hw];
      cbn [negb]; [| lia].
    destruct (Str.startsWith query
                (Search.matchPart (Result.type a)
                                  (Str.toLowerCase (Result.name a))));
      destruct (Str.startsWith query
                  (Search.matchPart (Result.type b)
                                    (Str.toLowerCase (Result.name b))));
      cbn [andb negb]; try reflexivity.
    + destruct (Nat.eqb_spec
                  (String.length (Str.toLowerCase (Result.name a)))
                  (String.length (Str.toLowerCase (Result.name b))));
        cbn [negb]; [apply Hsym | lia].
    + destruct (Nat.eqb_spec
                  (String.length (Str.toLowerCase (Result.name a)))
                  (String.length (Str.toLowerCase (Result.name b))));
        cbn [negb]; [apply Hsym | lia].
  - intros a b c. rewrite !compareResults_ranks. unfold ranksBefore.
    pose proof (Htrans (lower a) (lower b) (lower c)) as H. lia.
Qed.

Lemma sorted_weaken {A} (R R' : A -> A -> Prop) l :
  (forall a b, R a b -> R' a b) ->
  StronglySorted R l -> StronglySorted R' l.
Proof.
  intros Himp Hsorted. induction Hsorted as [| x l Hl IH Hx];
    constructor; [exact IH |].
  eapply Forall_impl; [| exact Hx]. intros y. apply Himp.
Qed.

Lemma propertyResults_returns query id nodeName relations props :
  (forall k v, In (k, v) props -> Js.nullish v = false) ->
  exists found,
    Search.propertyResults query id nodeName relations props = Some found.
Proof.
  induction props as [| [propName propDef] rest IH]; intros Hok; cbn.
  - exists []. reflexivity.
  - destruct IH as [more Hmore].
    { intros k v Hin. apply (Hok k v). right. exact Hin. }
    rewrite Hmore.
    destruct (Str.includes query (Str.toLowerCase propName)).
    + unfold Js.get.
      rewrite (Hok propName propDef (or_introl eq_refl)).
      eexists. reflexivity.
    + eexists. reflexivity.
Qed.

Lemma nodeResults_returns query id node :
  (exists s, Node.name node = VStr s) ->
  (forall k v, In (k, v) (Js.ownEntries (Node.properties node)) ->
               Js.nullish v = false) ->
  exists found, Search.nodeResults query (id, node) = Some found.
Proof.
  intros [s Hname] Hprops. unfold Search.nodeResults. rewrite Hname.
  destruct (Js.truthy (Node.properties node)) eqn:Htruthy;
    [| eexists; reflexivity].
  assert (Hentries : Js.entries (Node.properties node)
                     = Some (Js.ownEntries (Node.properties node))).
  { unfold Js.entries.
    destruct (Node.properties node); try discriminate Htruthy; reflexivity. }
  rewrite Hentries.
  destruct (propertyResults_returns query id s (Node.relations node)
              (Js.ownEntries (Node.properties node)) Hprops)
    as [found Hfound].
  rewrite Hfound. eexists. reflexivity.
Qed.

Lemma collect_returns query entries :
  searchable entries ->
  exists results, Search.collect query entries = Some results.
Proof.
  induction entries as [| [id node] rest IH]; intros Hok; cbn [Search.collect].
  - exists []. reflexivity.
  - destruct (Hok id node (or_introl eq_refl)) as [Hname Hprops].
    destruct (nodeResults_returns query id node Hname Hprops)
      as [here Hhere].
    destruct IH as [more Hmore].
    { intros id' node' Hin. apply (Hok id' node'). right. exact Hin. }
    rewrite Hhere, Hmore. eexists. reflexivity.
Qed.

Lemma ascii_compare_lt_trans a b c :
  Ascii.compare a b = Lt -> Ascii.compare b c = Lt -> Ascii.compare a c = Lt.
Proof.
  unfold Ascii.compare. rewrite !N.compare_lt_iff. apply N.lt_trans.
Qed.

Lemma ascii_compare_refl a : Ascii.compare a a = Eq.
Proof. unfold Ascii.compare. apply N.compare_refl. Qed.

Lemma string_compare_lt_trans a :
  forall b c,
    String.compare a b = Lt -> String.compare b c = Lt ->
    String.compare a c = Lt.
Proof.
  induction a as [| x a IH]; intros [| y b] [| z c]; cbn;
    try discriminate; try reflexivity.
  destruct (Ascii.compare x y) eqn:Hxy; try discriminate;
    destruct (Ascii.compare y z) eqn:Hyz; try discriminate; intros Hab Hbc.
  - apply Ascii.compare_eq_iff in Hxy, Hyz. subst.
    rewrite ascii_compare_refl. apply IH with b; assumption.
  - apply Ascii.compare_eq_iff in Hxy. subst. rewrite Hyz. reflexivity.
  - apply Ascii.compare_eq_iff in Hyz. subst. rewrite Hxy. reflexivity.
  - rewrite (ascii_compare_lt_trans x y z Hxy Hyz). reflexivity.
Qed.

Lemma string_compare_refl a : String.compare a a = Eq.
Proof.
  induction a as [| x a IH]; cbn; [reflexivity |].
  rewrite ascii_compare_refl. exact IH.
Qed.

Lemma codeUnitCompare_consistent : consistent codeUnitCompare.
Proof.
  split.
  - intros a b. unfold codeUnitCompare. rewrite (String.compare_antisym b a).
    destruct (String.compare a b); reflexivity.
  - intros a b c. unfold codeUnitCompare.
    destruct (String.compare a b) eqn:Hab;
      destruct (String.compare b c) eqn:Hbc; try lia; intros _ _.
    + apply String.compare_eq_iff in Hab, Hbc. subst.
      rewrite string_compare_refl. lia.
    + apply String.compare_eq_iff in Hab. subst. rewrite Hbc. lia.
    + apply String.compare_eq_iff in Hbc. subst. rewrite Hab. lia.
    + rewrite (string_compare_lt_trans a b c Hab Hbc). lia.
Qed.

Lemma packageSchema_plain : plainSchema Examples.packageSchema "Document".
Proof.
  split.
  - intros t Ht _. vm_compute in Ht. injection Ht as <-.
    eexists. reflexivity.
  - intros d Hd. vm_compute in Hd. injection Hd as <-. split.
    + cbn. repeat constructor; cbn; intuition discriminate.
    + reflexivity.
Qed.

Lemma packageNodes_searchable : searchable Examples.packageNodes.
Proof.
  apply ReadableFacts.parseSchema_searchable
    with Examples.packageSchema "Document".
  - exact packageSchema_plain.
  - vm_compute. reflexivity.
Qed.

End RankingFacts.




(* ================================================================== *)
(** * Further properties of the graph engine *)

Module InvariantFacts.

Import Edges.
Import Invariants.

Lemma updateGraph_known st :
  displayedKnown st -> linksJoin st ->
  Graph.updateGraph st = (Done tt, perform [Dom.render] st).
Proof.
  intros Hknown Hjoin. unfold Graph.updateGraph.
  assert (H : forallb (JsMap.has (nodes st)) (displayedNodes st) = true).
  { apply forallb_forall. exact Hknown. }
  assert (H' : forallb (Graph.endsDisplayed (displayedNodes st))
                       (displayedLinks st) = true).
  { apply forallb_forall. intros l Hl. destruct (Hjoin l Hl) as [Hs Ht].
    unfold Graph.endsDisplayed.
    rewrite (proj2 (SetFacts.has_in _ _) Hs),
      (proj2 (SetFacts.has_in _ _) Ht). reflexivity. }
  rewrite H, H'. reflexivity.
Qed.

(** The redraw raises for a displayed link with an end that is not
    displayed. *)
Lemma updateGraph_dangling st l :
  In l (displayedLinks st) ->
  ~ endpointsShown (displayedNodes st) l ->
  Graph.updateGraph st = (Throw, st).
Proof.
  intros Hin Hdangling. unfold Graph.updateGraph.
  destruct (forallb (JsMap.has (nodes st)) (displayedNodes st));
    [| reflexivity].
  destruct (forallb (Graph.endsDisplayed (displayedNodes st))
                    (displayedLinks st)) eqn:H; [| reflexivity].
  exfalso. apply Hdangling. rewrite forallb_forall in H.
  specialize (H l Hin). unfold Graph.endsDisplayed in H.
  apply andb_prop in H. destruct H as [Hs Ht].
  split; apply SetFacts.has_in; assumption.
Qed.

(** The redraw returns exactly on the states whose displayed ids are keys
    of the node map and whose links join displayed nodes. *)
Lemma updateGraph_returns st :
  fst (Graph.updateGraph st) = Done tt <->
  displayedKnown st /\ linksJoin st.
Proof.
  split.
  - unfold Graph.updateGraph.
    destruct (forallb (JsMap.has (nodes st)) (displayedNodes st)) eqn:H;
      [| discriminate].
    destruct (forallb (Graph.endsDisplayed (displayedNodes st))
                      (displayedLinks st)) eqn:H'; [| discriminate].
    intros _. rewrite forallb_forall in H, H'. split.
    + exact H.
    + intros l Hl. specialize (H' l Hl). unfold Graph.endsDisplayed in H'.
      apply andb_prop in H'. destruct H' as [Hs Ht].
      split; apply SetFacts.has_in; assumption.
  - intros [Hknown Hjoin]. rewrite (updateGraph_known st Hknown Hjoin).
    reflexivity.
Qed.

Lemma updateGraph_unknown st x :
  In x (displayedNodes st) -> JsMap.has (nodes st) x = false ->
  Graph.updateGraph st = (Throw, st).
Proof.
  intros Hin Hunknown. unfold Graph.updateGraph.
  destruct (forallb (JsMap.has (nodes st)) (displayedNodes st)) eqn:H;
    [| reflexivity].
  rewrite forallb_forall in H. rewrite (H x Hin) in Hunknown.
  discriminate Hunknown.
Qed.

Lemma expandLevels_known levels nodeId st :
  displayedKnown st ->
  displayedKnown (Graph.expandLevels levels nodeId st).
Proof.
  revert st.
  apply (ExpandFacts.expandLevels_steps
           (fun a b => nodes b = nodes a /\
                       (displayedKnown a -> displayedKnown b))
           ltac:(intros s; split; [reflexivity | intros H; exact H])
           ltac:(intros a b c [Hn1 H1] [Hn2 H2];
                 split; [congruence | intros H; apply H2, H1, H])).
  - intros s id Hhas. split; [reflexivity |]. intros Hknown x Hx.
    cbn in Hx |- *. apply SetFacts.in_add in Hx.
    destruct Hx as [Hx | ->]; [apply Hknown; exact Hx | exact Hhas].
  - intros s id r _ _. split; [reflexivity |]. intros Hknown. exact Hknown.
Qed.

Lemma expandLevels_shows_self levels nodeId st :
  JsMap.has (nodes st) nodeId = true ->
  In nodeId (displayedNodes (Graph.expandLevels levels nodeId st)).
Proof.
  intros Hhas.
  assert (Hfirst : In nodeId (displayedNodes (addDisplayed nodeId st))).
  { cbn. apply SetFacts.in_add. right. reflexivity. }
  destruct levels as [| levels]; cbn [Graph.expandLevels];
    rewrite Hhas; cbn [negb]; [exact Hfirst |].
  destruct (JsMap.get (nodes (addDisplayed nodeId st)) nodeId) as [node |];
    [| exact Hfirst].
  revert Hfirst. generalize (addDisplayed nodeId st). intros s Hs.
  assert (Hext : displayedExtend
                   s (fold_left (Graph.expandRelation
                                   (Graph.expandLevels levels) nodeId)
                                (Node.relations node) s)).
  { apply ExpandFacts.fold_steps.
    - intros a x H. exact H.
    - intros a b c Hab Hbc x H. apply Hbc, Hab, H.
    - intros a r0. apply ExpandFacts.expandRelation_steps.
      + intros a0 x H. exact H.
      + intros a0 b c Hab Hbc x H. apply Hbc, Hab, H.
      + intros a0 id r1 _ _ x H. exact H.
      + intros t a0. apply ExpandFacts.expandLevels_displayedExtend. }
  apply Hext. exact Hs.
Qed.

Lemma expands_refl st : expands st st.
Proof.
  split; [reflexivity |]. split; [intros x H; exact H |].
  intros l H. left. exact H.
Qed.

Lemma expands_trans a b c : expands a b -> expands b c -> expands a c.
Proof.
  intros (Hn1 & Hd1 & Hl1) (Hn2 & Hd2 & Hl2).
  split; [congruence |]. split; [intros x H; apply Hd2, Hd1, H |].
  intros l Hl. destruct (Hl2 l Hl) as [Hb | [Hends Hfrom]].
  - destruct (Hl1 l Hb) as [Ha | [[Hs Ht] Hfrom]]; [left; exact Ha |].
    right. split; [split; apply Hd2; assumption | exact Hfrom].
  - right. split; [exact Hends |]. rewrite <- Hn1. exact Hfrom.
Qed.

Lemma expands_add id st : expands st (addDisplayed id st).
Proof.
  split; [reflexivity |]. split.
  - intros x H. cbn. apply SetFacts.in_add. left. exact H.
  - intros l H. left. exact H.
Qed.

Lemma expandRelation_expands levels nodeId node st r :
  (forall t s, expands s (Graph.expandLevels levels t s)) ->
  JsMap.get (nodes st) nodeId = Some node ->
  In r (Node.relations node) ->
  In nodeId (displayedNodes st) ->
  expands st (Graph.expandRelation (Graph.expandLevels levels) nodeId st r).
Proof.
  intros IH Hget Hr Hshown. unfold Graph.expandRelation.
  destruct (JsMap.has (nodes st) (Relation.target r)) eqn:Hhas;
    [| apply expands_refl].
  destruct (existsb _ (displayedLinks st)).
  - destruct (negb _); [apply IH | apply expands_refl].
  - assert (Hfrom : fromRelation (nodes st) (Graph.linkOf nodeId r)).
    { exists node, r. cbn. repeat split; assumption. }
    destruct (JsSet.has (displayedNodes (pushLink (Graph.linkOf nodeId r) st))
                        (Relation.target r)) eqn:Htarget; cbn [negb].
    + split; [reflexivity |]. split; [intros x H; exact H |].
      intros l Hl. cbn in Hl. apply in_app_iff in Hl.
      destruct Hl as [Hl | [<- | []]]; [left; exact Hl |].
      right. split; [| exact Hfrom]. split; cbn; [exact Hshown |].
      apply SetFacts.has_in. exact Htarget.
    + pose proof (IH (Relation.target r)
                     (pushLink (Graph.linkOf nodeId r) st))
        as (Hn & Hd & Hl).
      split; [rewrite Hn; reflexivity |].
      split; [intros x H; apply Hd; exact H |].
      intros l Hin. destruct (Hl l Hin) as [Hold | Hnew];
        [| right; exact Hnew].
      cbn in Hold. apply in_app_iff in Hold.
      destruct Hold as [Hold | [<- | []]]; [left; exact Hold |].
      right. split; [| exact Hfrom]. split; cbn.
      * apply Hd. exact Hshown.
      * apply expandLevels_shows_self. exact Hhas.
Qed.

Lemma fold_expands levels nodeId node rels :
  (forall t s, expands s (Graph.expandLevels levels t s)) ->
  forall st,
    JsMap.get (nodes st) nodeId = Some node ->
    (forall r, In r rels -> In r (Node.relations node)) ->
    In nodeId (displayedNodes st) ->
    expands st (fold_left (Graph.expandRelation (Graph.expandLevels levels)
                                                nodeId) rels st).
Proof.
  intros IH. induction rels as [| r rels IHrels]; intros st Hget Hsub Hshown;
    cbn [fold_left]; [apply expands_refl |].
  pose proof (expandRelation_expands levels nodeId node st r IH Hget
                (Hsub r (or_introl eq_refl)) Hshown) as Hstep.
  eapply expands_trans; [exact Hstep |].
  destruct Hstep as (Hn & Hd & _).
  apply IHrels.
  - rewrite Hn. exact Hget.
  - intros r0 H. apply Hsub. right. exact H.
  - apply Hd. exact Hshown.
Qed.

Lemma expandLevels_expands levels :
  forall nodeId st, expands st (Graph.expandLevels levels nodeId st).
Proof.
  induction levels as [| levels IH]; intros nodeId st;
    cbn [Graph.expandLevels];
    destruct (JsMap.has (nodes st) nodeId) eqn:Hhas; cbn [negb];
    try apply expands_refl; try apply expands_add.
  destruct (MapFacts.has_true_get _ _ Hhas) as [node Hget].
  cbn [nodes addDisplayed setDisplayedNodes]. rewrite Hget.
  eapply expands_trans; [apply (expands_add nodeId st) |].
  apply fold_expands with node.
  - exact IH.
  - exact Hget.
  - intros r H. exact H.
  - cbn. apply SetFacts.in_add. right. reflexivity.
Qed.

Lemma expands_linksJoin st st' :
  expands st st' -> linksJoin st -> linksJoin st'.
Proof.
  intros (_ & Hshown & Hlinks) Hjoin l Hl.
  destruct (Hlinks l Hl) as [Hold | [Hnew _]]; [| exact Hnew].
  destruct (Hjoin l Hold) as [Hs Ht]. split; apply Hshown; assumption.
Qed.

Lemma expandLevels_linksJoin levels nodeId st :
  linksJoin st -> linksJoin (Graph.expandLevels levels nodeId st).
Proof. apply expands_linksJoin, expandLevels_expands. Qed.

(** Links that join displayed nodes still do when nodes are added. *)
Lemma linksJoin_add id st : linksJoin st -> linksJoin (addDisplayed id st).
Proof.
  intros Hjoin l Hl. destruct (Hjoin l Hl) as [Hs Ht].
  split; cbn; apply SetFacts.in_add; left; assumption.
Qed.

Lemma linksJoin_push link st :
  endpointsShown (displayedNodes st) link -> linksJoin st ->
  linksJoin (pushLink link st).
Proof.
  intros Hlink Hjoin l Hl. cbn in Hl |- *. apply in_app_iff in Hl.
  destruct Hl as [Hl | [<- | []]]; [apply Hjoin; exact Hl | exact Hlink].
Qed.

End InvariantFacts.

(** X1. A second [expandNode] call with the same node and depth leaves the
    state exactly as the first call left it. *)
Theorem expandNode_second_call_changes_nothing :
  forall (st : State) (nodeId : string) (depth : Z),
    Graph.expandNode nodeId depth (Graph.expandNode nodeId depth st)
    = Graph.expandNode nodeId depth st.
Proof.
  intros st nodeId depth. apply TwiceFacts.expandNode_twice.
Qed.

(** X2. [expandNode] only adds: the displayed links it leaves are the old
    ones followed by new ones, every displayed node stays displayed, and
    the node map, the selection, the URL and the page are untouched; for
    an id that is not a key of the node map it does nothing at all. *)
Theorem expandNode_only_adds :
  forall (st : State) (nodeId : string) (depth : Z),
    (exists new,
        displayedLinks (Graph.expandNode nodeId depth st)
        = displayedLinks st ++ new) /\
    (forall x, In x (displayedNodes st) ->
               In x (displayedNodes (Graph.expandNode nodeId depth st))) /\
    nodes (Graph.expandNode nodeId depth st) = nodes st /\
    selectedNode (Graph.expandNode nodeId depth st) = selectedNode st /\
    selectedLink (Graph.expandNode nodeId depth st) = selectedLink st /\
    url (Graph.expandNode nodeId depth st) = url st /\
    dom (Graph.expandNode nodeId depth st) = dom st /\
    (JsMap.has (nodes st) nodeId = false ->
     Graph.expandNode nodeId depth st = st).
Proof.
  intros st nodeId depth. unfold Graph.expandNode.
  pose proof (ExpandFacts.expandLevels_sameFrame (Z.to_nat depth) nodeId st)
    as Hframe.
  unfold Edges.sameFrame in Hframe.
  split; [apply ExpandFacts.expandLevels_linksExtend |].
  split; [apply ExpandFacts.expandLevels_displayedExtend |].
  repeat split; try (rewrite Hframe; reflexivity).
  intros Hunknown.
  destruct (Z.to_nat depth); cbn [Graph.expandLevels]; rewrite Hunknown;
    reflexivity.
Qed.

(** X3. [expandNode] keeps the displayed set inside the node map: when
    every displayed id is a key of the node map before the call, so it is
    afterwards, whatever the node id and the depth. *)
Theorem expandNode_displays_only_known_nodes :
  forall (st : State) (nodeId : string) (depth : Z),
    Invariants.displayedKnown st ->
    Invariants.displayedKnown (Graph.expandNode nodeId depth st).
Proof.
  intros st nodeId depth. apply InvariantFacts.expandLevels_known.
Qed.

Lemma expandNode_displays_only_known_nodes_witness :
  Invariants.displayedKnown
    (Graph.expandNode "Ghost" 2
       (Graph.expandNode "Document" 2 Examples.packageState)).
Proof.
  apply expandNode_displays_only_known_nodes.
  apply expandNode_displays_only_known_nodes.
  intros x Hx. vm_compute in Hx. destruct Hx.
Defined.

(** X4. Every link that [expandNode] adds joins two nodes that are displayed
    when it returns and is built from a relation that its source node holds
    in the node map; when the links displayed before join displayed nodes,
    all displayed links do afterwards. *)
Theorem expandNode_links_join_displayed_nodes :
  forall (st : State) (nodeId : string) (depth : Z),
    (forall l, In l (displayedLinks st) ->
               Invariants.endpointsShown (displayedNodes st) l) ->
    (forall l,
        In l (displayedLinks (Graph.expandNode nodeId depth st)) ->
        Invariants.endpointsShown
          (displayedNodes (Graph.expandNode nodeId depth st)) l) /\
    (forall l,
        In l (displayedLinks (Graph.expandNode nodeId depth st)) ->
        In l (displayedLinks st) \/ Invariants.fromRelation (nodes st) l).
Proof.
  intros st nodeId depth Hold. unfold Graph.expandNode.
  destruct (InvariantFacts.expandLevels_expands (Z.to_nat depth) nodeId st)
    as (_ & Hshown & Hlinks).
  split.
  - intros l Hl. destruct (Hlinks l Hl) as [H | [H _]]; [| exact H].
    destruct (Hold l H) as [Hs Ht]. split; apply Hshown; assumption.
  - intros l Hl. destruct (Hlinks l Hl) as [H | [_ H]];
      [left; exact H | right; exact H].
Qed.

Lemma expandNode_links_join_displayed_nodes_witness :
  Forall
    (Invariants.endpointsShown
       (displayedNodes (Graph.expandNode "Document" 3 Examples.packageState)))
    (displayedLinks (Graph.expandNode "Document" 3 Examples.packageState)).
Proof.
  apply Forall_forall.
  refine (proj1 (expandNode_links_join_displayed_nodes
                   Examples.packageState "Document" 3 _)).
  intros l Hl. vm_compute in Hl. destruct Hl.
Defined.



Module LoopFacts.

Import Edges.
Import Loops.

Section PushLoop.

Variable A : Type.
Variable shown : State -> A -> bool.
Variable mk : A -> Link.t.
Hypothesis shown_push :
  forall st l a, shown (pushLink l st) a = shown st a.

Lemma push_loop items :
  forall added st,
    snd (fold_left (pushStep shown mk) items (added, st))
    = setDisplayedLinks
        (displayedLinks
           (snd (fold_left (pushStep shown mk) items (added, st)))) st /\
    (exists new,
        displayedLinks
          (snd (fold_left (pushStep shown mk) items (added, st)))
        = displayedLinks st ++ new /\
        (fst (fold_left (pushStep shown mk) items (added, st)) = true <->
         added = true \/ new <> []) /\
        (forall l, In l new ->
                   exists a,
                     In a items /\ shown st a = true /\ l = mk a /\
                     existsb (Graph.hasId (Link.id l)) (displayedLinks st)
                     = false)) /\
    (forall a,
        In a items -> shown st a = true ->
        existsb (Graph.hasId (Link.id (mk a)))
                (displayedLinks
                   (snd (fold_left (pushStep shown mk) items (added, st))))
        = true).
Proof.
  induction items as [| x items IH]; intros added st; cbn [fold_left].
  - cbn. split; [destruct st; reflexivity |]. split.
    + exists []. rewrite app_nil_r. split; [reflexivity |]. split.
      * split; [intros H; left; exact H | intros [H | H]; [exact H |]].
        exfalso. apply H. reflexivity.
      * intros l [].
    + intros a [].
  - destruct (pushStep shown mk (added, st) x) as [added1 st1] eqn:Hstep.
    unfold pushStep in Hstep. cbn [snd] in Hstep.
    destruct (shown st x) eqn:Hshown.
    + unfold Graph.pushIfAbsent in Hstep.
      destruct (existsb (Graph.hasId (Link.id (mk x))) (displayedLinks st))
        eqn:Hex; injection Hstep as <- <-.
      * destruct (IH added st) as (Hframe & (new & Hnew & Hadded & Hfrom)
                                   & Hall).
        split; [exact Hframe |]. split.
        -- exists new. split; [exact Hnew |]. split; [exact Hadded |].
           intros l Hl. destruct (Hfrom l Hl) as (a & Hin & H).
           exists a. split; [right; exact Hin | exact H].
        -- intros a [<- | Hin] Ha; [| apply Hall; assumption].
           rewrite Hnew, existsb_app, Hex. reflexivity.
      * destruct (IH true (pushLink (mk x) st))
          as (Hframe & (new & Hnew & Hadded & Hfrom) & Hall).
        cbn [displayedLinks pushLink setDisplayedLinks] in Hnew, Hfrom.
        split; [rewrite Hframe; destruct st; reflexivity |]. split.
        -- exists (mk x :: new).
           split; [rewrite Hnew, <- app_assoc; reflexivity |]. split.
           ++ split; [intros _; right; discriminate |].
              intros _. apply Hadded. left. reflexivity.
           ++ intros l [<- | Hl].
              ** exists x. repeat split; try assumption. left. reflexivity.
              ** destruct (Hfrom l Hl) as (a & Hin & Hs & Heq & Hfresh).
                 exists a. split; [right; exact Hin |].
                 rewrite shown_push in Hs.
                 split; [exact Hs |]. split; [exact Heq |].
                 rewrite existsb_app in Hfresh.
                 apply orb_false_elim in Hfresh. apply Hfresh.
        -- intros a [<- | Hin] Ha.
           ++ rewrite Hnew. cbn [displayedLinks pushLink setDisplayedLinks].
              rewrite !existsb_app. cbn.
              unfold Graph.hasId at 2. rewrite String.eqb_refl.
              rewrite orb_true_r. reflexivity.
           ++ apply Hall; [exact Hin |]. rewrite shown_push. exact Ha.
    + injection Hstep as <- <-.
      destruct (IH added st) as (Hframe & (new & Hnew & Hadded & Hfrom)
                                 & Hall).
      split; [exact Hframe |]. split.
      * exists new. split; [exact Hnew |]. split; [exact Hadded |].
        intros l Hl. destruct (Hfrom l Hl) as (a & Hin & H).
        exists a. split; [right; exact Hin | exact H].
      * intros a [<- | Hin] Ha; [| apply Hall; assumption].
        rewrite Hshown in Ha. discriminate Ha.
Qed.

Lemma push_loop_settled items :
  forall added st,
    (forall a, In a items -> shown st a = true ->
               existsb (Graph.hasId (Link.id (mk a))) (displayedLinks st)
               = true) ->
    fold_left (pushStep shown mk) items (added, st) = (added, st).
Proof.
  induction items as [| x items IH]; intros added st Hall;
    cbn [fold_left]; [reflexivity |].
  assert (Hstep : pushStep shown mk (added, st) x = (added, st)).
  { unfold pushStep. cbn [snd]. destruct (shown st x) eqn:Hshown;
      [| reflexivity].
    unfold Graph.pushIfAbsent.
    rewrite (Hall x (or_introl eq_refl) Hshown). reflexivity. }
  rewrite Hstep. apply IH. intros a Hin. apply Hall. right. exact Hin.
Qed.

Lemma push_loop_idsUnique items :
  forall added st,
    idsUnique (displayedLinks st) ->
    idsUnique (displayedLinks
                 (snd (fold_left (pushStep shown mk) items (added, st)))).
Proof.
  induction items as [| x items IH]; intros added st Hunique;
    cbn [fold_left]; [exact Hunique |].
  unfold pushStep at 2. cbn [snd]. destruct (shown st x).
  - pose proof (IdFacts.pushIfAbsent_idsUnique (mk x) added st Hunique)
      as Hstep.
    destruct (Graph.pushIfAbsent (mk x) (added, st)) as [added1 st1].
    apply IH. exact Hstep.
  - apply IH. exact Hunique.
Qed.

End PushLoop.

End LoopFacts.

Module AutoAddFacts.

Import Edges.
Import Loops.

Lemma getReverseRelations_nodes nodeId st st' :
  nodes st' = nodes st ->
  Graph.getReverseRelations nodeId st' = Graph.getReverseRelations nodeId st.
Proof. unfold Graph.getReverseRelations. intros ->. reflexivity. Qed.

Lemma forward_unfold nodeId st node :
  JsMap.get (nodes st) nodeId = Some node ->
  Graph.autoAddForwardLinks nodeId st
  = fold_left (pushStep targetShown (Graph.linkOf nodeId))
              (Node.relations node) (false, st).
Proof.
  intros Hget. unfold Graph.autoAddForwardLinks. rewrite Hget. reflexivity.
Qed.

Lemma reverse_unfold nodeId st :
  Graph.autoAddReverseLinks nodeId st
  = fold_left (pushStep sourceShown (Graph.linkOfReverse nodeId))
              (Graph.getReverseRelations nodeId st) (false, st).
Proof. reflexivity. Qed.

Lemma frame_fields st st' links :
  st' = setDisplayedLinks links st ->
  nodes st' = nodes st /\ displayedNodes st' = displayedNodes st.
Proof. intros ->. split; reflexivity. Qed.

Lemma forward_twice nodeId st :
  Graph.autoAddForwardLinks nodeId
                            (snd (Graph.autoAddForwardLinks nodeId st))
  = (false, snd (Graph.autoAddForwardLinks nodeId st)).
Proof.
  destruct (JsMap.get (nodes st) nodeId) as [node |] eqn:Hget.
  - rewrite (forward_unfold nodeId st node Hget).
    destruct (LoopFacts.push_loop
                Relation.t targetShown (Graph.linkOf nodeId)
                ltac:(intros; reflexivity) (Node.relations node) false st)
      as (Hframe & _ & Hall).
    destruct (frame_fields _ _ _ Hframe) as [Hnodes Hshown].
    rewrite (forward_unfold nodeId _ node) by (rewrite Hnodes; exact Hget).
    apply LoopFacts.push_loop_settled. intros r Hr Hs. apply Hall; [exact Hr |].
    unfold targetShown in *. rewrite <- Hshown. exact Hs.
  - unfold Graph.autoAddForwardLinks. rewrite Hget. cbn [snd].
    rewrite Hget. reflexivity.
Qed.

Lemma reverse_twice nodeId st :
  Graph.autoAddReverseLinks nodeId
                            (snd (Graph.autoAddReverseLinks nodeId st))
  = (false, snd (Graph.autoAddReverseLinks nodeId st)).
Proof.
  rewrite (reverse_unfold nodeId st).
  destruct (LoopFacts.push_loop
              Reverse.t sourceShown (Graph.linkOfReverse nodeId)
              ltac:(intros; reflexivity)
              (Graph.getReverseRelations nodeId st) false st)
    as (Hframe & _ & Hall).
  destruct (frame_fields _ _ _ Hframe) as [Hnodes Hshown].
  rewrite reverse_unfold.
  assert (Hsame : Graph.getReverseRelations
                    nodeId
                    (snd (fold_left (pushStep sourceShown
                                              (Graph.linkOfReverse nodeId))
                                    (Graph.getReverseRelations nodeId st)
                                    (false, st)))
                  = Graph.getReverseRelations nodeId st).
  { apply getReverseRelations_nodes. exact Hnodes. }
  rewrite Hsame.
  apply LoopFacts.push_loop_settled. intros rv Hrv Hs.
  apply Hall; [exact Hrv |].
  unfold sourceShown in *. rewrite <- Hshown. exact Hs.
Qed.

End AutoAddFacts.

(** X6. [autoAddForwardLinks(id)] does nothing and answers [false] when
    [id] is not a key of the node map.  Otherwise it walks the relations of
    the node: for each whose target is displayed it appends the link of the
    relation unless a displayed link has its composite id, so no composite
    id is appended twice; nothing else changes, every such relation has a
    link with its id afterwards, and the result is [true] if and only if a
    link was appended. *)
Theorem autoAddForwardLinks_adds_missing_links :
  forall (st : State) (id : string),
    (JsMap.get (nodes st) id = None ->
     Graph.autoAddForwardLinks id st = (false, st)) /\
    (forall node,
        JsMap.get (nodes st) id = Some node ->
        snd (Graph.autoAddForwardLinks id st)
        = setDisplayedLinks
            (displayedLinks (snd (Graph.autoAddForwardLinks id st))) st /\
        (exists new,
            displayedLinks (snd (Graph.autoAddForwardLinks id st))
            = displayedLinks st ++ new /\
            NoDup (List.map Link.id new) /\
            (fst (Graph.autoAddForwardLinks id st) = true <-> new <> []) /\
            (forall l,
                In l new ->
                exists r,
                  In r (Node.relations node) /\
                  JsSet.has (displayedNodes st) (Relation.target r) = true /\
                  l = Graph.linkOf id r /\
                  existsb (Graph.hasId (Link.id l)) (displayedLinks st)
                  = false)) /\
        (forall r,
            In r (Node.relations node) ->
            JsSet.has (displayedNodes st) (Relation.target r) = true ->
            existsb (Graph.hasId (Graph.linkId id (Relation.target r)
                                               (Relation.property r)))
                    (displayedLinks (snd (Graph.autoAddForwardLinks id st)))
            = true)).
Proof.
  intros st id. split.
  - intros Hnone. unfold Graph.autoAddForwardLinks. rewrite Hnone.
    reflexivity.
  - intros node Hget. rewrite (AutoAddFacts.forward_unfold id st node Hget).
    destruct (LoopFacts.push_loop
                Relation.t Loops.targetShown (Graph.linkOf id)
                ltac:(intros; reflexivity) (Node.relations node) false st)
      as (Hframe & (new & Hnew & Hadded & Hfrom) & Hall).
    split; [exact Hframe |]. split; [| exact Hall].
    exists new. split; [exact Hnew |]. split.
    { exact (DistinctFacts.push_loop_distinct
               Relation.t Loops.targetShown (Graph.linkOf id)
               (Node.relations node) false st new Hnew). }
    split; [| exact Hfrom].
    rewrite Hadded. split.
    + intros [H | H]; [discriminate H | exact H].
    + intros H. right. exact H.
Qed.

(** X7. A second call of [autoAddForwardLinks] or of [autoAddReverseLinks]
    with the same id adds nothing and answers [false]: callers do not
    redraw. *)
Theorem autoAdd_second_call_adds_nothing :
  forall (st : State) (id : string),
    Graph.autoAddForwardLinks id (snd (Graph.autoAddForwardLinks id st))
    = (false, snd (Graph.autoAddForwardLinks id st)) /\
    Graph.autoAddReverseLinks id (snd (Graph.autoAddReverseLinks id st))
    = (false, snd (Graph.autoAddReverseLinks id st)).
Proof.
  intros st id. split.
  - apply AutoAddFacts.forward_twice.
  - apply AutoAddFacts.reverse_twice.
Qed.

(** X8. [autoAddForwardLinks] and [autoAddReverseLinks] never give two
    displayed links the same composite id: when the ids of the displayed
    links are distinct before the call they are distinct after it. *)
Theorem autoAdd_keeps_ids_distinct :
  forall (st : State) (id : string),
    Edges.idsUnique (displayedLinks st) ->
    Edges.idsUnique (displayedLinks (snd (Graph.autoAddForwardLinks id st))) /\
    Edges.idsUnique (displayedLinks (snd (Graph.autoAddReverseLinks id st))).
Proof.
  intros st id Hunique. split.
  - apply IdFacts.autoAddForwardLinks_idsUnique. exact Hunique.
  - apply IdFacts.autoAddReverseLinks_idsUnique. exact Hunique.
Qed.

Lemma autoAdd_keeps_ids_distinct_witness :
  Edges.idsUnique
    (displayedLinks
       (snd (Graph.autoAddForwardLinks
               "Package" (addDisplayed "PackageLink"
                            (addDisplayed "Package" Examples.packageState))))).
Proof.
  refine (proj1 (autoAdd_keeps_ids_distinct _ "Package" _)).
  vm_compute. constructor.
Defined.

Module AddRelationFacts.

Import Edges.
Import Loops.
Import Invariants.

Lemma run sourceId relation st :
  Graph.addRelationToGraph sourceId relation st
  = match Graph.updateGraph (relationAdded sourceId relation st) with
    | (Done _, st') =>
        (Done tt, Graph.notifyNodeSelect (Relation.target relation) st')
    | (Throw, st') => (Throw, st')
    end.
Proof.
  unfold Graph.addRelationToGraph, relationAdded, bind, read, when, lift, ret.
  destruct (JsSet.has (displayedNodes st) (Relation.target relation));
    cbn [negb]; reflexivity.
Qed.

Lemma pushIfAbsent_frame link added st :
  snd (Graph.pushIfAbsent link (added, st))
  = setDisplayedLinks
      (displayedLinks (snd (Graph.pushIfAbsent link (added, st)))) st.
Proof.
  unfold Graph.pushIfAbsent.
  destruct (existsb _ (displayedLinks st)); cbn; destruct st; reflexivity.
Qed.

Lemma pushIfAbsent_present link added st :
  existsb (Graph.hasId (Link.id link))
          (displayedLinks (snd (Graph.pushIfAbsent link (added, st))))
  = true.
Proof.
  unfold Graph.pushIfAbsent.
  destruct (existsb _ (displayedLinks st)) eqn:Hex; cbn; [exact Hex |].
  rewrite existsb_app. cbn. unfold Graph.hasId at 2.
  rewrite String.eqb_refl, orb_true_r. reflexivity.
Qed.

Lemma pushIfAbsent_extends link added st :
  exists new,
    displayedLinks (snd (Graph.pushIfAbsent link (added, st)))
    = displayedLinks st ++ new.
Proof.
  unfold Graph.pushIfAbsent.
  destruct (existsb _ (displayedLinks st)); cbn.
  - exists []. symmetry. apply app_nil_r.
  - eexists. reflexivity.
Qed.

Lemma addDisplayed_always id st :
  (if negb (JsSet.has (displayedNodes st) id) then addDisplayed id st else st)
  = addDisplayed id st.
Proof.
  destruct (JsSet.has (displayedNodes st) id) eqn:Hhas; cbn [negb];
    [| reflexivity].
  symmetry. apply DepthOneFacts.addDisplayed_present. exact Hhas.
Qed.

(** The state that [addRelationToGraph] hands to the redraw. *)
Lemma relationAdded_shape sourceId relation st :
  relationAdded sourceId relation st
  = setDisplayedLinks
      (displayedLinks (relationAdded sourceId relation st))
      (addDisplayed (Relation.target relation) st) /\
  (exists new,
      displayedLinks (relationAdded sourceId relation st)
      = displayedLinks st ++ new) /\
  existsb (Graph.hasId (Link.id (Graph.linkOf sourceId relation)))
          (displayedLinks (relationAdded sourceId relation st)) = true /\
  (idsUnique (displayedLinks st) ->
   idsUnique (displayedLinks (relationAdded sourceId relation st))).
Proof.
  unfold relationAdded. rewrite addDisplayed_always.
  set (st1 := addDisplayed (Relation.target relation) st).
  set (st2 := snd (Graph.pushIfAbsent (Graph.linkOf sourceId relation)
                                      (false, st1))).
  assert (Hframe2 : st2 = setDisplayedLinks (displayedLinks st2) st1)
    by apply pushIfAbsent_frame.
  assert (Hpresent2 : existsb (Graph.hasId
                                 (Link.id (Graph.linkOf sourceId relation)))
                              (displayedLinks st2) = true)
    by apply pushIfAbsent_present.
  destruct (pushIfAbsent_extends (Graph.linkOf sourceId relation) false st1)
    as [new2 Hnew2]. fold st2 in Hnew2.
  change (displayedLinks st1) with (displayedLinks st) in Hnew2.
  assert (Hunique2 : idsUnique (displayedLinks st) ->
                     idsUnique (displayedLinks st2)).
  { intros H. apply IdFacts.pushIfAbsent_idsUnique. exact H. }
  destruct (negb (JsSet.has (displayedNodes st) (Relation.target relation))).
  - rewrite AutoAddFacts.reverse_unfold.
    destruct (LoopFacts.push_loop
                Reverse.t sourceShown
                (Graph.linkOfReverse (Relation.target relation))
                ltac:(intros; reflexivity)
                (Graph.getReverseRelations (Relation.target relation) st2)
                false st2)
      as (Hframe & (new & Hnew & _) & _).
    split; [| split; [| split]].
    + rewrite Hframe at 1. rewrite Hframe2. destruct st1. reflexivity.
    + exists (new2 ++ new). rewrite Hnew, Hnew2, app_assoc. reflexivity.
    + rewrite Hnew, existsb_app, Hpresent2. reflexivity.
    + intros H. apply LoopFacts.push_loop_idsUnique. apply Hunique2, H.
  - split; [| split; [| split]].
    + rewrite Hframe2 at 1. destruct st1. reflexivity.
    + exists new2. exact Hnew2.
    + exact Hpresent2.
    + exact Hunique2.
Qed.

(** The link of the relation is appended when no link has its id. *)
Lemma relationAdded_first sourceId relation st :
  existsb (Graph.hasId (Link.id (Graph.linkOf sourceId relation)))
          (displayedLinks st) = false ->
  In (Graph.linkOf sourceId relation)
     (displayedLinks (relationAdded sourceId relation st)).
Proof.
  intros Hfresh. unfold relationAdded. rewrite addDisplayed_always.
  set (st1 := addDisplayed (Relation.target relation) st).
  assert (Hin : In (Graph.linkOf sourceId relation)
                   (displayedLinks
                      (snd (Graph.pushIfAbsent
                              (Graph.linkOf sourceId relation)
                              (false, st1))))).
  { unfold Graph.pushIfAbsent.
    change (displayedLinks st1) with (displayedLinks st).
    rewrite Hfresh. cbn. apply in_or_app. right. left. reflexivity. }
  destruct (negb (JsSet.has (displayedNodes st) (Relation.target relation)));
    [| exact Hin].
  rewrite AutoAddFacts.reverse_unfold.
  destruct (LoopFacts.push_loop
              Reverse.t sourceShown
              (Graph.linkOfReverse (Relation.target relation))
              ltac:(intros; reflexivity)
              (Graph.getReverseRelations
                 (Relation.target relation)
                 (snd (Graph.pushIfAbsent (Graph.linkOf sourceId relation)
                                          (false, st1))))
              false
              (snd (Graph.pushIfAbsent (Graph.linkOf sourceId relation)
                                       (false, st1))))
    as (_ & (new & Hnew & _) & _).
  rewrite Hnew. apply in_or_app. left. exact Hin.
Qed.

Lemma known_add id st :
  displayedKnown st -> JsMap.has (nodes st) id = true ->
  displayedKnown (addDisplayed id st).
Proof.
  intros Hknown Hhas x Hx. cbn in Hx |- *. apply SetFacts.in_add in Hx.
  destruct Hx as [Hx | ->]; [apply Hknown; exact Hx | exact Hhas].
Qed.

Lemma known_frame st st' links :
  st' = setDisplayedLinks links st -> displayedKnown st ->
  displayedKnown st'.
Proof. intros -> Hknown. exact Hknown. Qed.

End AddRelationFacts.

Module NotifyFacts.

Lemma selectNode_graph id st :
  nodes (Sidebar.selectNode id st) = nodes st /\
  displayedNodes (Sidebar.selectNode id st) = displayedNodes st /\
  displayedLinks (Sidebar.selectNode id st) = displayedLinks st.
Proof.
  unfold Sidebar.selectNode. cbn.
  destruct (JsMap.get (nodes st) id); repeat split; reflexivity.
Qed.

Lemma notify_graph id st :
  nodes (Graph.notifyNodeSelect id st) = nodes st /\
  displayedNodes (Graph.notifyNodeSelect id st) = displayedNodes st /\
  displayedLinks (Graph.notifyNodeSelect id st) = displayedLinks st.
Proof.
  unfold Graph.notifyNodeSelect. destruct (onNodeSelect st);
    [apply selectNode_graph | repeat split; reflexivity].
Qed.

Lemma notify_selects id st :
  onNodeSelect st = true ->
  selectedNode (Graph.notifyNodeSelect id st) = Some id /\
  selectedLink (Graph.notifyNodeSelect id st) = None.
Proof.
  unfold Graph.notifyNodeSelect. intros ->.
  apply SelectionFacts.selectNode_selection.
Qed.

(** The redraw and the notification leave the displayed sets alone. *)
Lemma after_redraw id st :
  let res := match Graph.updateGraph st with
             | (Done _, st') => (Done tt, Graph.notifyNodeSelect id st')
             | (Throw, st') => (@Throw unit, st')
             end in
  nodes (snd res) = nodes st /\
  displayedNodes (snd res) = displayedNodes st /\
  displayedLinks (snd res) = displayedLinks st.
Proof.
  unfold Graph.updateGraph.
  destruct (forallb (JsMap.has (nodes st)) (displayedNodes st)); cbn zeta;
    cbn [snd]; [| repeat split; reflexivity].
  destruct (forallb (Graph.endsDisplayed (displayedNodes st))
                    (displayedLinks st));
    cbn [snd]; [| repeat split; reflexivity].
  destruct (notify_graph id (perform [Dom.render] st)) as (Hn & Hd & Hl).
  rewrite Hn, Hd, Hl. repeat split; reflexivity.
Qed.

End NotifyFacts.

Module JoinFacts.

Import Edges.
Import Loops.
Import Invariants.

Lemma frame_linksJoin st st' links :
  st' = setDisplayedLinks links st ->
  (forall l, In l links -> endpointsShown (displayedNodes st) l) ->
  linksJoin st'.
Proof. intros -> Hall l Hl. apply Hall. exact Hl. Qed.

Lemma pushIfAbsent_linksJoin link added st :
  endpointsShown (displayedNodes st) link -> linksJoin st ->
  linksJoin (snd (Graph.pushIfAbsent link (added, st))).
Proof.
  intros Hends Hjoin. unfold Graph.pushIfAbsent.
  destruct (existsb _ (displayedLinks st)); cbn [snd]; [exact Hjoin |].
  apply InvariantFacts.linksJoin_push; assumption.
Qed.

Lemma push_loop_linksJoin {A} (shown : State -> A -> bool) (mk : A -> Link.t)
      items added st :
  (forall st l a, shown (pushLink l st) a = shown st a) ->
  (forall a, In a items -> shown st a = true ->
             endpointsShown (displayedNodes st) (mk a)) ->
  linksJoin st ->
  linksJoin (snd (fold_left (pushStep shown mk) items (added, st))).
Proof.
  intros Hpush Hends Hjoin.
  destruct (LoopFacts.push_loop A shown mk Hpush items added st)
    as (Hframe & (new & Hnew & _ & Hfrom) & _).
  apply frame_linksJoin with (1 := Hframe). rewrite Hnew.
  intros l Hl. apply in_app_or in Hl. destruct Hl as [Hl | Hl].
  - apply Hjoin. exact Hl.
  - destruct (Hfrom l Hl) as (a & Hin & Hshown & -> & _).
    apply Hends; assumption.
Qed.

Lemma autoAddReverseLinks_linksJoin id st :
  In id (displayedNodes st) -> linksJoin st ->
  linksJoin (snd (Graph.autoAddReverseLinks id st)).
Proof.
  intros Hid Hjoin. rewrite AutoAddFacts.reverse_unfold.
  apply push_loop_linksJoin; [intros; reflexivity | | exact Hjoin].
  intros rv _ Hshown. split; [| exact Hid].
  apply SetFacts.has_in. exact Hshown.
Qed.

Lemma autoAddReverseLinks_displayed id st :
  displayedNodes (snd (Graph.autoAddReverseLinks id st)) = displayedNodes st.
Proof.
  rewrite AutoAddFacts.reverse_unfold.
  destruct (LoopFacts.push_loop
              Reverse.t sourceShown (Graph.linkOfReverse id)
              ltac:(intros; reflexivity)
              (Graph.getReverseRelations id st) false st) as (Hframe & _).
  rewrite Hframe. reflexivity.
Qed.

Lemma autoAddForwardLinks_linksJoin id st :
  In id (displayedNodes st) -> linksJoin st ->
  linksJoin (snd (Graph.autoAddForwardLinks id st)).
Proof.
  intros Hid Hjoin.
  destruct (JsMap.get (nodes st) id) as [node |] eqn:Hget.
  - rewrite (AutoAddFacts.forward_unfold id st node Hget).
    apply push_loop_linksJoin; [intros; reflexivity | | exact Hjoin].
    intros r _ Hshown. split; [exact Hid |].
    apply SetFacts.has_in. exact Hshown.
  - unfold Graph.autoAddForwardLinks. rewrite Hget. exact Hjoin.
Qed.

(** The links that [addRelationToGraph] hands to the redraw join displayed
    nodes when the source of the relation is displayed. *)
Lemma relationAdded_linksJoin sourceId relation st :
  In sourceId (displayedNodes st) -> linksJoin st ->
  linksJoin (relationAdded sourceId relation st).
Proof.
  intros Hsource Hjoin. unfold relationAdded.
  rewrite AddRelationFacts.addDisplayed_always.
  set (st1 := addDisplayed (Relation.target relation) st).
  assert (Htarget : In (Relation.target relation) (displayedNodes st1)).
  { cbn. apply SetFacts.in_add. right. reflexivity. }
  assert (Hjoin2 : linksJoin
                     (snd (Graph.pushIfAbsent
                             (Graph.linkOf sourceId relation) (false, st1)))).
  { apply pushIfAbsent_linksJoin.
    - split; [| exact Htarget].
      cbn. apply SetFacts.in_add. left. exact Hsource.
    - apply InvariantFacts.linksJoin_add. exact Hjoin. }
  destruct (negb (JsSet.has (displayedNodes st) (Relation.target relation)));
    [| exact Hjoin2].
  apply autoAddReverseLinks_linksJoin; [| exact Hjoin2].
  rewrite (AddRelationFacts.pushIfAbsent_frame
             (Graph.linkOf sourceId relation) false st1).
  exact Htarget.
Qed.

Lemma graph_linksJoin st st' :
  displayedNodes st' = displayedNodes st ->
  displayedLinks st' = displayedLinks st ->
  linksJoin st -> linksJoin st'.
Proof.
  intros Hd Hl Hjoin l Hin. rewrite Hd. apply Hjoin. rewrite <- Hl.
  exact Hin.
Qed.

Lemma graph_known st st' :
  nodes st' = nodes st ->
  displayedNodes st' = displayedNodes st ->
  displayedKnown st -> displayedKnown st'.
Proof.
  intros Hn Hd Hknown x Hx. rewrite Hn. apply Hknown. rewrite <- Hd.
  exact Hx.
Qed.

Lemma selectNode_dom id st :
  exists effects, dom (Sidebar.selectNode id st) = dom st ++ effects.
Proof.
  unfold Sidebar.selectNode. cbn.
  destruct (JsMap.get (nodes st) id).
  - eexists. reflexivity.
  - exists []. symmetry. apply app_nil_r.
Qed.

Lemma selectLink_dom id st :
  exists effects, dom (Sidebar.selectLink id st) = dom st ++ effects.
Proof.
  unfold Sidebar.selectLink. cbn.
  destruct (find _ (displayedLinks st)).
  - cbn. rewrite <- app_assoc. eexists. reflexivity.
  - exists []. symmetry. apply app_nil_r.
Qed.

Lemma notify_dom id st :
  exists effects, dom (Graph.notifyNodeSelect id st) = dom st ++ effects.
Proof.
  unfold Graph.notifyNodeSelect. destruct (onNodeSelect st).
  - apply selectNode_dom.
  - exists []. symmetry. apply app_nil_r.
Qed.

(** What is left once the redraw has returned and the selection callback
    has been called. *)
Lemma redrawn id st :
  displayedKnown st -> linksJoin st ->
  let res := match Graph.updateGraph st with
             | (Done _, st') => (Done tt, Graph.notifyNodeSelect id st')
             | (Throw, st') => (@Throw unit, st')
             end in
  (exists effects, dom (snd res) = dom st ++ Dom.render :: effects) /\
  displayedKnown (snd res) /\
  linksJoin (snd res) /\
  (onNodeSelect st = true ->
   selectedNode (snd res) = Some id /\ selectedLink (snd res) = None) /\
  (onNodeSelect st = false -> res = (Done tt, perform [Dom.render] st)).
Proof.
  intros Hknown Hjoin.
  rewrite (InvariantFacts.updateGraph_known st Hknown Hjoin).
  cbv zeta. cbn [fst snd].
  destruct (NotifyFacts.notify_graph id (perform [Dom.render] st))
    as (Hn & Hd & Hl).
  split; [| split; [| split; [| split]]].
  - destruct (notify_dom id (perform [Dom.render] st)) as [effects Hdom].
    exists effects. rewrite Hdom. cbn. rewrite <- app_assoc. reflexivity.
  - apply graph_known with (perform [Dom.render] st); assumption.
  - apply graph_linksJoin with (perform [Dom.render] st); assumption.
  - intros Hcallback. apply NotifyFacts.notify_selects. exact Hcallback.
  - intros Hcallback. unfold Graph.notifyNodeSelect. cbn [onNodeSelect perform setDom].
    change (onNodeSelect (perform [Dom.render] st)) with (onNodeSelect st).
    rewrite Hcallback. reflexivity.
Qed.

(** The redraw raises on a displayed link whose end is not displayed, and
    nothing is selected. *)
Lemma not_redrawn id st l :
  In l (displayedLinks st) ->
  ~ endpointsShown (displayedNodes st) l ->
  match Graph.updateGraph st with
  | (Done _, st') => (Done tt, Graph.notifyNodeSelect id st')
  | (Throw, st') => (@Throw unit, st')
  end = (Throw, st).
Proof.
  intros Hin Hdangling.
  rewrite (InvariantFacts.updateGraph_dangling st l Hin Hdangling).
  reflexivity.
Qed.

End JoinFacts.



Module AddReverseFacts.

Lemma run_found targetId sourceId property type st sourceNode rel :
  JsMap.get (nodes st) sourceId = Some sourceNode ->
  find (fun r =>
          (String.eqb (Relation.target r) targetId &&
           String.eqb (Relation.property r) property &&
           match Relation.type r, type with
           | composition, composition => true
           | association, association => true
           | _, _ => false
           end)%bool)
       (Node.relations sourceNode) = Some rel ->
  Graph.addReverseRelationToGraph targetId sourceId property type st
  = match Graph.updateGraph
            (snd (Graph.pushIfAbsent
                    (Link.mk (Graph.linkId sourceId targetId property)
                             sourceId targetId (Relation.type rel)
                             (Relation.property rel) (Relation.isArray rel)
                             (Relation.via rel))
                    (false, addDisplayed sourceId st))) with
    | (Done _, st') => (Done tt, Graph.notifyNodeSelect sourceId st')
    | (Throw, st') => (Throw, st')
    end.
Proof.
  intros Hget Hfind.
  unfold Graph.addReverseRelationToGraph, bind, read, lift.
  rewrite Hget, Hfind. reflexivity.
Qed.

End AddReverseFacts.



Module NeighborFacts.

Import Edges.
Import Loops.
Import Invariants.

Lemma has_app s d x :
  JsSet.has s x = true -> JsSet.has (s ++ d) x = true.
Proof.
  unfold JsSet.has. intros H. rewrite existsb_app, H. reflexivity.
Qed.

Section NeighborLoop.

Variable A : Type.
Variable known : State -> A -> bool.
Variable key : A -> string.
Variable mk : A -> Link.t.
Hypothesis known_nodes :
  forall st st' a, nodes st' = nodes st -> known st' a = known st a.

Lemma settled_extends st st' d l a :
  displayedNodes st' = displayedNodes st ++ d ->
  displayedLinks st' = displayedLinks st ++ l ->
  settled key mk st a -> settled key mk st' a.
Proof.
  intros Hd Hl [Hshown Hlink]. split.
  - rewrite Hd. apply has_app. exact Hshown.
  - rewrite Hl, existsb_app, Hlink. reflexivity.
Qed.

Lemma step_shape added st x :
  let res := neighborStep known key mk (added, st) x in
  snd res = setDisplayedLinks
              (displayedLinks (snd res))
              (setDisplayedNodes (displayedNodes (snd res)) st) /\
  (exists d l,
      displayedNodes (snd res) = displayedNodes st ++ d /\
      displayedLinks (snd res) = displayedLinks st ++ l /\
      (fst res = true <-> added = true \/ d <> [] \/ l <> []) /\
      (forall y, In y d -> known st x = true /\ y = key x)) /\
  (known st x = true -> settled key mk (snd res) x) /\
  (idsUnique (displayedLinks st) -> idsUnique (displayedLinks (snd res))).
Proof.
  assert (Hlast : forall (s : list string) y,
             JsSet.has (s ++ [y]) y = true).
  { intros s y. unfold JsSet.has. rewrite existsb_app. cbn.
    rewrite String.eqb_refl, orb_true_r. reflexivity. }
  assert (Hpushed : forall (ls : list Link.t) k,
             existsb (Graph.hasId (Link.id k)) (ls ++ [k]) = true).
  { intros ls k. rewrite existsb_app. cbn. unfold Graph.hasId at 2.
    rewrite String.eqb_refl, orb_true_r. reflexivity. }
  cbv zeta.
  pose proof (IdFacts.pushIfAbsent_idsUnique (mk x)) as Hunique.
  unfold neighborStep. cbn [snd]. destruct (known st x) eqn:Hknown.
  - unfold Graph.addIfHidden.
    destruct (JsSet.has (displayedNodes st) (key x)) eqn:Hshown.
    + specialize (Hunique added st).
      unfold Graph.pushIfAbsent in *.
      destruct (existsb (Graph.hasId (Link.id (mk x))) (displayedLinks st))
        eqn:Hex; cbn [fst snd] in *.
      * split; [destruct st; reflexivity |]. split; [| split].
        -- exists [], []. rewrite !app_nil_r.
           split; [reflexivity |]. split; [reflexivity |]. split.
           ++ split; [intros H; left; exact H |].
              intros [H | [H | H]]; [exact H | |]; exfalso; apply H;
                reflexivity.
           ++ intros y [].
        -- intros _. split; assumption.
        -- exact Hunique.
      * split; [destruct st; reflexivity |]. split; [| split].
        -- exists [], [mk x]. rewrite app_nil_r.
           split; [reflexivity |]. split; [reflexivity |]. split.
           ++ split; [intros _; right; right; discriminate |].
              intros _. reflexivity.
           ++ intros y [].
        -- intros _. split; [exact Hshown |]. apply Hpushed.
        -- exact Hunique.
    + assert (Hadd : JsSet.add (displayedNodes st) (key x)
                     = displayedNodes st ++ [key x]).
      { unfold JsSet.add. rewrite Hshown. reflexivity. }
      specialize (Hunique true (addDisplayed (key x) st)).
      unfold Graph.pushIfAbsent in *.
      cbn [displayedLinks addDisplayed setDisplayedNodes] in *.
      destruct (existsb (Graph.hasId (Link.id (mk x))) (displayedLinks st))
        eqn:Hex; cbn [fst snd] in *.
      * split; [cbn; destruct st; reflexivity |]. split; [| split].
        -- exists [key x], []. rewrite app_nil_r. cbn. rewrite Hadd.
           split; [reflexivity |]. split; [reflexivity |]. split.
           ++ split; [intros _; right; left; discriminate |].
              intros _. reflexivity.
           ++ intros y [<- | []]. split; reflexivity.
        -- intros _. split; cbn; [rewrite Hadd; apply Hlast | exact Hex].
        -- exact Hunique.
      * split; [cbn; destruct st; reflexivity |]. split; [| split].
        -- exists [key x], [mk x]. cbn. rewrite Hadd.
           split; [reflexivity |]. split; [reflexivity |]. split.
           ++ split; [intros _; right; left; discriminate |].
              intros _. reflexivity.
           ++ intros y [<- | []]. split; reflexivity.
        -- intros _. split; cbn; [rewrite Hadd; apply Hlast |].
           apply Hpushed.
        -- exact Hunique.
  - cbn [fst snd]. split; [destruct st; reflexivity |]. split; [| split].
    + exists [], []. rewrite !app_nil_r.
      split; [reflexivity |]. split; [reflexivity |]. split.
      * split; [intros H; left; exact H |].
        intros [H | [H | H]]; [exact H | |]; exfalso; apply H;
          reflexivity.
      * intros y [].
    + discriminate.
    + intros H. exact H.
Qed.

Lemma neighbor_loop items :
  forall added st,
    let res := fold_left (neighborStep known key mk) items (added, st) in
    snd res = setDisplayedLinks
                (displayedLinks (snd res))
                (setDisplayedNodes (displayedNodes (snd res)) st) /\
    (exists d l,
        displayedNodes (snd res) = displayedNodes st ++ d /\
        displayedLinks (snd res) = displayedLinks st ++ l /\
        (fst res = true <-> added = true \/ d <> [] \/ l <> []) /\
        (forall y, In y d ->
                   exists a, In a items /\ known st a = true /\
                             y = key a)) /\
    (forall a, In a items -> known st a = true ->
               settled key mk (snd res) a) /\
    (idsUnique (displayedLinks st) -> idsUnique (displayedLinks (snd res))).
Proof.
  induction items as [| x items IH]; intros added st; cbv zeta;
    cbn [fold_left].
  - cbn. split; [destruct st; reflexivity |]. split.
    + exists [], []. rewrite !app_nil_r.
      split; [reflexivity |]. split; [reflexivity |]. split.
      * split; [intros H; left; exact H |].
        intros [H | [H | H]]; [exact H | |]; exfalso; apply H;
          reflexivity.
      * intros y [].
    + split; [intros a [] |]. intros H. exact H.
  - pose proof (step_shape added st x) as Hstep. cbv zeta in Hstep.
    destruct (neighborStep known key mk (added, st) x) as [added1 st1].
    cbn [fst snd] in Hstep.
    destruct Hstep as (Hframe1 & (d1 & l1 & Hd1 & Hl1 & Hadded1 & Hfrom1)
                       & Hsettled1 & Hunique1).
    assert (Hnodes1 : nodes st1 = nodes st)
      by (rewrite Hframe1; reflexivity).
    specialize (IH added1 st1). cbv zeta in IH.
    destruct IH as (Hframe & (d & l & Hd & Hl & Hadded & Hfrom)
                    & Hsettled & Hunique).
    split; [rewrite Hframe at 1; rewrite Hframe1; destruct st;
            reflexivity |].
    split; [| split].
    + exists (d1 ++ d), (l1 ++ l).
      split; [rewrite Hd, Hd1, app_assoc; reflexivity |].
      split; [rewrite Hl, Hl1, app_assoc; reflexivity |].
      split.
      * rewrite Hadded, Hadded1. split.
        -- intros [[H | [H | H]] | [H | H]].
           ++ left. exact H.
           ++ right. left. intros Hnil. apply app_eq_nil in Hnil.
              apply H, Hnil.
           ++ right. right. intros Hnil. apply app_eq_nil in Hnil.
              apply H, Hnil.
           ++ right. left. intros Hnil. apply app_eq_nil in Hnil.
              apply H, Hnil.
           ++ right. right. intros Hnil. apply app_eq_nil in Hnil.
              apply H, Hnil.
        -- intros [H | [H | H]].
           ++ left. left. exact H.
           ++ destruct d1 as [| y d1]; [| left; right; left; discriminate].
              right. left. exact H.
           ++ destruct l1 as [| y l1]; [| left; right; right; discriminate].
              right. right. exact H.
      * intros y Hy. apply in_app_iff in Hy. destruct Hy as [Hy | Hy].
        -- destruct (Hfrom1 y Hy) as [Hk ->]. exists x.
           split; [left; reflexivity | split; [exact Hk | reflexivity]].
        -- destruct (Hfrom y Hy) as (a & Hin & Hk & ->). exists a.
           split; [right; exact Hin |].
           split; [| reflexivity].
           rewrite <- (known_nodes st st1 a Hnodes1). exact Hk.
    + intros a [<- | Hin] Hk.
      * apply settled_extends with st1 d l; [exact Hd | exact Hl |].
        apply Hsettled1. exact Hk.
      * apply Hsettled; [exact Hin |].
        rewrite (known_nodes st st1 a Hnodes1). exact Hk.
    + intros H. apply Hunique, Hunique1, H.
Qed.

Lemma neighbor_loop_settled items :
  forall added st,
    (forall a, In a items -> known st a = true -> settled key mk st a) ->
    fold_left (neighborStep known key mk) items (added, st) = (added, st).
Proof.
  induction items as [| x items IH]; intros added st Hall;
    cbn [fold_left]; [reflexivity |].
  assert (Hstep : neighborStep known key mk (added, st) x = (added, st)).
  { unfold neighborStep. cbn [snd]. destruct (known st x) eqn:Hk;
      [| reflexivity].
    destruct (Hall x (or_introl eq_refl) Hk) as [Hshown Hlink].
    unfold Graph.addIfHidden. rewrite Hshown.
    unfold Graph.pushIfAbsent. rewrite Hlink. reflexivity. }
  rewrite Hstep. apply IH. intros a Hin. apply Hall. right. exact Hin.
Qed.

End NeighborLoop.

(** The relations the forward loop walks: none when the node is
    unknown. *)
Lemma forward_neighbors nodeId acc :
  Graph.expandForward nodeId acc
  = fold_left
      (neighborStep targetKnown Relation.target (Graph.linkOf nodeId))
      (match JsMap.get (nodes (snd acc)) nodeId with
       | Some node => Node.relations node
       | None => []
       end)
      acc.
Proof.
  unfold Graph.expandForward.
  destruct (JsMap.get (nodes (snd acc)) nodeId); reflexivity.
Qed.

Lemma reverse_neighbors nodeId acc :
  Graph.expandReverse nodeId acc
  = fold_left
      (neighborStep always Reverse.source (Graph.linkOfReverse nodeId))
      (Graph.getReverseRelations nodeId (snd acc))
      acc.
Proof. reflexivity. Qed.

Lemma targetKnown_nodes st st' (r : Relation.t) :
  nodes st' = nodes st -> targetKnown st' r = targetKnown st r.
Proof. unfold targetKnown. intros ->. reflexivity. Qed.

Lemma always_nodes st st' (rv : Reverse.t) :
  nodes st' = nodes st -> always st' rv = always st rv.
Proof. reflexivity. Qed.

Lemma reverse_source_known nodeId st rv :
  In rv (Graph.getReverseRelations nodeId st) ->
  JsMap.has (nodes st) (Reverse.source rv) = true.
Proof.
  intros Hin. apply ReverseFacts.getReverseRelations_spec in Hin.
  destruct Hin as (sourceId & sourceNode & r & Hentry & _ & _ & _ & ->).
  cbn. apply MapFacts.in_has with sourceNode. exact Hentry.
Qed.

(** The two loops of [expandAllNeighbors], one after the other. *)
Lemma neighbors_loops nodeId st :
  let acc := Graph.expandReverse nodeId
               (Graph.expandForward nodeId (false, st)) in
  snd acc = setDisplayedLinks
              (displayedLinks (snd acc))
              (setDisplayedNodes (displayedNodes (snd acc)) st) /\
  (exists d l,
      displayedNodes (snd acc) = displayedNodes st ++ d /\
      displayedLinks (snd acc) = displayedLinks st ++ l /\
      (fst acc = true <-> d <> [] \/ l <> []) /\
      (forall y, In y d -> JsMap.has (nodes st) y = true)) /\
  (forall node r,
      JsMap.get (nodes st) nodeId = Some node ->
      In r (Node.relations node) ->
      JsMap.has (nodes st) (Relation.target r) = true ->
      settled Relation.target (Graph.linkOf nodeId) (snd acc) r) /\
  (forall rv,
      In rv (Graph.getReverseRelations nodeId st) ->
      settled Reverse.source (Graph.linkOfReverse nodeId) (snd acc) rv) /\
  (idsUnique (displayedLinks st) -> idsUnique (displayedLinks (snd acc))).
Proof.
  cbv zeta. rewrite reverse_neighbors, forward_neighbors. cbn [snd].
  pose proof (neighbor_loop
                Relation.t targetKnown Relation.target
                (Graph.linkOf nodeId) targetKnown_nodes
                (match JsMap.get (nodes st) nodeId with
                 | Some node => Node.relations node
                 | None => []
                 end) false st) as Hf.
  cbv zeta in Hf.
  destruct (fold_left
              (neighborStep targetKnown Relation.target
                            (Graph.linkOf nodeId))
              (match JsMap.get (nodes st) nodeId with
               | Some node => Node.relations node
               | None => []
               end) (false, st)) as [added1 st1].
  cbn [fst snd] in *.
  destruct Hf as (Hframe1 & (d1 & l1 & Hd1 & Hl1 & Hadded1 & Hfrom1)
                  & Hsettled1 & Hunique1).
  assert (Hnodes1 : nodes st1 = nodes st) by (rewrite Hframe1; reflexivity).
  rewrite (AutoAddFacts.getReverseRelations_nodes nodeId st st1 Hnodes1).
  pose proof (neighbor_loop
                Reverse.t always Reverse.source
                (Graph.linkOfReverse nodeId) always_nodes
                (Graph.getReverseRelations nodeId st) added1 st1) as Hr.
  cbv zeta in Hr.
  destruct (fold_left
              (neighborStep always Reverse.source
                            (Graph.linkOfReverse nodeId))
              (Graph.getReverseRelations nodeId st) (added1, st1))
    as [added2 st2].
  cbn [fst snd] in *.
  destruct Hr as (Hframe2 & (d2 & l2 & Hd2 & Hl2 & Hadded2 & Hfrom2)
                  & Hsettled2 & Hunique2).
  split; [rewrite Hframe2 at 1; rewrite Hframe1; destruct st;
          reflexivity |].
  split; [| split; [| split]].
  - exists (d1 ++ d2), (l1 ++ l2).
    split; [rewrite Hd2, Hd1, app_assoc; reflexivity |].
    split; [rewrite Hl2, Hl1, app_assoc; reflexivity |].
    split.
    + rewrite Hadded2, Hadded1. split.
      * intros [[H | [H | H]] | [H | H]].
        -- discriminate H.
        -- left. intros Hnil. apply app_eq_nil in Hnil. apply H, Hnil.
        -- right. intros Hnil. apply app_eq_nil in Hnil. apply H, Hnil.
        -- left. intros Hnil. apply app_eq_nil in Hnil. apply H, Hnil.
        -- right. intros Hnil. apply app_eq_nil in Hnil. apply H, Hnil.
      * intros [H | H].
        -- destruct d1 as [| y d1]; [| left; right; left; discriminate].
           right. left. exact H.
        -- destruct l1 as [| y l1]; [| left; right; right; discriminate].
           right. right. exact H.
    + intros y Hy. apply in_app_iff in Hy. destruct Hy as [Hy | Hy].
      * destruct (Hfrom1 y Hy) as (a & _ & Hk & ->). exact Hk.
      * destruct (Hfrom2 y Hy) as (a & Hin & _ & ->).
        apply reverse_source_known with nodeId. exact Hin.
  - intros node r Hget Hin Hk. rewrite Hget in Hsettled1.
    apply (settled_extends Relation.t Relation.target (Graph.linkOf nodeId)
                           st1 st2 d2 l2 r Hd2 Hl2).
    apply Hsettled1; assumption.
  - intros rv Hin. apply Hsettled2; [exact Hin | reflexivity].
  - intros H. apply Hunique2, Hunique1, H.
Qed.

Lemma neighbors_run nodeId st :
  Graph.expandAllNeighbors nodeId st
  = if fst (Graph.expandReverse nodeId
              (Graph.expandForward nodeId (false, st)))
    then Graph.updateGraph
           (snd (Graph.expandReverse nodeId
                   (Graph.expandForward nodeId (false, st))))
    else (Done tt,
          snd (Graph.expandReverse nodeId
                 (Graph.expandForward nodeId (false, st)))).
Proof.
  unfold Graph.expandAllNeighbors, bind, liftR, when, ret.
  destruct (Graph.expandReverse nodeId
              (Graph.expandForward nodeId (false, st))) as [added st'].
  destruct added; reflexivity.
Qed.

(** [updateGraph] leaves the graph and the selection as they are. *)
Lemma updateGraph_graph st :
  let st' := snd (Graph.updateGraph st) in
  nodes st' = nodes st /\ displayedNodes st' = displayedNodes st /\
  displayedLinks st' = displayedLinks st /\
  selectedNode st' = selectedNode st /\
  selectedLink st' = selectedLink st /\ url st' = url st /\
  (dom st' = dom st \/ dom st' = dom st ++ [Dom.render]).
Proof.
  unfold Graph.updateGraph.
  destruct (forallb (JsMap.has (nodes st)) (displayedNodes st));
    [destruct (forallb (Graph.endsDisplayed (displayedNodes st))
                       (displayedLinks st)) |];
    cbn; repeat split; try reflexivity.
  - right. reflexivity.
  - left. reflexivity.
  - left. reflexivity.
Qed.

(** The two loops keep the links between displayed nodes when the node
    whose neighbours they add is displayed. *)
Lemma neighbor_loop_linksJoin {A} (known : State -> A -> bool)
      (key : A -> string) (mk : A -> Link.t) id items :
  (forall a shown,
      In id shown -> In (key a) shown -> endpointsShown shown (mk a)) ->
  forall added st,
    In id (displayedNodes st) -> linksJoin st ->
    In id (displayedNodes
             (snd (fold_left (neighborStep known key mk) items
                             (added, st)))) /\
    linksJoin (snd (fold_left (neighborStep known key mk) items
                              (added, st))).
Proof.
  intros Hends.
  induction items as [| x items IH]; intros added st Hid Hjoin;
    cbn [fold_left]; [split; assumption |].
  assert (Hstep :
            In id (displayedNodes
                     (snd (neighborStep known key mk (added, st) x))) /\
            linksJoin (snd (neighborStep known key mk (added, st) x))).
  { unfold neighborStep. cbn [snd].
    destruct (known st x); [| split; assumption].
    unfold Graph.addIfHidden.
    destruct (JsSet.has (displayedNodes st) (key x)) eqn:Hshown.
    - split.
      + rewrite AddRelationFacts.pushIfAbsent_frame. exact Hid.
      + apply JoinFacts.pushIfAbsent_linksJoin; [| exact Hjoin].
        apply Hends; [exact Hid |]. apply SetFacts.has_in. exact Hshown.
    - split.
      + rewrite AddRelationFacts.pushIfAbsent_frame. cbn.
        apply SetFacts.in_add. left. exact Hid.
      + apply JoinFacts.pushIfAbsent_linksJoin.
        * apply Hends; cbn; apply SetFacts.in_add;
            [left; exact Hid | right; reflexivity].
        * apply InvariantFacts.linksJoin_add. exact Hjoin. }
  destruct (neighborStep known key mk (added, st) x) as [added1 st1].
  cbn [snd] in Hstep. apply IH; apply Hstep.
Qed.

Lemma neighbors_linksJoin nodeId st :
  In nodeId (displayedNodes st) -> linksJoin st ->
  linksJoin (snd (Graph.expandReverse
                    nodeId (Graph.expandForward nodeId (false, st)))).
Proof.
  intros Hid Hjoin. rewrite reverse_neighbors, forward_neighbors.
  cbn [snd].
  destruct (neighbor_loop_linksJoin
              targetKnown Relation.target (Graph.linkOf nodeId) nodeId
              (match JsMap.get (nodes st) nodeId with
               | Some node => Node.relations node
               | None => []
               end)
              (fun r shown Hn Hk => conj Hn Hk) false st Hid Hjoin)
    as [Hid1 Hjoin1].
  destruct (fold_left
              (neighborStep targetKnown Relation.target
                            (Graph.linkOf nodeId))
              (match JsMap.get (nodes st) nodeId with
               | Some node => Node.relations node
               | None => []
               end) (false, st)) as [added1 st1].
  cbn [snd] in *.
  apply (neighbor_loop_linksJoin
           always Reverse.source (Graph.linkOfReverse nodeId) nodeId
           (Graph.getReverseRelations nodeId st1)
           (fun rv shown Hn Hk => conj Hk Hn) added1 st1 Hid1 Hjoin1).
Qed.

Lemma settled_graph {A} (key : A -> string) (mk : A -> Link.t) st st' a :
  displayedNodes st' = displayedNodes st ->
  displayedLinks st' = displayedLinks st ->
  settled key mk st a -> settled key mk st' a.
Proof. unfold settled. intros -> ->. exact (fun H => H). Qed.

(** A second run of the two loops finds every neighbour settled. *)
Lemma neighbors_twice nodeId st st' :
  nodes st' = nodes st ->
  displayedNodes st'
  = displayedNodes (snd (Graph.expandReverse nodeId
                           (Graph.expandForward nodeId (false, st)))) ->
  displayedLinks st'
  = displayedLinks (snd (Graph.expandReverse nodeId
                           (Graph.expandForward nodeId (false, st)))) ->
  Graph.expandReverse nodeId (Graph.expandForward nodeId (false, st'))
  = (false, st').
Proof.
  intros Hnodes Hd Hl.
  destruct (neighbors_loops nodeId st) as (_ & _ & Hfwd & Hrev & _).
  rewrite forward_neighbors. cbn [snd].
  rewrite neighbor_loop_settled.
  - rewrite reverse_neighbors. cbn [snd].
    apply neighbor_loop_settled. intros rv Hin _.
    rewrite (AutoAddFacts.getReverseRelations_nodes nodeId st st' Hnodes)
      in Hin.
    apply (settled_graph
             Reverse.source (Graph.linkOfReverse nodeId) _ st' rv Hd Hl).
    apply Hrev. exact Hin.
  - intros r Hin Hk. rewrite Hnodes in Hin.
    unfold targetKnown in Hk. rewrite Hnodes in Hk.
    destruct (JsMap.get (nodes st) nodeId) as [node |] eqn:Hget;
      [| destruct Hin].
    apply (settled_graph
             Relation.target (Graph.linkOf nodeId) _ st' r Hd Hl).
    apply (Hfwd node r eq_refl Hin Hk).
Qed.

End NeighborFacts.


(** X12. A second call of [expandAllNeighbors] with the same id changes
    nothing and does not draw again, whatever the first call did. *)
Theorem expandAllNeighbors_second_call_changes_nothing :
  forall (st : State) (id : string),
    Graph.expandAllNeighbors id (snd (Graph.expandAllNeighbors id st))
    = (Done tt, snd (Graph.expandAllNeighbors id st)).
Proof.
  intros st id.
  rewrite (NeighborFacts.neighbors_run
             id (snd (Graph.expandAllNeighbors id st))).
  assert (Hsame :
            nodes (snd (Graph.expandAllNeighbors id st)) = nodes st /\
            displayedNodes (snd (Graph.expandAllNeighbors id st))
            = displayedNodes
                (snd (Graph.expandReverse
                        id (Graph.expandForward id (false, st)))) /\
            displayedLinks (snd (Graph.expandAllNeighbors id st))
            = displayedLinks
                (snd (Graph.expandReverse
                        id (Graph.expandForward id (false, st))))).
  { rewrite (NeighborFacts.neighbors_run id st).
    destruct (NeighborFacts.neighbors_loops id st) as (Hframe & _).
    destruct (Graph.expandReverse id (Graph.expandForward id (false, st)))
      as [added st1].
    cbn [fst snd] in *.
    destruct (NeighborFacts.updateGraph_graph st1)
      as (Hn2 & Hd2 & Hl2 & _).
    destruct added; cbn [snd].
    - rewrite Hn2, Hd2, Hl2. rewrite Hframe. repeat split; reflexivity.
    - rewrite Hframe. repeat split; reflexivity. }
  destruct Hsame as (Hn & Hd & Hl).
  rewrite (NeighborFacts.neighbors_twice
             id st (snd (Graph.expandAllNeighbors id st)) Hn Hd Hl).
  reflexivity.
Qed.

Module UrlFacts.

Import Address.

Lemma named_delete_same u k : named k (Url.delete u k) = [].
Proof.
  unfold named, Url.delete.
  induction u as [| [k' v'] u IH]; cbn; [reflexivity |].
  destruct (String.eqb k' k) eqn:Hk; cbn; [exact IH |].
  rewrite Hk. exact IH.
Qed.

Lemma named_delete_other u k k' :
  k' <> k -> named k' (Url.delete u k) = named k' u.
Proof.
  intros Hne. unfold named, Url.delete.
  induction u as [| [k0 v0] u IH]; cbn; [reflexivity |].
  destruct (String.eqb_spec k0 k) as [-> | Hk0]; cbn.
  - destruct (String.eqb_spec k k') as [<- | _];
      [exfalso; apply Hne; reflexivity | exact IH].
  - rewrite IH. reflexivity.
Qed.

Lemma named_set_same u k v : named k (Url.set u k v) = [(k, v)].
Proof.
  induction u as [| [k' v'] u IH]; cbn.
  - rewrite String.eqb_refl. reflexivity.
  - destruct (String.eqb k' k) eqn:Hk; cbn.
    + rewrite String.eqb_refl. f_equal. apply named_delete_same.
    + rewrite Hk. exact IH.
Qed.

Lemma named_set_other u k v k' :
  k' <> k -> named k' (Url.set u k v) = named k' u.
Proof.
  intros Hne.
  induction u as [| [k0 v0] u IH]; cbn.
  - destruct (String.eqb_spec k k') as [<- | _];
      [exfalso; apply Hne; reflexivity | reflexivity].
  - destruct (String.eqb_spec k0 k) as [-> | Hk0]; cbn.
    + destruct (String.eqb_spec k k') as [<- | _];
        [exfalso; apply Hne; reflexivity |].
      apply (named_delete_other u k k' Hne).
    + unfold named in IH. rewrite IH. reflexivity.
Qed.

Lemma named_get u k v rest :
  named k u = (k, v) :: rest -> Url.get u k = Some v.
Proof.
  unfold named, Url.get.
  induction u as [| [k0 v0] u IH]; cbn; [discriminate |].
  destruct (String.eqb k0 k) eqn:Hk; [| exact IH].
  intros [= _ -> _]. reflexivity.
Qed.

Lemma named_nil_get u k : named k u = [] -> Url.get u k = None.
Proof.
  unfold named, Url.get.
  induction u as [| [k0 v0] u IH]; cbn; [reflexivity |].
  destruct (String.eqb k0 k) eqn:Hk; [discriminate | exact IH].
Qed.

Lemma updateURL_node id st :
  Str.isEmpty id = false ->
  url (updateURL [("node", Some id)] st)
  = Url.set (Url.delete (url st) "link") "node" id.
Proof.
  intros Hid. unfold updateURL, paramTruthy. cbn. rewrite Hid. reflexivity.
Qed.

Lemma updateURL_link id st :
  Str.isEmpty id = false ->
  url (updateURL [("link", Some id)] st)
  = Url.set (Url.delete (url st) "node") "link" id.
Proof.
  intros Hid. unfold updateURL, paramTruthy. cbn. rewrite Hid. reflexivity.
Qed.

Lemma updateURL_empty st :
  url (updateURL [] st) = Url.delete (Url.delete (url st) "node") "link".
Proof. reflexivity. Qed.

Lemma node_shown u id :
  showsNode id (Url.set (Url.delete u "link") "node" id) /\
  othersKept u (Url.set (Url.delete u "link") "node" id).
Proof.
  split; [split |].
  - apply named_set_same.
  - rewrite named_set_other by (intros H; discriminate H).
    apply named_delete_same.
  - intros k Hnode Hlink.
    rewrite (named_set_other _ "node" id k Hnode).
    apply (named_delete_other u "link" k Hlink).
Qed.

Lemma link_shown u id :
  showsLink id (Url.set (Url.delete u "node") "link" id) /\
  othersKept u (Url.set (Url.delete u "node") "link" id).
Proof.
  split; [split |].
  - apply named_set_same.
  - rewrite named_set_other by (intros H; discriminate H).
    apply named_delete_same.
  - intros k Hnode Hlink.
    rewrite (named_set_other _ "link" id k Hlink).
    apply (named_delete_other u "node" k Hnode).
Qed.

End UrlFacts.

(** X13. [updateURL] changes nothing but the search parameters.  With a
    non-empty [node] it leaves exactly one [node] entry, of that value, and
    no [link] entry; with a non-empty [link] exactly one [link] entry and
    no [node] entry; with no parameter neither of the two.  Entries of
    another name keep their values and their order in the three cases. *)
Theorem updateURL_node_and_link_exclude_each_other :
  forall (st : State) (id : string),
    Str.isEmpty id = false ->
    (forall params, updateURL params st
                    = setUrl (url (updateURL params st)) st) /\
    (Address.showsNode id (url (updateURL [("node", Some id)] st)) /\
     Address.othersKept (url st) (url (updateURL [("node", Some id)] st))) /\
    (Address.showsLink id (url (updateURL [("link", Some id)] st)) /\
     Address.othersKept (url st) (url (updateURL [("link", Some id)] st))) /\
    (Address.named "node" (url (updateURL [] st)) = [] /\
     Address.named "link" (url (updateURL [] st)) = [] /\
     Address.othersKept (url st) (url (updateURL [] st))).
Proof.
  intros st id Hid. split; [intros params; reflexivity |].
  rewrite (UrlFacts.updateURL_node id st Hid).
  rewrite (UrlFacts.updateURL_link id st Hid).
  split; [apply UrlFacts.node_shown |].
  split; [apply UrlFacts.link_shown |].
  rewrite UrlFacts.updateURL_empty.
  split; [| split].
  - rewrite UrlFacts.named_delete_other by (intros H; discriminate H).
    apply UrlFacts.named_delete_same.
  - apply UrlFacts.named_delete_same.
  - intros k Hnode Hlink.
    rewrite (UrlFacts.named_delete_other _ "link" k Hlink).
    apply (UrlFacts.named_delete_other _ "node" k Hnode).
Qed.

Lemma updateURL_node_and_link_exclude_each_other_witness :
  url (updateURL [("node", Some "Package")]
                 (setUrl Address.sample Examples.packageState))
  = [("schema", "Package"); ("node", "Package")] /\
  Address.showsNode
    "Package"
    (url (updateURL [("node", Some "Package")]
                    (setUrl Address.sample Examples.packageState))).
Proof.
  split; [reflexivity |].
  refine (proj1 (proj1 (proj2 (updateURL_node_and_link_exclude_each_other
                                 (setUrl Address.sample Examples.packageState)
                                 "Package" _)))).
  reflexivity.
Defined.

Module AddressFacts.

Import Address.

Lemma selectNode_known id st node :
  JsMap.get (nodes st) id = Some node ->
  Sidebar.selectNode id st
  = perform [Dom.classNodes (Some id); Dom.classLinks None;
             Dom.sidebarNode (Node.id node)]
            (updateURL [("node", Some id)]
                       (setSelectedLink None
                                        (setSelectedNode (Some id) st))).
Proof.
  intros Hget. unfold Sidebar.selectNode. cbn [nodes setSelectedLink
                                                 setSelectedNode].
  rewrite Hget. reflexivity.
Qed.

Lemma selectNode_unknown id st :
  JsMap.get (nodes st) id = None ->
  Sidebar.selectNode id st
  = setSelectedLink None (setSelectedNode (Some id) st).
Proof.
  intros Hget. unfold Sidebar.selectNode. cbn [nodes setSelectedLink
                                                 setSelectedNode].
  rewrite Hget. reflexivity.
Qed.

Lemma selectLink_known id st link :
  find (fun l => String.eqb (Link.id l) id) (displayedLinks st)
  = Some link ->
  Sidebar.selectLink id st
  = perform [Dom.sidebarLink (Link.id link)]
            (updateURL [("link", Some id)]
                       (perform [Dom.classNodes None;
                                 Dom.classLinks (Some id)]
                                (setSelectedNode
                                   None
                                   (setSelectedLink (Some id) st)))).
Proof.
  intros Hfind. unfold Sidebar.selectLink.
  cbn [displayedLinks setSelectedLink setSelectedNode].
  rewrite Hfind. reflexivity.
Qed.

Lemma find_displayed id links :
  (exists l, In l links /\ Link.id l = id) ->
  exists link,
    find (fun l => String.eqb (Link.id l) id) links = Some link.
Proof.
  intros (l & Hin & Hid).
  destruct (find (fun l => String.eqb (Link.id l) id) links) as [link |]
    eqn:Hfind; [exists link; reflexivity |].
  pose proof (find_none _ _ Hfind l Hin) as Hno. cbn in Hno.
  rewrite Hid, String.eqb_refl in Hno. discriminate Hno.
Qed.

Lemma selectNode_address id st :
  Str.isEmpty id = false ->
  JsMap.has (nodes st) id = true ->
  showsNode id (url (Sidebar.selectNode id st)) /\
  othersKept (url st) (url (Sidebar.selectNode id st)).
Proof.
  intros Hid Hhas. unfold JsMap.has in Hhas.
  destruct (JsMap.get (nodes st) id) as [node |] eqn:Hget;
    [| discriminate Hhas].
  rewrite (selectNode_known id st node Hget).
  change (url (perform ?e ?s)) with (url s).
  rewrite (UrlFacts.updateURL_node id _ Hid).
  apply UrlFacts.node_shown.
Qed.

Lemma selectLink_address id st :
  Str.isEmpty id = false ->
  (exists l, In l (displayedLinks st) /\ Link.id l = id) ->
  showsLink id (url (Sidebar.selectLink id st)) /\
  othersKept (url st) (url (Sidebar.selectLink id st)).
Proof.
  intros Hid Hshown.
  destruct (find_displayed id (displayedLinks st) Hshown) as [link Hfind].
  rewrite (selectLink_known id st link Hfind).
  change (url (perform ?e ?s)) with (url s).
  rewrite (UrlFacts.updateURL_link id _ Hid).
  apply UrlFacts.link_shown.
Qed.

(** The selection entry points leave the graph as it is. *)
Lemma selectLink_graph id st :
  nodes (Sidebar.selectLink id st) = nodes st /\
  displayedNodes (Sidebar.selectLink id st) = displayedNodes st /\
  displayedLinks (Sidebar.selectLink id st) = displayedLinks st.
Proof.
  unfold Sidebar.selectLink.
  cbn [displayedLinks setSelectedLink setSelectedNode].
  destruct (find _ (displayedLinks st)); repeat split; reflexivity.
Qed.

End AddressFacts.

(** X14. A selection that finds its item is written to the address of the
    page.  After [selectNode(id)] for a non-empty key [id] of the node map
    the search parameters hold one [node] entry, of value [id], and no
    [link] entry; after [selectLink(id)] for the non-empty id of a
    displayed link they hold one [link] entry, of value [id], and no
    [node] entry.  The state records the same selection, the other search
    parameters stay, and the graph is untouched. *)
Theorem selection_is_written_to_the_address :
  forall (st : State) (id : string),
    Str.isEmpty id = false ->
    (JsMap.has (nodes st) id = true ->
     Address.showsNode id (url (Sidebar.selectNode id st)) /\
     Address.othersKept (url st) (url (Sidebar.selectNode id st)) /\
     selectedNode (Sidebar.selectNode id st) = Some id /\
     selectedLink (Sidebar.selectNode id st) = None /\
     displayedNodes (Sidebar.selectNode id st) = displayedNodes st /\
     displayedLinks (Sidebar.selectNode id st) = displayedLinks st) /\
    ((exists l, In l (displayedLinks st) /\ Link.id l = id) ->
     Address.showsLink id (url (Sidebar.selectLink id st)) /\
     Address.othersKept (url st) (url (Sidebar.selectLink id st)) /\
     selectedLink (Sidebar.selectLink id st) = Some id /\
     selectedNode (Sidebar.selectLink id st) = None /\
     displayedNodes (Sidebar.selectLink id st) = displayedNodes st /\
     displayedLinks (Sidebar.selectLink id st) = displayedLinks st).
Proof.
  intros st id Hid. split.
  - intros Hhas.
    destruct (AddressFacts.selectNode_address id st Hid Hhas) as [Hs Ho].
    destruct (SelectionFacts.selectNode_selection id st) as [Hn Hl].
    destruct (NotifyFacts.selectNode_graph id st) as (_ & Hd & Hk).
    repeat split; try assumption; apply Hs.
  - intros Hshown.
    destruct (AddressFacts.selectLink_address id st Hid Hshown) as [Hs Ho].
    destruct (SelectionFacts.selectLink_selection id st) as [Hl Hn].
    destruct (AddressFacts.selectLink_graph id st) as (_ & Hd & Hk).
    repeat split; try assumption; apply Hs.
Qed.

Lemma selection_is_written_to_the_address_witness :
  Address.showsNode
    "Package"
    (url (Sidebar.selectNode
            "Package" (setUrl Address.sample Examples.packageState))).
Proof.
  refine (proj1 (proj1 (selection_is_written_to_the_address
                          (setUrl Address.sample Examples.packageState)
                          "Package" _) _)); reflexivity.
Defined.

Module LoadFacts.

Import Invariants.

(** What [initializeGraph] runs for a depth other than 0. *)
Lemma initializeGraph_run depth startNodeId st :
  depth <> 0 ->
  Graph.initializeGraph depth startNodeId st
  = (Done tt,
     perform [Dom.render]
             (Graph.expandNode
                (Graph.firstTruthy startNodeId (Url.get (url st) "node")
                                   (currentSchemaName st))
                depth
                (setDisplayedLinks [] (setDisplayedNodes [] st)))).
Proof.
  intros Hdepth.
  assert (Hrun : Graph.initializeGraph depth startNodeId st
                 = Graph.updateGraph
                     (Graph.expandNode
                        (Graph.firstTruthy startNodeId
                                           (Url.get (url st) "node")
                                           (currentSchemaName st))
                        depth
                        (setDisplayedLinks [] (setDisplayedNodes [] st)))).
  { unfold Graph.initializeGraph, bind, lift, read. cbn.
    apply Z.eqb_neq in Hdepth. rewrite Hdepth. reflexivity. }
  rewrite Hrun. apply InvariantFacts.updateGraph_known.
  - apply InvariantFacts.expandLevels_known. intros x [].
  - apply InvariantFacts.expandLevels_linksJoin. intros l [].
Qed.

(** [loadSchema] up to the restoration of the selection, for a response
    that parses. *)
Lemma loadSchema_parsed schemaName schemaData parsed depth st :
  Parser.parseSchema schemaData schemaName = Some parsed ->
  depth <> 0 ->
  App.loadSchema schemaName (Some schemaData) depth st
  = tryCatch
      (match App.nonEmpty (Url.get (url st) "node"),
             App.nonEmpty (Url.get (url st) "link") with
       | Some nodeId, _ => lift (Sidebar.selectNode nodeId)
       | None, Some linkId => App.restoreLink linkId
       | None, None => lift (perform [Dom.sidebarEmpty])
       end)
      (lift (perform [Dom.sidebarError]))
      (perform [Dom.render]
               (Graph.expandNode
                  (Graph.firstTruthy None (Url.get (url st) "node")
                                     (currentSchemaName st))
                  depth
                  (setDisplayedLinks
                     []
                     (setDisplayedNodes
                        [] (setNodes parsed (setSchema schemaData st)))))).
Proof.
  intros Hparse Hdepth. unfold App.loadSchema. rewrite Hparse.
  unfold tryCatch, bind, lift, read.
  rewrite (initializeGraph_run depth None _ Hdepth). reflexivity.
Qed.

(** [initializeGraph] with depth 0 from a start node that the node map
    does not hold. *)
Lemma initializeGraph_zero startNodeId st :
  JsMap.has (nodes st)
            (Graph.firstTruthy startNodeId (Url.get (url st) "node")
                               (currentSchemaName st)) = false ->
  Graph.initializeGraph 0 startNodeId st
  = (Throw,
     addDisplayed
       (Graph.firstTruthy startNodeId (Url.get (url st) "node")
                          (currentSchemaName st))
       (setDisplayedLinks [] (setDisplayedNodes [] st))).
Proof.
  intros Hunknown.
  assert (Hrun : Graph.initializeGraph 0 startNodeId st
                 = Graph.updateGraph
                     (addDisplayed
                        (Graph.firstTruthy startNodeId
                                           (Url.get (url st) "node")
                                           (currentSchemaName st))
                        (setDisplayedLinks [] (setDisplayedNodes [] st)))).
  { reflexivity. }
  rewrite Hrun.
  apply InvariantFacts.updateGraph_unknown
    with (Graph.firstTruthy startNodeId (Url.get (url st) "node")
                            (currentSchemaName st)).
  - left. reflexivity.
  - exact Hunknown.
Qed.

Lemma nonEmpty_some id :
  Str.isEmpty id = false -> App.nonEmpty (Some id) = Some id.
Proof. intros H. unfold App.nonEmpty. rewrite H. reflexivity. Qed.

Lemma firstTruthy_param id name :
  Str.isEmpty id = false -> Graph.firstTruthy None (Some id) name = id.
Proof. intros H. unfold Graph.firstTruthy. rewrite H. reflexivity. Qed.

End LoadFacts.



Module SplitFacts.

Import Ids.

Lemma split_nonempty sep s : Str.split sep s <> [].
Proof.
  destruct s as [| c s]; cbn; [discriminate |].
  destruct (Ascii.eqb c sep); [discriminate |].
  destruct (Str.split sep s); discriminate.
Qed.

Lemma concat_cons sep x p ps :
  String.concat sep (x :: p :: ps)
  = (x ++ sep ++ String.concat sep (p :: ps))%string.
Proof. reflexivity. Qed.

(** [s.split(sep).join(sep)] is [s]. *)
Lemma join_split sep s :
  Str.join (String sep EmptyString) (Str.split sep s) = s.
Proof.
  unfold Str.join. induction s as [| c s IH]; [reflexivity |].
  cbn [Str.split]. destruct (Ascii.eqb_spec c sep) as [-> | Hne].
  - destruct (Str.split sep s) as [| p ps] eqn:Hsplit;
      [exfalso; exact (split_nonempty sep s Hsplit) |].
    rewrite concat_cons, IH. reflexivity.
  - destruct (Str.split sep s) as [| p ps] eqn:Hsplit;
      [exfalso; exact (split_nonempty sep s Hsplit) |].
    destruct ps as [| q ps].
    + cbn in IH |- *. rewrite IH. reflexivity.
    + rewrite concat_cons. rewrite concat_cons in IH.
      rewrite <- IH. reflexivity.
Qed.

Lemma split_free sep a b :
  free sep a = true ->
  Str.split sep (a ++ String sep b) = a :: Str.split sep b.
Proof.
  induction a as [| c a IH]; cbn [free String.append Str.split]; intros H.
  - rewrite Ascii.eqb_refl. reflexivity.
  - apply andb_prop in H. destruct H as [Hc Ha].
    apply negb_true_iff in Hc. rewrite Hc, (IH Ha). reflexivity.
Qed.

Lemma split_linkId source target property :
  free "-" source = true -> free "-" target = true ->
  Str.split "-" (Graph.linkId source target property)
  = source :: target :: Str.split "-" property.
Proof.
  intros Hs Ht. unfold Graph.linkId.
  change ("-" ++ target ++ "-" ++ property)%string
    with (String "-" (target ++ String "-" property)).
  rewrite (split_free "-" source _ Hs), (split_free "-" target _ Ht).
  reflexivity.
Qed.

End SplitFacts.

(** X16. The composite id of a link can be taken apart again when neither
    the source nor the target holds a hyphen: splitting the id at the
    hyphens gives the source, the target and at least one more part, and
    joining those further parts with hyphens gives the property, hyphens
    included.  So two links with such ends and the same id have the same
    source, target and property. *)
Theorem linkId_is_decoded_by_split_and_join :
  forall (source target property : string),
    Ids.free "-" source = true ->
    Ids.free "-" target = true ->
    (exists part rest,
        Str.split "-" (Graph.linkId source target property)
        = source :: target :: part :: rest /\
        Str.join "-" (part :: rest) = property) /\
    (forall source' target' property',
        Ids.free "-" source' = true ->
        Ids.free "-" target' = true ->
        Graph.linkId source' target' property'
        = Graph.linkId source target property ->
        source' = source /\ target' = target /\ property' = property).
Proof.
  intros source target property Hs Ht.
  assert (Hdecode :
            forall s t p,
              Ids.free "-" s = true -> Ids.free "-" t = true ->
              exists part rest,
                Str.split "-" (Graph.linkId s t p) = s :: t :: part :: rest /\
                Str.join "-" (part :: rest) = p).
  { intros s t p Hfs Hft. rewrite (SplitFacts.split_linkId s t p Hfs Hft).
    destruct (Str.split "-" p) as [| part rest] eqn:Hsplit;
      [exfalso; exact (SplitFacts.split_nonempty "-" p Hsplit) |].
    exists part, rest. split; [reflexivity |].
    rewrite <- Hsplit. apply SplitFacts.join_split. }
  split; [apply Hdecode; assumption |].
  intros source' target' property' Hs' Ht' Hid.
  destruct (Hdecode source target property Hs Ht)
    as (part & rest & Hsplit & Hjoin).
  destruct (Hdecode source' target' property' Hs' Ht')
    as (part' & rest' & Hsplit' & Hjoin').
  rewrite Hid, Hsplit in Hsplit'.
  injection Hsplit' as -> -> -> ->.
  rewrite Hjoin in Hjoin'. subst property'.
  repeat split; reflexivity.
Qed.

Lemma linkId_is_decoded_by_split_and_join_witness :
  exists part rest,
    Str.split "-" (Graph.linkId "Package" "PackageLink" "x-links")
    = "Package" :: "PackageLink" :: part :: rest /\
    Str.join "-" (part :: rest) = "x-links".
Proof.
  refine (proj1 (linkId_is_decoded_by_split_and_join
                   "Package" "PackageLink" "x-links" _ _)); reflexivity.
Defined.

Module RestoreFacts.

Import Restore.
Import Invariants.

Lemma restoreLink_run linkParam sourceId targetId part rest st :
  Str.split "-" linkParam = sourceId :: targetId :: part :: rest ->
  App.restoreLink linkParam st
  = run linkParam sourceId targetId (Str.join "-" (part :: rest)) st.
Proof.
  intros Hsplit. unfold App.restoreLink. rewrite Hsplit.
  unfold run, shown, pushFound, wanted, restored, bind, read, when, lift,
    liftR, ret.
  destruct (negb (JsSet.has (displayedNodes st) sourceId));
    cbn [fst snd];
    match goal with
    | |- context [negb (JsSet.has (displayedNodes ?s) targetId)] =>
        destruct (negb (JsSet.has (displayedNodes s) targetId))
    end;
    cbn [fst snd orb];
    match goal with
    | |- context [existsb (Graph.hasId linkParam) (displayedLinks ?s)] =>
        destruct (existsb (Graph.hasId linkParam) (displayedLinks s))
    end;
    cbn [fst snd orb]; try reflexivity;
    match goal with
    | |- context [JsMap.get (nodes ?s) sourceId] =>
        destruct (JsMap.get (nodes s) sourceId) as [sourceNode |]
    end;
    cbn [fst snd orb]; try reflexivity;
    match goal with
    | |- context [find ?f (Node.relations ?n)] =>
        destruct (find f (Node.relations n))
    end;
    cbn [fst snd orb]; reflexivity.
Qed.

Lemma restoreLink_short linkParam st :
  (List.length (Str.split "-" linkParam) < 3)%nat ->
  App.restoreLink linkParam st = (Done tt, st).
Proof.
  unfold App.restoreLink.
  destruct (Str.split "-" linkParam) as [| a [| b [| c rest]]]; cbn;
    intros H; try reflexivity.
  lia.
Qed.

Lemma shown_frame id st :
  shown id st = setDisplayedNodes (JsSet.add (displayedNodes st) id) st.
Proof.
  unfold shown, addDisplayed, JsSet.add.
  destruct (JsSet.has (displayedNodes st) id); cbn;
    [destruct st |]; reflexivity.
Qed.

Lemma pushFound_shape linkParam sourceId targetId property st :
  let acc := pushFound linkParam sourceId targetId property st in
  snd acc = setDisplayedLinks (displayedLinks (snd acc)) st /\
  (exists new, displayedLinks (snd acc) = displayedLinks st ++ new /\
               (fst acc = true <-> new <> []) /\
               (forall l, In l new ->
                          Link.id l = linkParam /\
                          Link.source l = sourceId /\
                          Link.target l = targetId)) /\
  (forall sourceNode r,
      JsMap.get (nodes st) sourceId = Some sourceNode ->
      In r (Node.relations sourceNode) ->
      Relation.target r = targetId ->
      Relation.property r = property ->
      existsb (Graph.hasId linkParam) (displayedLinks (snd acc)) = true).
Proof.
  unfold pushFound.
  destruct (existsb (Graph.hasId linkParam) (displayedLinks st)) eqn:Hex;
    cbn [fst snd].
  - split; [destruct st; reflexivity |]. split.
    + exists []. rewrite app_nil_r. split; [reflexivity |].
      split; [| intros l []].
      split; [discriminate | intros H; exfalso; apply H; reflexivity].
    + intros _ _ _ _ _ _. exact Hex.
  - destruct (JsMap.get (nodes st) sourceId) as [sourceNode |] eqn:Hget;
      cbn [fst snd].
    + destruct (find (wanted targetId property)
                     (Node.relations sourceNode)) as [rel |] eqn:Hfind;
        cbn [fst snd].
      * split; [destruct st; reflexivity |]. split.
        -- exists [restored linkParam sourceId targetId rel].
           split; [reflexivity |]. split.
           ++ split; [discriminate | reflexivity].
           ++ intros l [<- | []]. repeat split; reflexivity.
        -- intros _ _ _ _ _ _.
           cbn [displayedLinks pushLink setDisplayedLinks].
           rewrite existsb_app. cbn [existsb].
           unfold Graph.hasId at 2. cbn [Link.id restored].
           rewrite String.eqb_refl, orb_true_r. reflexivity.
      * split; [destruct st; reflexivity |]. split.
        -- exists []. rewrite app_nil_r. split; [reflexivity |].
           split; [| intros l []].
           split; [discriminate | intros H; exfalso; apply H; reflexivity].
        -- intros node r [= <-] Hin Ht Hp.
           pose proof (find_none _ _ Hfind r Hin) as Hno.
           unfold wanted in Hno.
           rewrite Ht, Hp, !String.eqb_refl in Hno. discriminate Hno.
    + split; [destruct st; reflexivity |]. split.
      * exists []. rewrite app_nil_r. split; [reflexivity |].
        split; [| intros l []].
        split; [discriminate | intros H; exfalso; apply H; reflexivity].
      * intros node r Hsome. discriminate Hsome.
Qed.

Lemma existsb_hasId id links :
  existsb (Graph.hasId id) links = true ->
  exists l, In l links /\ Link.id l = id.
Proof.
  intros H. apply existsb_exists in H. destruct H as (l & Hin & Hid).
  exists l. split; [exact Hin |]. apply String.eqb_eq. exact Hid.
Qed.

Lemma linkId_nonEmpty source target property :
  Str.isEmpty (Graph.linkId source target property) = false.
Proof. unfold Graph.linkId. destruct source; reflexivity. Qed.

(** The restoration of a link that a relation of the node map stands
    for. *)
Lemma run_restores linkParam sourceId targetId property st sourceNode r :
  Str.isEmpty linkParam = false ->
  displayedKnown st ->
  linksJoin st ->
  JsMap.get (nodes st) sourceId = Some sourceNode ->
  In r (Node.relations sourceNode) ->
  Relation.target r = targetId ->
  Relation.property r = property ->
  JsMap.has (nodes st) targetId = true ->
  let res := run linkParam sourceId targetId property st in
  nodes (snd res) = nodes st /\
  selectedLink (snd res) = Some linkParam /\
  selectedNode (snd res) = None /\
  In sourceId (displayedNodes (snd res)) /\
  In targetId (displayedNodes (snd res)) /\
  (exists l, In l (displayedLinks (snd res)) /\ Link.id l = linkParam) /\
  displayedKnown (snd res) /\
  linksJoin (snd res) /\
  Address.showsLink linkParam (url (snd res)) /\
  Address.othersKept (url st) (url (snd res)).
Proof.
  intros Hid Hknown Hjoin Hget Hin Htarget Hproperty Hhas res. subst res.
  unfold run.
  set (st2 := shown targetId (shown sourceId st)).
  assert (Hst2 : st2 = setDisplayedNodes
                         (JsSet.add (JsSet.add (displayedNodes st) sourceId)
                                    targetId) st).
  { subst st2. rewrite !shown_frame. destruct st; reflexivity. }
  pose proof (pushFound_shape linkParam sourceId targetId property st2)
    as Hshape.
  cbv zeta in Hshape.
  destruct (pushFound linkParam sourceId targetId property st2)
    as [changed st3].
  cbn [fst snd] in *.
  destruct Hshape as (Hframe & (new & Hnew & _ & Hfrom) & Hlink).
  assert (Hnodes2 : nodes st2 = nodes st) by (rewrite Hst2; reflexivity).
  rewrite Hnodes2 in Hlink.
  specialize (Hlink sourceNode r Hget Hin Htarget Hproperty).
  assert (Hfields : nodes st3 = nodes st /\
                    displayedNodes st3
                    = JsSet.add (JsSet.add (displayedNodes st) sourceId)
                                targetId /\
                    url st3 = url st).
  { rewrite Hframe, Hst2. repeat split; reflexivity. }
  destruct Hfields as (Hn3 & Hd3 & Hu3).
  assert (Hsource : JsMap.has (nodes st) sourceId = true).
  { unfold JsMap.has. rewrite Hget. reflexivity. }
  assert (Hknown3 : displayedKnown st3).
  { intros x Hx. rewrite Hn3. rewrite Hd3 in Hx.
    apply SetFacts.in_add in Hx. destruct Hx as [Hx | ->]; [| exact Hhas].
    apply SetFacts.in_add in Hx. destruct Hx as [Hx | ->];
      [apply Hknown; exact Hx | exact Hsource]. }
  assert (Hjoin3 : linksJoin st3).
  { intros l Hl. rewrite Hd3. rewrite Hnew, Hst2 in Hl.
    cbn [displayedLinks setDisplayedNodes] in Hl.
    apply in_app_iff in Hl. destruct Hl as [Hl | Hl].
    - destruct (Hjoin l Hl) as [Hs Ht].
      split; apply SetFacts.in_add; left; apply SetFacts.in_add; left;
        assumption.
    - destruct (Hfrom l Hl) as (_ & Hs & Ht).
      unfold endpointsShown. rewrite Hs, Ht. split.
      + apply SetFacts.in_add. left. apply SetFacts.in_add. right.
        reflexivity.
      + apply SetFacts.in_add. right. reflexivity. }
  assert (Hgoal :
            forall st4,
              nodes st4 = nodes st3 ->
              displayedNodes st4 = displayedNodes st3 ->
              displayedLinks st4 = displayedLinks st3 ->
              url st4 = url st3 ->
              let final := Sidebar.selectLink linkParam st4 in
              nodes final = nodes st /\
              selectedLink final = Some linkParam /\
              selectedNode final = None /\
              In sourceId (displayedNodes final) /\
              In targetId (displayedNodes final) /\
              (exists l, In l (displayedLinks final) /\
                         Link.id l = linkParam) /\
              displayedKnown final /\
              linksJoin final /\
              Address.showsLink linkParam (url final) /\
              Address.othersKept (url st) (url final)).
  { intros st4 Hn4 Hd4 Hl4 Hu4 final. subst final.
    destruct (AddressFacts.selectLink_graph linkParam st4)
      as (Hn & Hd & Hl).
    destruct (SelectionFacts.selectLink_selection linkParam st4)
      as [Hsl Hsn].
    assert (Hshown : exists l, In l (displayedLinks st4) /\
                               Link.id l = linkParam).
    { rewrite Hl4. apply existsb_hasId. exact Hlink. }
    destruct (AddressFacts.selectLink_address linkParam st4 Hid Hshown)
      as [Hshows Hothers].
    rewrite Hn, Hd, Hl, Hn4, Hd4, Hn3, Hd3.
    split; [reflexivity |]. split; [exact Hsl |]. split; [exact Hsn |].
    split.
    { apply SetFacts.in_add. left. apply SetFacts.in_add. right.
      reflexivity. }
    split; [apply SetFacts.in_add; right; reflexivity |].
    split; [exact Hshown |].
    split.
    { intros x Hx. rewrite Hn, Hn4. apply Hknown3.
      rewrite Hd, Hd4 in Hx. exact Hx. }
    split.
    { intros l0 Hl0. rewrite Hd, Hd4. apply Hjoin3.
      rewrite Hl, Hl4 in Hl0. exact Hl0. }
    split; [exact Hshows |].
    rewrite Hu4, Hu3 in Hothers. exact Hothers. }
  destruct (negb (JsSet.has (displayedNodes st) sourceId)
            || negb (JsSet.has (displayedNodes (shown sourceId st))
                               targetId)
            || changed)%bool.
  - rewrite (InvariantFacts.updateGraph_known st3 Hknown3 Hjoin3).
    cbn [fst snd].
    apply (Hgoal (perform [Dom.render] st3)); reflexivity.
  - cbn [fst snd]. apply (Hgoal st3); reflexivity.
Qed.

End RestoreFacts.

(** X17. Reloading the page restores the link of the address.  When the
    [link] parameter is the composite id of a relation of the node map
    whose source and target hold no hyphen, every displayed id is a key of
    the node map and every displayed link joins displayed nodes, the
    restoration in [loadSchema] leaves both ends displayed, a displayed
    link with the id, that link as the selection and the address naming it
    still; the displayed ids are still keys of the node map and the links
    still join displayed nodes.  A parameter with fewer than two hyphens is
    ignored: nothing changes, the selection included. *)
Theorem restoreLink_restores_the_link_of_the_address :
  forall (st : State) (source : string) (node : Node.t) (r : Relation.t),
    Ids.free "-" source = true ->
    Ids.free "-" (Relation.target r) = true ->
    Invariants.displayedKnown st ->
    Invariants.linksJoin st ->
    JsMap.get (nodes st) source = Some node ->
    In r (Node.relations node) ->
    JsMap.has (nodes st) (Relation.target r) = true ->
    let id := Graph.linkId source (Relation.target r)
                           (Relation.property r) in
    let res := App.restoreLink id st in
    (nodes (snd res) = nodes st /\
     selectedLink (snd res) = Some id /\
     selectedNode (snd res) = None /\
     In source (displayedNodes (snd res)) /\
     In (Relation.target r) (displayedNodes (snd res)) /\
     (exists l, In l (displayedLinks (snd res)) /\ Link.id l = id) /\
     Invariants.displayedKnown (snd res) /\
     Invariants.linksJoin (snd res) /\
     Address.showsLink id (url (snd res)) /\
     Address.othersKept (url st) (url (snd res))) /\
    (forall linkParam,
        (List.length (Str.split "-" linkParam) < 3)%nat ->
        App.restoreLink linkParam st = (Done tt, st)).
Proof.
  intros st source node r Hfs Hft Hknown Hlinks Hget Hin Hhas id res.
  split; [| intros linkParam; apply RestoreFacts.restoreLink_short].
  subst res.
  assert (Hsplit : exists part rest,
             Str.split "-" id
             = source :: Relation.target r :: part :: rest /\
             Str.join "-" (part :: rest) = Relation.property r).
  { subst id. rewrite (SplitFacts.split_linkId _ _ _ Hfs Hft).
    destruct (Str.split "-" (Relation.property r)) as [| part rest]
      eqn:Hparts;
      [exfalso; exact (SplitFacts.split_nonempty "-" _ Hparts) |].
    exists part, rest. split; [reflexivity |].
    rewrite <- Hparts. apply SplitFacts.join_split. }
  destruct Hsplit as (part & rest & Hparts & Hjoin).
  rewrite (RestoreFacts.restoreLink_run id source (Relation.target r) part
                                        rest st Hparts).
  rewrite Hjoin.
  apply (RestoreFacts.run_restores
           id source (Relation.target r) (Relation.property r) st node r);
    try assumption; try reflexivity.
  apply RestoreFacts.linkId_nonEmpty.
Qed.

Lemma restoreLink_restores_the_link_of_the_address_witness :
  selectedLink
    (snd (App.restoreLink "Package-PackageLink-packageLinks"
                          Examples.packageState))
  = Some "Package-PackageLink-packageLinks" /\
  In "PackageLink"
     (displayedNodes
        (snd (App.restoreLink "Package-PackageLink-packageLinks"
                              Examples.packageState))).
Proof.
  destruct (restoreLink_restores_the_link_of_the_address
              Examples.packageState "Package" Examples.packageNode
              (Relation.mk composition "PackageLink" "packageLinks" true
                           VUndefined (VStr "")))
    as ((_ & Hselected & _ & _ & Hshown & _) & _).
  - reflexivity.
  - reflexivity.
  - intros x [].
  - intros l [].
  - reflexivity.
  - vm_compute. right. left. reflexivity.
  - reflexivity.
  - split; [exact Hselected | exact Hshown].
Defined.



Module InternalFacts.

Import Internal.
Import Invariants.

Lemma handleInternalLink_run targetRef st :
  App.handleInternalLink targetRef st
  = match App.nonEmpty (resolve targetRef st) with
    | Some nodeId =>
        if negb (JsSet.has (displayedNodes st) nodeId)
        then match Graph.updateGraph (addDisplayed nodeId st) with
             | (Done _, st') => (Done tt, Sidebar.selectNode nodeId st')
             | (Throw, st') => (Throw, st')
             end
        else (Done tt, Sidebar.selectNode nodeId st)
    | None => (Done tt, st)
    end.
Proof.
  unfold App.handleInternalLink, resolve, bind, read, when, lift, ret.
  destruct (App.nonEmpty _) as [nodeId |]; [| reflexivity].
  destruct (negb (JsSet.has (displayedNodes st) nodeId)); [| reflexivity].
  destruct (Graph.updateGraph (addDisplayed nodeId st)) as [[[] |] st'];
    reflexivity.
Qed.

(** What a reference resolves to is a key of the node map that equals
    it up to case. *)
Lemma resolve_key targetRef st id :
  resolve targetRef st = Some id ->
  JsMap.has (nodes st) id = true /\
  Str.toLowerCase id = Str.toLowerCase targetRef.
Proof.
  unfold resolve.
  destruct (JsMap.has (nodes st) targetRef) eqn:Hhas.
  - intros [= <-]. split; [exact Hhas | reflexivity].
  - intros Hfind. apply find_some in Hfind. destruct Hfind as [Hin Heq].
    apply String.eqb_eq in Heq. split; [| exact Heq].
    unfold JsMap.keys in Hin. apply in_map_iff in Hin.
    destruct Hin as [[k v] [<- Hentry]]. cbn.
    apply MapFacts.in_has with v. exact Hentry.
Qed.

(** A reference resolves to nothing only when no key equals it up to
    case. *)
Lemma resolve_none targetRef st :
  resolve targetRef st = None ->
  forall id, JsMap.has (nodes st) id = true ->
             Str.toLowerCase id <> Str.toLowerCase targetRef.
Proof.
  unfold resolve.
  destruct (JsMap.has (nodes st) targetRef); [discriminate |].
  intros Hfind id Hhas Heq.
  unfold JsMap.has in Hhas.
  destruct (JsMap.get (nodes st) id) as [node |] eqn:Hget;
    [| discriminate Hhas].
  apply MapFacts.get_in in Hget.
  assert (Hin : In id (JsMap.keys (nodes st))).
  { unfold JsMap.keys. apply in_map_iff. exists (id, node).
    split; [reflexivity | exact Hget]. }
  pose proof (find_none _ _ Hfind id Hin) as Hno. cbn in Hno.
  rewrite Heq, String.eqb_refl in Hno. discriminate Hno.
Qed.

End InternalFacts.



Module SearchFacts.

Import Matches.

Lemma in_sort {A} (compare : A -> A -> Z) l x :
  In x (Search.sort compare l) <-> In x l.
Proof.
  induction l as [| y l IH]; cbn; [reflexivity |].
  rewrite SortFacts.in_insert, IH. split; intros [H | H]; auto.
Qed.

Lemma length_insert {A} (compare : A -> A -> Z) x l :
  List.length (Search.insert compare x l) = S (List.length l).
Proof.
  induction l as [| y l IH]; cbn; [reflexivity |].
  destruct (compare x y <=? 0); cbn; [reflexivity |].
  rewrite IH. reflexivity.
Qed.

Lemma length_sort {A} (compare : A -> A -> Z) l :
  List.length (Search.sort compare l) = List.length l.
Proof.
  induction l as [| y l IH]; cbn; [reflexivity |].
  rewrite length_insert, IH. reflexivity.
Qed.

Lemma in_firstn {A} n (l : list A) x : In x (firstn n l) -> In x l.
Proof.
  revert l. induction n as [| n IH]; intros l; cbn; [intros [] |].
  destruct l as [| y l]; cbn; [intros [] |].
  intros [<- | H]; [left; reflexivity | right; apply IH; exact H].
Qed.

Lemma firstn_short {A} n (l : list A) :
  (List.length (firstn n l) < n)%nat -> firstn n l = l.
Proof.
  intros H. apply firstn_all2. rewrite length_firstn in H. lia.
Qed.

Lemma propertyResults_in query id nodeName relations props :
  forall found,
    Search.propertyResults query id nodeName relations props = Some found ->
    forall r,
      In r found <->
      exists propName propDef,
        In (propName, propDef) props /\
        Str.includes query (Str.toLowerCase propName) = true /\
        r = propertyOf id nodeName relations propName propDef.
Proof.
  induction props as [| [propName propDef] rest IH];
    cbn [Search.propertyResults]; intros found H r.
  - injection H as <-. split; [intros [] |].
    intros (p & d & [] & _).
  - destruct (Str.includes query (Str.toLowerCase propName)) eqn:Hmatch.
    + destruct (Js.get propDef "description") as [description |] eqn:Hd;
        [| discriminate H].
      cbn in H.
      destruct (Search.propertyResults query id nodeName relations rest)
        as [more |] eqn:Hmore; [| discriminate H].
      injection H as <-.
      rewrite <- (ReadableFacts.get_getOpt _ _ _ Hd).
      specialize (IH more eq_refl r). cbn [In app]. rewrite IH. split.
      * intros [<- | (p & d & Hin & Hp & ->)].
        -- exists propName, propDef.
           split; [left; reflexivity |]. split; [exact Hmatch |].
           unfold propertyOf. rewrite (ReadableFacts.get_getOpt _ _ _ Hd).
           reflexivity.
        -- exists p, d. split; [right; exact Hin |].
           split; [exact Hp | reflexivity].
      * intros (p & d & [[= <- <-] | Hin] & Hp & ->).
        -- left. unfold propertyOf.
           rewrite (ReadableFacts.get_getOpt _ _ _ Hd). reflexivity.
        -- right. exists p, d. split; [exact Hin |].
           split; [exact Hp | reflexivity].
    + cbn in H.
      destruct (Search.propertyResults query id nodeName relations rest)
        as [more |] eqn:Hmore; [| discriminate H].
      injection H as <-.
      specialize (IH more eq_refl r). cbn [app]. rewrite IH. split.
      * intros (p & d & Hin & Hp & ->). exists p, d.
        split; [right; exact Hin |]. split; [exact Hp | reflexivity].
      * intros (p & d & [[= <- <-] | Hin] & Hp & ->).
        -- rewrite Hp in Hmatch. discriminate Hmatch.
        -- exists p, d. split; [exact Hin |].
           split; [exact Hp | reflexivity].
Qed.

Lemma nodeResults_in query id node here :
  Search.nodeResults query (id, node) = Some here ->
  exists nodeName,
    Node.name node = VStr nodeName /\
    forall r,
      In r here <->
      ((Str.includes query (Str.toLowerCase nodeName)
        || Str.includes query (Str.toLowerCase id))%bool = true /\
       r = entityOf id nodeName node) \/
      (Js.truthy (Node.properties node) = true /\
       exists propName propDef,
         In (propName, propDef) (Js.ownEntries (Node.properties node)) /\
         Str.includes query (Str.toLowerCase propName) = true /\
         r = propertyOf id nodeName (Node.relations node) propName
                        propDef).
Proof.
  unfold Search.nodeResults.
  destruct (Node.name node) as [| | | | nodeName | |]; try discriminate.
  intros H. exists nodeName. split; [reflexivity |]. intros r.
  fold (entityOf id nodeName node) in H.
  destruct (Js.truthy (Node.properties node)) eqn:Htruthy.
  - unfold Js.entries in H.
    destruct (Js.nullish (Node.properties node)); [discriminate H |].
    cbn in H.
    destruct (Search.propertyResults query id nodeName
                                     (Node.relations node)
                                     (Js.ownEntries (Node.properties node)))
      as [found |] eqn:Hfound; [| discriminate H].
    injection H as <-.
    rewrite in_app_iff, (propertyResults_in _ _ _ _ _ found Hfound r).
    destruct (Str.includes query (Str.toLowerCase nodeName)
              || Str.includes query (Str.toLowerCase id))%bool; cbn [In].
    + split.
      * intros [[<- | []] | Hp];
          [left; split; reflexivity | right; split; [reflexivity | exact Hp]].
      * intros [[_ ->] | [_ Hp]];
          [left; left; reflexivity | right; exact Hp].
    + split.
      * intros [[] | Hp]. right. split; [reflexivity | exact Hp].
      * intros [[Hf _] | [_ Hp]]; [discriminate Hf | right; exact Hp].
  - injection H as <-.
    destruct (Str.includes query (Str.toLowerCase nodeName)
              || Str.includes query (Str.toLowerCase id))%bool; cbn [In].
    + split.
      * intros [<- | []]. left. split; reflexivity.
      * intros [[_ ->] | [Hf _]]; [left; reflexivity | discriminate Hf].
    + split; [intros [] |].
      intros [[Hf _] | [Hf _]]; discriminate Hf.
Qed.

Lemma collect_in query entries :
  forall results,
    Search.collect query entries = Some results ->
    forall r, In r results <-> hit query entries r.
Proof.
  induction entries as [| [id node] rest IH]; cbn [Search.collect];
    intros results H r.
  - injection H as <-. split; [intros [] |].
    intros (i & n & s & [] & _).
  - destruct (Search.nodeResults query (id, node)) as [here |] eqn:Hhere;
      [| discriminate H].
    cbn in H.
    destruct (Search.collect query rest) as [more |] eqn:Hmore;
      [| discriminate H].
    injection H as <-.
    destruct (nodeResults_in query id node here Hhere)
      as (nodeName & Hname & Hin).
    rewrite in_app_iff, Hin, (IH more eq_refl r). unfold hit. split.
    + intros [Hr | (i & n & s & Hentry & Hs & Hr)].
      * exists id, node, nodeName.
        split; [left; reflexivity |]. split; [exact Hname | exact Hr].
      * exists i, n, s. split; [right; exact Hentry |].
        split; [exact Hs | exact Hr].
    + intros (i & n & s & [[= <- <-] | Hentry] & Hs & Hr).
      * left. rewrite Hname in Hs. injection Hs as <-. exact Hr.
      * right. exists i, n, s. split; [exact Hentry |].
        split; [exact Hs | exact Hr].
Qed.

Lemma performSearch_collected localeCompare query st all :
  Search.collect query (nodes st) = Some all ->
  Search.performSearch localeCompare query st
  = Some (firstn 50 (Search.sort (Search.compareResults localeCompare query)
                                 all)).
Proof. unfold Search.performSearch. intros ->. reflexivity. Qed.

Lemma performSearch_raises localeCompare query st :
  Search.collect query (nodes st) = None ->
  Search.performSearch localeCompare query st = None.
Proof. unfold Search.performSearch. intros ->. reflexivity. Qed.

End SearchFacts.

(** X20. [performSearch] answers at most 50 results, and each of them is a
    hit: the entity of a node whose lower-cased name or id contains the
    query, or a property of a node whose lower-cased name contains the
    query, marked as a relation exactly when the node holds a relation of
    that property.  When fewer than 50 results come back nothing was cut:
    every hit is among them. *)
Theorem performSearch_returns_the_hits :
  forall (localeCompare : string -> string -> Z) (query : string)
         (st : State) (results : list Result.t),
    Search.performSearch localeCompare query st = Some results ->
    (List.length results <= 50)%nat /\
    (forall r, In r results -> Matches.hit query (nodes st) r) /\
    ((List.length results < 50)%nat ->
     forall r, Matches.hit query (nodes st) r -> In r results).
Proof.
  intros localeCompare query st results H.
  destruct (Search.collect query (nodes st)) as [all |] eqn:Hall;
    [| rewrite (SearchFacts.performSearch_raises _ _ _ Hall) in H;
       discriminate H].
  rewrite (SearchFacts.performSearch_collected _ _ _ all Hall) in H.
  assert (Hresults :
            results
            = firstn 50 (Search.sort
                           (Search.compareResults localeCompare query) all))
    by congruence.
  clear H. subst results.
  split; [rewrite length_firstn; lia |]. split.
  - intros r Hin. apply SearchFacts.in_firstn in Hin.
    apply SearchFacts.in_sort in Hin.
    apply (SearchFacts.collect_in query (nodes st) all Hall r). exact Hin.
  - intros Hshort r Hhit. rewrite (SearchFacts.firstn_short _ _ Hshort).
    apply SearchFacts.in_sort.
    apply (SearchFacts.collect_in query (nodes st) all Hall r). exact Hhit.
Qed.

Lemma performSearch_returns_the_hits_witness :
  exists results,
    Search.performSearch Ranking.codeUnitCompare "link" Examples.packageState
    = Some results /\
    (forall r, In r results ->
               Matches.hit "link" (nodes Examples.packageState) r).
Proof.
  eexists. split; [vm_compute; reflexivity |].
  refine (proj1 (proj2 (performSearch_returns_the_hits
                          Ranking.codeUnitCompare "link"
                          Examples.packageState _ _))).
  vm_compute. reflexivity.
Defined.

Module ResultFacts.

Import Edges.
Import Loops.
Import Invariants.

Lemma relation_run id nodeId result rel st :
  Result.relation result = Some rel ->
  Search.handleResultSelection ResultType.relation id nodeId result st
  = match Graph.addRelationToGraph nodeId rel (addDisplayed nodeId st) with
    | (Done _, st1) =>
        match Graph.updateGraph st1 with
        | (Done _, st2) =>
            (Done (Some (Graph.linkId nodeId (Relation.target rel)
                                      (Relation.property rel))), st2)
        | (Throw, st2) => (Throw, st2)
        end
    | (Throw, st1) => (Throw, st1)
    end.
Proof.
  intros Hrel. unfold Search.handleResultSelection. rewrite Hrel.
  unfold bind, lift, ret.
  destruct (Graph.addRelationToGraph nodeId rel (addDisplayed nodeId st))
    as [[[] |] st1]; [| reflexivity].
  destruct (Graph.updateGraph st1) as [[[] |] st2]; reflexivity.
Qed.

Lemma entity_run id nodeId result st :
  Search.handleResultSelection ResultType.entity id nodeId result st
  = if negb (JsSet.has (displayedNodes st) id)
    then match Graph.updateGraph
                 (snd (Graph.autoAddForwardLinks
                         id
                         (snd (Graph.autoAddReverseLinks
                                 id (addDisplayed id st))))) with
         | (Done _, st') => (Done None, Sidebar.selectNode id st')
         | (Throw, st') => (Throw, st')
         end
    else (Done None, Sidebar.selectNode id st).
Proof.
  unfold Search.handleResultSelection, bind, read, when, lift, ret.
  destruct (negb (JsSet.has (displayedNodes st) id)); [| reflexivity].
  destruct (Graph.updateGraph _) as [[[] |] st']; reflexivity.
Qed.

(** The links that the two [autoAdd] calls leave for a node that has
    just been displayed. *)
Lemma autoAdd_both id st node :
  JsMap.get (nodes st) id = Some node ->
  let st' := snd (Graph.autoAddForwardLinks
                    id (snd (Graph.autoAddReverseLinks id st))) in
  st' = setDisplayedLinks (displayedLinks st') st /\
  (exists new, displayedLinks st' = displayedLinks st ++ new) /\
  (forall r,
      In r (Node.relations node) ->
      JsSet.has (displayedNodes st) (Relation.target r) = true ->
      existsb (Graph.hasId (Graph.linkId id (Relation.target r)
                                         (Relation.property r)))
              (displayedLinks st') = true) /\
  (forall rv,
      In rv (Graph.getReverseRelations id st) ->
      JsSet.has (displayedNodes st) (Reverse.source rv) = true ->
      existsb (Graph.hasId (Graph.linkId (Reverse.source rv) id
                                         (Reverse.property rv)))
              (displayedLinks st') = true) /\
  (idsUnique (displayedLinks st) -> idsUnique (displayedLinks st')).
Proof.
  intros Hget st'. subst st'.
  rewrite AutoAddFacts.reverse_unfold.
  destruct (LoopFacts.push_loop
              Reverse.t sourceShown (Graph.linkOfReverse id)
              ltac:(intros; reflexivity)
              (Graph.getReverseRelations id st) false st)
    as (Hframe1 & (new1 & Hnew1 & _) & Hall1).
  pose proof (LoopFacts.push_loop_idsUnique
                Reverse.t sourceShown (Graph.linkOfReverse id)
                (Graph.getReverseRelations id st) false st) as Hunique1.
  set (st1 := snd (fold_left (pushStep sourceShown
                                       (Graph.linkOfReverse id))
                             (Graph.getReverseRelations id st)
                             (false, st))) in *.
  destruct (AutoAddFacts.frame_fields _ _ _ Hframe1) as [Hn1 Hd1].
  assert (Hget1 : JsMap.get (nodes st1) id = Some node)
    by (rewrite Hn1; exact Hget).
  rewrite (AutoAddFacts.forward_unfold id st1 node Hget1).
  destruct (LoopFacts.push_loop
              Relation.t targetShown (Graph.linkOf id)
              ltac:(intros; reflexivity)
              (Node.relations node) false st1)
    as (Hframe2 & (new2 & Hnew2 & _) & Hall2).
  pose proof (LoopFacts.push_loop_idsUnique
                Relation.t targetShown (Graph.linkOf id)
                (Node.relations node) false st1) as Hunique2.
  set (st2 := snd (fold_left (pushStep targetShown (Graph.linkOf id))
                             (Node.relations node) (false, st1))) in *.
  split; [rewrite Hframe2 at 1; rewrite Hframe1; destruct st;
          reflexivity |].
  split; [exists (new1 ++ new2); rewrite Hnew2, Hnew1, app_assoc;
          reflexivity |].
  split; [| split].
  - intros r Hin Hshown. apply (Hall2 r Hin).
    unfold targetShown. rewrite Hd1. exact Hshown.
  - intros rv Hin Hshown. rewrite Hnew2, existsb_app.
    assert (Hhere :
              existsb (Graph.hasId (Graph.linkId (Reverse.source rv) id
                                                 (Reverse.property rv)))
                      (displayedLinks st1) = true)
      by exact (Hall1 rv Hin Hshown).
    rewrite Hhere. reflexivity.
  - intros H. apply Hunique2, Hunique1, H.
Qed.

End ResultFacts.





Module CompositeFacts.

Import Composite.
Import Loops.

Lemma same_links st st' :
  displayedLinks st' = displayedLinks st -> all st -> all st'.
Proof. unfold all. intros ->. exact (fun H => H). Qed.

Lemma all_push link st :
  idOfFields link -> all st -> all (pushLink link st).
Proof.
  intros Hlink Hall l Hl. cbn in Hl. apply in_app_iff in Hl.
  destruct Hl as [Hl | [<- | []]]; [apply Hall; exact Hl | exact Hlink].
Qed.

Lemma pushIfAbsent_all link added st :
  idOfFields link -> all st ->
  all (snd (Graph.pushIfAbsent link (added, st))).
Proof.
  intros Hlink Hall. unfold Graph.pushIfAbsent.
  destruct (existsb _ (displayedLinks st)); cbn [snd];
    [exact Hall | apply all_push; assumption].
Qed.

Lemma addIfHidden_all id added st :
  all st -> all (snd (Graph.addIfHidden id (added, st))).
Proof.
  intros Hall. unfold Graph.addIfHidden.
  destruct (JsSet.has (displayedNodes st) id); exact Hall.
Qed.

Lemma push_loop_all {A} (shown : State -> A -> bool) (mk : A -> Link.t)
      items :
  (forall a, idOfFields (mk a)) ->
  forall acc, all (snd acc) ->
              all (snd (fold_left (pushStep shown mk) items acc)).
Proof.
  intros Hmk. induction items as [| x items IH]; intros [added st] Hall;
    cbn [fold_left]; [exact Hall |].
  apply IH. unfold pushStep. cbn [snd] in *.
  destruct (shown st x); [| exact Hall].
  apply pushIfAbsent_all; [apply Hmk | exact Hall].
Qed.

Lemma neighbor_loop_all {A} (known : State -> A -> bool)
      (key : A -> string) (mk : A -> Link.t) items :
  (forall a, idOfFields (mk a)) ->
  forall acc, all (snd acc) ->
              all (snd (fold_left (neighborStep known key mk) items acc)).
Proof.
  intros Hmk. induction items as [| x items IH]; intros [added st] Hall;
    cbn [fold_left]; [exact Hall |].
  apply IH. unfold neighborStep. cbn [snd] in *.
  destruct (known st x); [| exact Hall].
  pose proof (addIfHidden_all (key x) added st Hall) as Hstep.
  destruct (Graph.addIfHidden (key x) (added, st)) as [added1 st1].
  apply pushIfAbsent_all; [apply Hmk | exact Hstep].
Qed.

Lemma linkOf_composite id r : idOfFields (Graph.linkOf id r).
Proof. reflexivity. Qed.

Lemma linkOfReverse_composite id rv :
  idOfFields (Graph.linkOfReverse id rv).
Proof. reflexivity. Qed.

Lemma expandLevels_all levels id st :
  all st -> all (Graph.expandLevels levels id st).
Proof.
  revert st.
  apply (ExpandFacts.expandLevels_steps (fun a b => all a -> all b)).
  - intros st H. exact H.
  - intros a b c Hab Hbc H. apply Hbc, Hab, H.
  - intros st x _ H. exact H.
  - intros st nodeId r _ _ H. apply all_push; [| exact H].
    apply linkOf_composite.
Qed.

Lemma autoAddForwardLinks_all id st :
  all st -> all (snd (Graph.autoAddForwardLinks id st)).
Proof.
  intros Hall.
  destruct (JsMap.get (nodes st) id) as [node |] eqn:Hget.
  - rewrite (AutoAddFacts.forward_unfold id st node Hget).
    apply push_loop_all; [apply linkOf_composite | exact Hall].
  - unfold Graph.autoAddForwardLinks. rewrite Hget. exact Hall.
Qed.

Lemma autoAddReverseLinks_all id st :
  all st -> all (snd (Graph.autoAddReverseLinks id st)).
Proof.
  intros Hall. rewrite AutoAddFacts.reverse_unfold.
  apply push_loop_all; [apply linkOfReverse_composite | exact Hall].
Qed.

(** The building blocks of the operations. *)
Lemma keeps_ret {A} (a : A) : keeps (ret a).
Proof. intros st H. exact H. Qed.

Lemma keeps_bind {A B} (m : M A) (k : A -> M B) :
  keeps m -> (forall a, keeps (k a)) -> keeps (bind m k).
Proof.
  intros Hm Hk st Hall. unfold bind. specialize (Hm st Hall).
  destruct (m st) as [[a |] st1]; cbn [snd] in *;
    [apply Hk; exact Hm | exact Hm].
Qed.

Lemma keeps_lift (f : State -> State) :
  (forall st, all st -> all (f st)) -> keeps (lift f).
Proof. intros Hf st Hall. apply Hf. exact Hall. Qed.

Lemma keeps_liftR {A} (f : State -> A * State) :
  (forall st, all st -> all (snd (f st))) -> keeps (liftR f).
Proof.
  intros Hf st Hall. unfold liftR. specialize (Hf st Hall).
  destruct (f st) as [a st1]. exact Hf.
Qed.

Lemma keeps_read {A} (f : State -> A) : keeps (read f).
Proof. intros st H. exact H. Qed.

Lemma keeps_when b (m : M unit) : keeps m -> keeps (when b m).
Proof. intros Hm. destruct b; [exact Hm | apply keeps_ret]. Qed.

Lemma keeps_tryCatch (m handler : M unit) :
  keeps m -> keeps handler -> keeps (tryCatch m handler).
Proof.
  intros Hm Hh st Hall. unfold tryCatch. specialize (Hm st Hall).
  destruct (m st) as [[a |] st1]; cbn [snd] in *;
    [exact Hm | apply Hh; exact Hm].
Qed.

Lemma keeps_raise {A} : keeps (fun st => (@Throw A, st)).
Proof. intros st H. exact H. Qed.

Lemma keeps_updateGraph : keeps Graph.updateGraph.
Proof.
  intros st Hall. unfold Graph.updateGraph.
  destruct (forallb _ (displayedNodes st)); [| exact Hall].
  destruct (forallb _ (displayedLinks st)); exact Hall.
Qed.

Lemma selectNode_all id st : all st -> all (Sidebar.selectNode id st).
Proof.
  apply same_links. apply (NotifyFacts.selectNode_graph id st).
Qed.

Lemma selectLink_all id st : all st -> all (Sidebar.selectLink id st).
Proof.
  apply same_links. apply (AddressFacts.selectLink_graph id st).
Qed.

Lemma notify_all id st : all st -> all (Graph.notifyNodeSelect id st).
Proof.
  apply same_links. apply (NotifyFacts.notify_graph id st).
Qed.

Lemma addDisplayed_all id st : all st -> all (addDisplayed id st).
Proof. exact (fun H => H). Qed.

Lemma perform_all effects st : all st -> all (perform effects st).
Proof. exact (fun H => H). Qed.

Ltac steps :=
  repeat match goal with
         | |- keeps (bind _ _) => apply keeps_bind; [| intros ? ]
         | |- keeps (when _ _) => apply keeps_when
         | |- keeps (read _) => apply keeps_read
         | |- keeps (ret _) => apply keeps_ret
         | |- keeps Graph.updateGraph => apply keeps_updateGraph
         | |- keeps (lift _) => apply keeps_lift; intros ? ?
         | |- keeps (liftR _) => apply keeps_liftR; intros ? ?
         end.

Lemma keeps_addRelationToGraph sourceId relation :
  keeps (Graph.addRelationToGraph sourceId relation).
Proof.
  unfold Graph.addRelationToGraph. steps.
  - assumption.
  - apply pushIfAbsent_all; [apply linkOf_composite | assumption].
  - apply autoAddReverseLinks_all. assumption.
  - apply notify_all. assumption.
Qed.

Lemma keeps_addReverseRelationToGraph targetId sourceId property type :
  keeps (Graph.addReverseRelationToGraph targetId sourceId property type).
Proof.
  unfold Graph.addReverseRelationToGraph.
  apply keeps_bind; [apply keeps_read |]. intros [sourceNode |];
    [| apply keeps_ret].
  destruct (find _ (Node.relations sourceNode)) as [rel |] eqn:Hfind;
    [| apply keeps_ret].
  apply find_some in Hfind. destruct Hfind as [_ Hfound].
  apply andb_prop in Hfound. destruct Hfound as [Hfound _].
  apply andb_prop in Hfound. destruct Hfound as [_ Hproperty].
  apply String.eqb_eq in Hproperty.
  steps.
  - assumption.
  - apply pushIfAbsent_all; [| assumption].
    unfold idOfFields. cbn. rewrite Hproperty. reflexivity.
  - apply notify_all. assumption.
Qed.

Lemma keeps_expandAllNeighbors id : keeps (Graph.expandAllNeighbors id).
Proof.
  unfold Graph.expandAllNeighbors. steps.
  rewrite NeighborFacts.reverse_neighbors.
  apply neighbor_loop_all; [apply linkOfReverse_composite |].
  rewrite NeighborFacts.forward_neighbors.
  apply neighbor_loop_all; [apply linkOf_composite |]. assumption.
Qed.

Lemma keeps_initializeGraph depth startNodeId :
  keeps (Graph.initializeGraph depth startNodeId).
Proof.
  unfold Graph.initializeGraph. steps.
  - assumption.
  - intros l [].
  - destruct (depth =? 0); steps; [assumption |].
    apply expandLevels_all. assumption.
Qed.

Lemma linkParam_composite linkParam sourceId targetId part rest :
  Str.split "-" linkParam = sourceId :: targetId :: part :: rest ->
  linkParam
  = Graph.linkId sourceId targetId (Str.join "-" (part :: rest)).
Proof.
  intros Hsplit.
  rewrite <- (SplitFacts.join_split "-" linkParam) at 1.
  rewrite Hsplit. reflexivity.
Qed.

Lemma keeps_restoreLink linkParam : keeps (App.restoreLink linkParam).
Proof.
  unfold App.restoreLink.
  destruct (Str.split "-" linkParam)
    as [| sourceId [| targetId [| part rest]]] eqn:Hsplit;
    try apply keeps_ret.
  pose proof (linkParam_composite _ _ _ _ _ Hsplit) as Hid.
  steps; try assumption.
  - destruct (existsb _ (displayedLinks _)); [assumption |].
    destruct (JsMap.get _ sourceId) as [sourceNode |]; [| assumption].
    destruct (find _ (Node.relations sourceNode)) as [rel |] eqn:Hfind;
      [| assumption].
    apply find_some in Hfind. destruct Hfind as [_ Hfound].
    apply andb_prop in Hfound. destruct Hfound as [_ Hproperty].
    apply String.eqb_eq in Hproperty.
    cbn [snd]. apply all_push; [| assumption].
    unfold idOfFields. cbn [Link.id Link.source Link.target Link.property].
    rewrite Hproperty. exact Hid.
  - apply selectLink_all. assumption.
Qed.

Lemma keeps_loadSchema schemaName response depth :
  keeps (App.loadSchema schemaName response depth).
Proof.
  unfold App.loadSchema. apply keeps_tryCatch;
    [| apply keeps_lift; intros st H; exact H].
  destruct response as [schemaData |]; [| apply keeps_raise].
  apply keeps_bind; [apply keeps_lift; intros st H; exact H |].
  intros _.
  destruct (Parser.parseSchema schemaData schemaName) as [parsed |];
    [| apply keeps_raise].
  apply keeps_bind; [apply keeps_lift; intros st H; exact H |].
  intros _.
  apply keeps_bind; [apply keeps_read |]. intros nodeParam.
  apply keeps_bind; [apply keeps_read |]. intros linkParam.
  apply keeps_bind; [apply keeps_initializeGraph |]. intros _.
  destruct (App.nonEmpty nodeParam) as [nodeId |].
  - apply keeps_lift. intros st. apply selectNode_all.
  - destruct (App.nonEmpty linkParam) as [linkId |].
    + apply keeps_restoreLink.
    + apply keeps_lift. intros st H. exact H.
Qed.

Lemma keeps_handleInternalLink targetRef :
  keeps (App.handleInternalLink targetRef).
Proof.
  unfold App.handleInternalLink.
  apply keeps_bind; [apply keeps_read |]. intros found.
  destruct (App.nonEmpty found) as [nodeId |]; [| apply keeps_ret].
  steps; try assumption. apply selectNode_all. assumption.
Qed.

Lemma keeps_handleResultSelection type id nodeId result :
  keeps (Search.handleResultSelection type id nodeId result).
Proof.
  unfold Search.handleResultSelection. destruct type.
  - steps; try assumption.
    + apply autoAddReverseLinks_all. assumption.
    + apply autoAddForwardLinks_all. assumption.
    + apply selectNode_all. assumption.
  - destruct (Result.relation result) as [rel |]; [| apply keeps_ret].
    apply keeps_bind; [apply keeps_lift; intros st H; exact H |].
    intros _.
    apply keeps_bind; [apply keeps_addRelationToGraph |]. intros _.
    steps.
  - steps; try assumption. apply selectNode_all. assumption.
Qed.

End CompositeFacts.

(** X23. The id of a displayed link is the composite of its own source,
    target and property, and every operation on the state keeps it so:
    when this holds of the displayed links before [expandNode],
    [initializeGraph], [autoAddForwardLinks], [autoAddReverseLinks],
    [addRelationToGraph], [addReverseRelationToGraph],
    [expandAllNeighbors], [selectNode], [selectLink], [loadSchema] with
    its restoration of a link, [handleInternalLink] or
    [handleResultSelection], it holds after the call, whether the call
    returns or raises. *)
Theorem link_ids_stay_composite :
  forall st : State,
    Composite.all st ->
    (forall id depth, Composite.all (Graph.expandNode id depth st)) /\
    (forall depth start,
        Composite.all (snd (Graph.initializeGraph depth start st))) /\
    (forall id, Composite.all (snd (Graph.autoAddForwardLinks id st))) /\
    (forall id, Composite.all (snd (Graph.autoAddReverseLinks id st))) /\
    (forall sourceId relation,
        Composite.all (snd (Graph.addRelationToGraph sourceId relation st)))
    /\
    (forall targetId sourceId property type,
        Composite.all
          (snd (Graph.addReverseRelationToGraph targetId sourceId property
                                                type st))) /\
    (forall id, Composite.all (snd (Graph.expandAllNeighbors id st))) /\
    (forall id, Composite.all (Sidebar.selectNode id st)) /\
    (forall id, Composite.all (Sidebar.selectLink id st)) /\
    (forall schemaName response depth,
        Composite.all (snd (App.loadSchema schemaName response depth st))) /\
    (forall linkParam, Composite.all (snd (App.restoreLink linkParam st))) /\
    (forall targetRef,
        Composite.all (snd (App.handleInternalLink targetRef st))) /\
    (forall type id nodeId result,
        Composite.all
          (snd (Search.handleResultSelection type id nodeId result st))).
Proof.
  intros st Hall.
  split; [intros id depth; apply CompositeFacts.expandLevels_all, Hall |].
  split; [intros depth start;
          apply CompositeFacts.keeps_initializeGraph, Hall |].
  split; [intros id; apply CompositeFacts.autoAddForwardLinks_all, Hall |].
  split; [intros id; apply CompositeFacts.autoAddReverseLinks_all, Hall |].
  split; [intros sourceId relation;
          apply CompositeFacts.keeps_addRelationToGraph, Hall |].
  split; [intros targetId sourceId property type;
          apply CompositeFacts.keeps_addReverseRelationToGraph, Hall |].
  split; [intros id; apply CompositeFacts.keeps_expandAllNeighbors, Hall |].
  split; [intros id; apply CompositeFacts.selectNode_all, Hall |].
  split; [intros id; apply CompositeFacts.selectLink_all, Hall |].
  split; [intros schemaName response depth;
          apply CompositeFacts.keeps_loadSchema, Hall |].
  split; [intros linkParam; apply CompositeFacts.keeps_restoreLink, Hall |].
  split; [intros targetRef;
          apply CompositeFacts.keeps_handleInternalLink, Hall |].
  intros type id nodeId result.
  apply CompositeFacts.keeps_handleResultSelection, Hall.
Qed.

Lemma link_ids_stay_composite_witness :
  Composite.all
    (snd (App.loadSchema "Document" (Some Examples.packageSchema) 2
                         (Examples.page
                            [("link", "Package-PackageLink-packageLinks")]))).
Proof.
  destruct (link_ids_stay_composite
              (Examples.page [("link", "Package-PackageLink-packageLinks")]))
    as (_ & _ & _ & _ & _ & _ & _ & _ & _ & Hload & _).
  - intros l [].
  - apply Hload.
Defined.

Module ParsedFacts.

Import Parsed.

Lemma keys_bases nodes : List.map fst (bases nodes) = JsMap.keys nodes.
Proof.
  unfold bases, JsMap.keys. rewrite map_map. reflexivity.
Qed.

Lemma bases_set_same (m : NodeMap) k v v' :
  JsMap.get m k = Some v -> base v' = base v ->
  bases (JsMap.set m k v') = bases m.
Proof.
  intros Hget Hbase. unfold bases.
  induction m as [| [k0 v0] m IH]; cbn in *; [discriminate Hget |].
  destruct (String.eqb_spec k0 k) as [-> | Hne]; cbn.
  - injection Hget as ->. rewrite Hbase. reflexivity.
  - rewrite (IH Hget). reflexivity.
Qed.

Lemma bases_pushRelations nodes name rels :
  bases (Parser.pushRelations nodes name rels) = bases nodes.
Proof.
  unfold Parser.pushRelations.
  destruct (JsMap.get nodes name) as [node |] eqn:Hget; [| reflexivity].
  apply bases_set_same with node; [exact Hget | reflexivity].
Qed.

Lemma bases_extractAll definitions rootId names :
  forall nodes result,
    Parser.extractAll definitions rootId names nodes = Some result ->
    bases result = bases nodes.
Proof.
  induction names as [| name rest IH]; cbn; intros nodes result H.
  - injection H as <-. reflexivity.
  - destruct (String.eqb name rootId); [apply IH; exact H |].
    destruct (Js.truthy _); [| apply IH; exact H].
    destruct (Parser.extractRelations _ nodes) as [rels |];
      [| discriminate H].
    rewrite (IH _ _ H). apply bases_pushRelations.
Qed.

Lemma keys_set {V} (m : JsMap.t V) k v :
  JsMap.keys (JsMap.set m k v)
  = if JsMap.has m k then JsMap.keys m else JsMap.keys m ++ [k].
Proof.
  unfold JsMap.has, JsMap.keys.
  induction m as [| [k0 v0] m IH]; cbn; [reflexivity |].
  destruct (String.eqb k0 k) eqn:Hk; cbn.
  - apply String.eqb_eq in Hk. subst k0. reflexivity.
  - rewrite IH. destruct (JsMap.get m k); reflexivity.
Qed.

Lemma addDefinitions_keys defs :
  forall nodes result,
    Parser.addDefinitions defs nodes = Some result ->
    NoDup (List.map fst defs) ->
    JsMap.keys result
    = JsMap.keys nodes
        ++ filter (fun d => negb (JsMap.has nodes d)) (List.map fst defs).
Proof.
  induction defs as [| [name def] rest IH]; cbn [Parser.addDefinitions];
    intros nodes result H Hnodup.
  - injection H as <-. cbn. rewrite app_nil_r. reflexivity.
  - destruct (Parser.definitionNodeOf name def) as [node |];
      [| discriminate H].
    cbn in H. cbn [List.map fst] in Hnodup.
    inversion Hnodup as [| ? ? Hfresh Hrest]; subst.
    rewrite (IH _ _ H Hrest), keys_set.
    assert (Hfilter :
              filter (fun d => negb (JsMap.has (JsMap.set nodes name node)
                                               d))
                     (List.map fst rest)
              = filter (fun d => negb (JsMap.has nodes d))
                       (List.map fst rest)).
    { apply filter_ext_in. intros d Hd. rewrite MapFacts.has_set.
      destruct (String.eqb_spec name d) as [<- | _]; [| reflexivity].
      exfalso. exact (Hfresh Hd). }
    rewrite Hfilter. cbn [filter List.map fst].
    destruct (JsMap.has nodes name); cbn [negb]; [reflexivity |].
    rewrite <- app_assoc. reflexivity.
Qed.

Lemma rootNodeOf_base schema schemaName rootNode :
  Parser.rootNodeOf schema schemaName = Some rootNode ->
  Node.id rootNode = schemaName /\
  Node.type rootNode = VStr "root" /\
  Node.rawSchema rootNode = schema.
Proof.
  unfold Parser.rootNodeOf. intros H.
  destruct (Js.get schema "title"); [| discriminate H].
  destruct (Js.get schema "x-ums-type"); [| discriminate H].
  destruct (Js.get schema "description"); [| discriminate H].
  destruct (Js.get schema "properties"); [| discriminate H].
  destruct (Js.get schema "required"); [| discriminate H].
  destruct (Js.get schema "x-recommended"); [| discriminate H].
  destruct (Js.get schema "examples"); [| discriminate H].
  destruct (Js.get schema "example"); [| discriminate H].
  destruct (Parser.extractXProperties schema); [| discriminate H].
  injection H as <-. repeat split; reflexivity.
Qed.

Lemma definitionNodeOf_base name def node :
  Parser.definitionNodeOf name def = Some node ->
  Node.id node = name /\
  Node.name node = VStr (Utils.formatName name) /\
  Node.rawSchema node = def.
Proof.
  unfold Parser.definitionNodeOf. intros H.
  destruct (Js.get def "type"); [| discriminate H].
  destruct (Js.get def "x-ums-type"); [| discriminate H].
  destruct (Js.get def "title"); [| discriminate H].
  destruct (Js.get def "description"); [| discriminate H].
  destruct (Js.get def "properties"); [| discriminate H].
  destruct (Js.get def "required"); [| discriminate H].
  destruct (Js.get def "x-recommended"); [| discriminate H].
  destruct (Js.get def "examples"); [| discriminate H].
  destruct (Js.get def "example"); [| discriminate H].
  destruct (Parser.extractXProperties def); [| discriminate H].
  injection H as <-. repeat split; reflexivity.
Qed.

(** The node map before the relations are extracted. *)
Lemma parseSchema_bases schema schemaName nodes :
  Parser.parseSchema schema schemaName = Some nodes ->
  exists rootNode created,
    Parser.rootNodeOf schema schemaName = Some rootNode /\
    Parser.addDefinitions (definitionsOf schema)
                          [(schemaName, rootNode)] = Some created /\
    bases nodes = bases created.
Proof.
  unfold Parser.parseSchema, definitionsOf. intros H.
  destruct (Js.get schema "definitions") as [definitionsProp |] eqn:Hd;
    [| discriminate H].
  rewrite (ReadableFacts.get_getOpt _ _ _ Hd).
  destruct (Parser.rootNodeOf schema schemaName) as [rootNode |];
    [| discriminate H].
  unfold Js.entries in H.
  destruct (Js.nullish (Js.or definitionsProp (VObj [])));
    [discriminate H |].
  cbn [JsMap.set] in H.
  destruct (Parser.addDefinitions
              (Js.ownEntries (Js.or definitionsProp (VObj [])))
              [(schemaName, rootNode)]) as [created |] eqn:Hcreated;
    [| discriminate H].
  destruct (Parser.extractRelations _ created) as [rootRels |];
    [| discriminate H].
  exists rootNode, created. split; [reflexivity |].
  split; [exact Hcreated |].
  rewrite (bases_extractAll _ _ _ _ _ H).
  destruct (JsMap.has _ schemaName); [reflexivity |].
  apply bases_pushRelations.
Qed.

Lemma in_bases nodes k node :
  In (k, node) nodes -> In (k, base node) (bases nodes).
Proof.
  intros H. unfold bases. apply in_map_iff. exists (k, node).
  split; [reflexivity | exact H].
Qed.

Lemma bases_in nodes k b :
  In (k, b) (bases nodes) -> exists node, In (k, node) nodes /\ base node = b.
Proof.
  unfold bases. intros H. apply in_map_iff in H.
  destruct H as [[k0 node] [[= -> <-] Hin]]. exists node.
  split; [exact Hin | reflexivity].
Qed.

End ParsedFacts.

(** X24. The node map that [parseSchema] answers holds the root and the
    definitions of the schema.  Every entry is stored under the id of its
    node; it is the root, created from the schema document itself, or the
    node of a definition of that name, created from that definition and
    named by [formatName].  When the definitions have distinct names the
    keys are the schema name followed by the names of the definitions in
    the order of the document, a definition that carries the schema name
    taking the place of the root. *)
Theorem parseSchema_lists_root_and_definitions :
  forall (schema : value) (schemaName : string) (nodes : NodeMap),
    Parser.parseSchema schema schemaName = Some nodes ->
    (forall k node,
        In (k, node) nodes ->
        Node.id node = k /\
        ((k = schemaName /\ Node.type node = VStr "root" /\
          Node.rawSchema node = schema) \/
         (exists def,
             In (k, def) (Parsed.definitionsOf schema) /\
             Node.name node = VStr (Utils.formatName k) /\
             Node.rawSchema node = def))) /\
    (NoDup (List.map fst (Parsed.definitionsOf schema)) ->
     JsMap.keys nodes
     = schemaName
         :: filter (fun d => negb (String.eqb schemaName d))
                   (List.map fst (Parsed.definitionsOf schema))).
Proof.
  intros schema schemaName nodes H.
  destruct (ParsedFacts.parseSchema_bases schema schemaName nodes H)
    as (rootNode & created & Hroot & Hcreated & Hbases).
  destruct (ParsedFacts.rootNodeOf_base _ _ _ Hroot) as (Hrid & Hrtype & Hrraw).
  split.
  - intros k node Hin. apply ParsedFacts.in_bases in Hin.
    rewrite Hbases in Hin. apply ParsedFacts.bases_in in Hin.
    destruct Hin as (node0 & Hin0 & Hbase).
    unfold Parsed.base in Hbase. injection Hbase as Hid Hname Htype Hraw.
    destruct (ReadableFacts.addDefinitions_entries _ _ _ Hcreated k node0 Hin0)
      as [[[= -> ->] | []] | (def & Hdef & Hnode)].
    + split; [congruence |]. left.
      split; [reflexivity |]. split; congruence.
    + destruct (ParsedFacts.definitionNodeOf_base _ _ _ Hnode)
        as (Hdid & Hdname & Hdraw).
      split; [congruence |]. right. exists def.
      split; [exact Hdef |]. split; congruence.
  - intros Hnodup.
    rewrite <- ParsedFacts.keys_bases, Hbases, ParsedFacts.keys_bases.
    rewrite (ParsedFacts.addDefinitions_keys _ _ _ Hcreated Hnodup).
    cbn [JsMap.keys List.map fst app]. f_equal.
    apply filter_ext. intros d. unfold JsMap.has. cbn.
    destruct (String.eqb schemaName d); reflexivity.
Qed.

Lemma parseSchema_lists_root_and_definitions_witness :
  JsMap.keys Examples.packageNodes = ["Document"; "Package"; "PackageLink"].
Proof.
  refine (proj2 (parseSchema_lists_root_and_definitions
                   Examples.packageSchema "Document" Examples.packageNodes _)
                _).
  - reflexivity.
  - vm_compute. repeat constructor; cbn; intuition discriminate.
Defined.

Module RefFacts.

Import Words.

Lemma append_assoc (a b c : string) :
  ((a ++ b) ++ c)%string = (a ++ (b ++ c))%string.
Proof.
  induction a as [| x a IH]; cbn; [reflexivity |].
  rewrite IH. reflexivity.
Qed.

Lemma prefix_drop p :
  forall s, String.prefix p s = true ->
            s = (p ++ Str.drop (String.length p) s)%string.
Proof.
  induction p as [| a p IH]; intros s H.
  - destruct s; reflexivity.
  - destruct s as [| b s]; cbn in H; [discriminate H |].
    destruct (ascii_dec a b) as [-> | _]; [| discriminate H].
    cbn. f_equal. apply IH. exact H.
Qed.

Lemma prefix_app p r : String.prefix p (p ++ r) = true.
Proof.
  induction p as [| a p IH]; cbn.
  - destruct r; reflexivity.
  - destruct (ascii_dec a a) as [_ | Hne];
      [exact IH | exfalso; apply Hne; reflexivity].
Qed.

Lemma includes_prefix q s :
  String.prefix q s = true -> Str.includes q s = true.
Proof. intros H. destruct s; cbn [Str.includes]; rewrite H; reflexivity. Qed.

Lemma includes_tail q c s :
  Str.includes q s = true -> Str.includes q (String c s) = true.
Proof.
  intros H. cbn [Str.includes]. rewrite H. apply orb_true_r.
Qed.

Lemma takeWord_split x :
  exists rest, x = (Str.takeWord x ++ rest)%string.
Proof.
  induction x as [| c x [rest IH]]; cbn.
  - exists EmptyString. reflexivity.
  - destruct (Str.isWord c).
    + exists rest. cbn. rewrite <- IH. reflexivity.
    + exists (String c x). reflexivity.
Qed.

Lemma takeWord_allWord x : allWord (Str.takeWord x) = true.
Proof.
  induction x as [| c x IH]; cbn; [reflexivity |].
  destruct (Str.isWord c) eqn:Hc; cbn; [| reflexivity].
  rewrite Hc, IH. reflexivity.
Qed.

Lemma takeWord_stops name rest :
  allWord name = true -> stops rest = true ->
  Str.takeWord (name ++ rest) = name.
Proof.
  intros Hname Hrest. induction name as [| c name IH]; cbn in *.
  - destruct rest as [| c rest]; cbn in *; [reflexivity |].
    apply negb_true_iff in Hrest. rewrite Hrest. reflexivity.
  - apply andb_prop in Hname. destruct Hname as [Hc Hname].
    rewrite Hc, (IH Hname). reflexivity.
Qed.

Lemma matchDefinitions_eq s :
  Str.matchDefinitions s
  = match (if String.prefix "#/definitions/" s
           then if Str.isEmpty (Str.takeWord (Str.drop 14 s)) then None
                else Some (Str.takeWord (Str.drop 14 s))
           else None) with
    | Some w => Some w
    | None =>
        match s with
        | EmptyString => None
        | String _ s' => Str.matchDefinitions s'
        end
    end.
Proof. destruct s; reflexivity. Qed.

Lemma matchDefinitions_sound s :
  forall t,
    Str.matchDefinitions s = Some t ->
    Str.isEmpty t = false /\
    allWord t = true /\
    Str.includes ("#/definitions/" ++ t) s = true.
Proof.
  induction s as [| c s IH]; intros t; rewrite matchDefinitions_eq.
  - cbn. discriminate.
  - pose proof (takeWord_allWord (Str.drop 14 (String c s))) as Hword.
    destruct (takeWord_split (Str.drop 14 (String c s))) as [rest Hrest].
    remember (Str.takeWord (Str.drop 14 (String c s))) as w eqn:Hw.
    destruct (String.prefix "#/definitions/" (String c s)) eqn:Hprefix.
    + destruct (Str.isEmpty w) eqn:Hempty.
      * intros H. destruct (IH t H) as (H1 & H2 & H3).
        split; [exact H1 |]. split; [exact H2 |].
        apply includes_tail. exact H3.
      * intros H. assert (Ht : w = t) by congruence. subst t.
        split; [exact Hempty |]. split; [exact Hword |].
        apply includes_prefix.
        pose proof (prefix_drop _ _ Hprefix) as Hsplit.
        change (String.length "#/definitions/") with 14%nat in Hsplit.
        assert (Hwhole : String c s
                         = (("#/definitions/" ++ w) ++ rest)%string).
        { rewrite append_assoc, <- Hrest. exact Hsplit. }
        rewrite Hwhole. apply prefix_app.
    + intros H. destruct (IH t H) as (H1 & H2 & H3).
      split; [exact H1 |]. split; [exact H2 |].
      apply includes_tail. exact H3.
Qed.

Lemma matchDefinitions_ref name rest :
  Str.isEmpty name = false -> allWord name = true -> stops rest = true ->
  Str.matchDefinitions ("#/definitions/" ++ name ++ rest) = Some name.
Proof.
  intros Hne Hname Hrest. rewrite matchDefinitions_eq.
  rewrite prefix_app.
  change (Str.drop 14 ("#/definitions/" ++ name ++ rest))
    with (name ++ rest)%string.
  rewrite (takeWord_stops name rest Hname Hrest), Hne. reflexivity.
Qed.

End RefFacts.

(** X25. [extractRefTarget] reads the name of a definition off a reference:
    for [#/definitions/<name>] followed by nothing or by a character that
    is not a word character, where the name is a non-empty run of word
    characters, it answers the name, and so does
    [extractAssociationTarget].  Whatever it answers is a non-empty run of
    word characters that the reference holds behind [#/definitions/]; a
    value that is not a string makes it raise. *)
Theorem extractRefTarget_reads_the_definition_name :
  forall (name rest : string),
    Str.isEmpty name = false ->
    Words.allWord name = true ->
    Words.stops rest = true ->
    Parser.extractRefTarget (VStr ("#/definitions/" ++ name ++ rest))
    = Some (Some name) /\
    Parser.extractAssociationTarget
      (VStr ("#/definitions/" ++ name ++ rest))
    = Some (Some name) /\
    (forall v t,
        Parser.extractRefTarget v = Some (Some t) ->
        exists s,
          v = VStr s /\
          Str.isEmpty t = false /\
          Words.allWord t = true /\
          Str.includes ("#/definitions/" ++ t) s = true) /\
    (forall v,
        (forall s, v <> VStr s) -> Parser.extractRefTarget v = None).
Proof.
  intros name rest Hne Hname Hrest.
  unfold Parser.extractRefTarget, Parser.extractAssociationTarget,
    Js.matchDefinitions.
  rewrite (RefFacts.matchDefinitions_ref name rest Hne Hname Hrest).
  split; [reflexivity |]. split; [reflexivity |]. split.
  - intros v t H. destruct v as [| | | | s | |]; try discriminate H.
    exists s. split; [reflexivity |].
    apply RefFacts.matchDefinitions_sound. congruence.
  - intros v Hv. destruct v as [| | | | s | |]; try reflexivity.
    exfalso. exact (Hv s eq_refl).
Qed.

Lemma extractRefTarget_reads_the_definition_name_witness :
  Parser.extractRefTarget (VStr "#/definitions/PackageLink/properties/url")
  = Some (Some "PackageLink").
Proof.
  refine (proj1 (extractRefTarget_reads_the_definition_name
                   "PackageLink" "/properties/url" _ _ _)); reflexivity.
Defined.

Module SlugFacts.

Import Slug.

Lemma every_impl (P Q : ascii -> bool) s :
  (forall c, P c = true -> Q c = true) ->
  every P s = true -> every Q s = true.
Proof.
  intros HPQ. induction s as [| c s IH]; cbn; [reflexivity |].
  intros H. apply andb_prop in H. destruct H as [Hc Hs].
  rewrite (HPQ c Hc), (IH Hs). reflexivity.
Qed.

Lemma lowerChar_notUpper c : Str.isUpper (Str.lowerChar c) = false.
Proof. destruct c as [[] [] [] [] [] [] [] []]; reflexivity. Qed.

Lemma kept_slugChar c :
  (Str.isWord c || Utils.isHyphen c)%bool = true ->
  Str.isUpper c = false -> slugChar c = true.
Proof.
  destruct c as [[] [] [] [] [] [] [] []]; cbn; intros H1 H2;
    first [reflexivity | discriminate H1 | discriminate H2].
Qed.

Lemma slugChar_plain c :
  slugChar c = true ->
  Str.isUpper c = false /\ Str.isSpace c = false /\
  (Str.isWord c || Utils.isHyphen c)%bool = true.
Proof.
  destruct c as [[] [] [] [] [] [] [] []]; cbn; intros H;
    first [discriminate H | repeat split; reflexivity].
Qed.

Lemma toLowerCase_notUpper s :
  every (fun c => negb (Str.isUpper c)) (Str.toLowerCase s) = true.
Proof.
  unfold Str.toLowerCase. induction s as [| c s IH]; cbn; [reflexivity |].
  rewrite lowerChar_notUpper, IH. reflexivity.
Qed.

Lemma trimStart_every P s :
  every P s = true -> every P (Str.trimStart s) = true.
Proof.
  induction s as [| c s IH]; [reflexivity |].
  intros H. cbn [Str.trimStart].
  destruct (Str.isSpace c); [| exact H].
  cbn [every] in H. apply andb_prop in H. apply IH, H.
Qed.

Lemma trimEnd_every P s :
  every P s = true -> every P (Str.trimEnd s) = true.
Proof.
  induction s as [| c s IH]; cbn; [reflexivity |].
  intros H. apply andb_prop in H. destruct H as [Hc Hs].
  specialize (IH Hs). destruct (Str.trimEnd s) as [| d t].
  - destruct (Str.isSpace c); cbn; [reflexivity |].
    rewrite Hc. reflexivity.
  - cbn [every]. rewrite Hc. exact IH.
Qed.

Lemma collapse_every P inClass inRun s :
  P "-"%char = true ->
  every P s = true -> every P (Utils.collapse inClass inRun s) = true.
Proof.
  intros Hh. revert inRun.
  induction s as [| c s IH]; intros inRun; cbn; [reflexivity |].
  intros H. apply andb_prop in H. destruct H as [Hc Hs].
  destruct (inClass c).
  - destruct inRun; [apply IH; exact Hs |].
    cbn. rewrite Hh. apply IH. exact Hs.
  - cbn. rewrite Hc. apply IH. exact Hs.
Qed.

Lemma keep_every P s :
  every P s = true ->
  every (fun c => ((Str.isWord c || Utils.isHyphen c) && P c)%bool)
        (Utils.keepWordOrHyphen s) = true.
Proof.
  induction s as [| c s IH]; cbn; [reflexivity |].
  intros H. apply andb_prop in H. destruct H as [Hc Hs].
  destruct (Str.isWord c || Utils.isHyphen c)%bool eqn:Hkeep;
    [| apply IH; exact Hs].
  cbn. rewrite Hkeep, Hc. apply IH. exact Hs.
Qed.

Lemma stripStart_every P s :
  every P s = true -> every P (Utils.stripStart s) = true.
Proof.
  induction s as [| c s IH]; [reflexivity |].
  intros H. cbn [Utils.stripStart].
  destruct (Utils.isHyphen c); [| exact H].
  cbn [every] in H. apply andb_prop in H. apply IH, H.
Qed.

Lemma stripEnd_every P s :
  every P s = true -> every P (Utils.stripEnd s) = true.
Proof.
  induction s as [| c s IH]; cbn; [reflexivity |].
  intros H. apply andb_prop in H. destruct H as [Hc Hs].
  specialize (IH Hs). destruct (Utils.stripEnd s) as [| d t].
  - destruct (Utils.isHyphen c); cbn; [reflexivity |].
    rewrite Hc. reflexivity.
  - cbn [every]. rewrite Hc. exact IH.
Qed.

(** The hyphens after the runs have been collapsed. *)
Lemma collapse_noDouble inRun s :
  noDouble (Utils.collapse Utils.isHyphen inRun s) = true /\
  (inRun = true ->
   startsHyphen (Utils.collapse Utils.isHyphen inRun s) = false).
Proof.
  revert inRun. induction s as [| c s IH]; intros inRun; cbn.
  - split; reflexivity.
  - destruct (Utils.isHyphen c) eqn:Hc.
    + destruct inRun.
      * apply IH.
      * destruct (IH true) as [Hnd Hstart]. split; [| discriminate].
        cbn. rewrite (Hstart eq_refl), Hnd. reflexivity.
    + destruct (IH false) as [Hnd _]. split.
      * cbn. rewrite Hc, Hnd. reflexivity.
      * intros _. cbn. exact Hc.
Qed.

Lemma stripStart_noDouble s :
  noDouble s = true -> noDouble (Utils.stripStart s) = true.
Proof.
  induction s as [| c s IH]; [reflexivity |].
  intros H. cbn [Utils.stripStart].
  destruct (Utils.isHyphen c); [| exact H].
  cbn [noDouble] in H. apply andb_prop in H. apply IH, H.
Qed.

Lemma stripStart_start s : startsHyphen (Utils.stripStart s) = false.
Proof.
  induction s as [| c s IH]; cbn; [reflexivity |].
  destruct (Utils.isHyphen c) eqn:Hc; [exact IH | exact Hc].
Qed.

Lemma stripEnd_start s :
  startsHyphen s = false -> startsHyphen (Utils.stripEnd s) = false.
Proof.
  destruct s as [| c s]; cbn; [reflexivity |]. intros Hc.
  destruct (Utils.stripEnd s); [rewrite Hc |]; cbn; exact Hc.
Qed.

Lemma stripEnd_starts s :
  startsHyphen (Utils.stripEnd s) = true -> startsHyphen s = true.
Proof.
  destruct s as [| c s]; cbn; [discriminate |].
  destruct (Utils.stripEnd s).
  - destruct (Utils.isHyphen c) eqn:Hc; [reflexivity |].
    cbn. rewrite Hc. exact (fun H => H).
  - exact (fun H => H).
Qed.

Lemma stripEnd_noDouble s :
  noDouble s = true -> noDouble (Utils.stripEnd s) = true.
Proof.
  induction s as [| c s IH]; cbn [Utils.stripEnd noDouble];
    [reflexivity |].
  intros H. apply andb_prop in H. destruct H as [Hpair Hs].
  specialize (IH Hs).
  destruct (Utils.stripEnd s) as [| d t] eqn:Hstrip.
  - destruct (Utils.isHyphen c); cbn; [reflexivity |].
    rewrite andb_false_r. reflexivity.
  - change (noDouble (String c (String d t)))
      with (negb (Utils.isHyphen c && startsHyphen (String d t))
            && noDouble (String d t))%bool.
    rewrite IH, andb_true_r.
    destruct (Utils.isHyphen c) eqn:Hc; [| reflexivity].
    cbn [andb] in Hpair |- *. apply negb_true_iff in Hpair.
    destruct (startsHyphen (String d t)) eqn:Hd; [| reflexivity].
    rewrite <- Hstrip in Hd. apply stripEnd_starts in Hd.
    rewrite Hd in Hpair. discriminate Hpair.
Qed.

Lemma stripEnd_end s : endsHyphen (Utils.stripEnd s) = false.
Proof.
  induction s as [| c s IH]; cbn [Utils.stripEnd]; [reflexivity |].
  destruct (Utils.stripEnd s) as [| d t].
  - destruct (Utils.isHyphen c) eqn:Hc; cbn; [reflexivity | exact Hc].
  - exact IH.
Qed.

(** What the passes do to a string that is a slug already. *)
Lemma toLowerCase_fixed s :
  every (fun c => negb (Str.isUpper c)) s = true -> Str.toLowerCase s = s.
Proof.
  unfold Str.toLowerCase. induction s as [| c s IH]; cbn; [reflexivity |].
  intros H. apply andb_prop in H. destruct H as [Hc Hs].
  apply negb_true_iff in Hc. rewrite (IH Hs). unfold Str.lowerChar.
  rewrite Hc. reflexivity.
Qed.

Lemma trimStart_fixed s :
  every (fun c => negb (Str.isSpace c)) s = true -> Str.trimStart s = s.
Proof.
  destruct s as [| c s]; cbn; [reflexivity |].
  intros H. apply andb_prop in H. destruct H as [Hc _].
  apply negb_true_iff in Hc. rewrite Hc. reflexivity.
Qed.

Lemma trimEnd_fixed s :
  every (fun c => negb (Str.isSpace c)) s = true -> Str.trimEnd s = s.
Proof.
  induction s as [| c s IH]; cbn; [reflexivity |].
  intros H. apply andb_prop in H. destruct H as [Hc Hs].
  apply negb_true_iff in Hc. rewrite (IH Hs), Hc.
  destruct s; reflexivity.
Qed.

Lemma collapse_spaces_fixed inRun s :
  every (fun c => negb (Str.isSpace c)) s = true ->
  Utils.collapse Str.isSpace inRun s = s.
Proof.
  revert inRun. induction s as [| c s IH]; intros inRun; cbn;
    [reflexivity |].
  intros H. apply andb_prop in H. destruct H as [Hc Hs].
  apply negb_true_iff in Hc. rewrite Hc, (IH false Hs). reflexivity.
Qed.

Lemma keep_fixed s :
  every (fun c => (Str.isWord c || Utils.isHyphen c)%bool) s = true ->
  Utils.keepWordOrHyphen s = s.
Proof.
  induction s as [| c s IH]; cbn; [reflexivity |].
  intros H. apply andb_prop in H. destruct H as [Hc Hs].
  rewrite Hc, (IH Hs). reflexivity.
Qed.

Lemma collapse_hyphens_fixed inRun s :
  noDouble s = true ->
  (inRun = true -> startsHyphen s = false) ->
  Utils.collapse Utils.isHyphen inRun s = s.
Proof.
  revert inRun. induction s as [| c s IH]; intros inRun; cbn;
    [reflexivity |].
  intros H Hstart. apply andb_prop in H. destruct H as [Hpair Hs].
  destruct (Utils.isHyphen c) eqn:Hc.
  - destruct inRun; [discriminate (Hstart eq_refl) |].
    cbn [andb] in Hpair. apply negb_true_iff in Hpair.
    rewrite (IH true Hs (fun _ => Hpair)).
    unfold Utils.isHyphen in Hc. apply Ascii.eqb_eq in Hc. subst c.
    reflexivity.
  - rewrite (IH false Hs); [reflexivity | discriminate].
Qed.

Lemma stripStart_fixed s :
  startsHyphen s = false -> Utils.stripStart s = s.
Proof.
  destruct s as [| c s]; cbn; [reflexivity |]. intros ->. reflexivity.
Qed.

Lemma stripEnd_fixed s : endsHyphen s = false -> Utils.stripEnd s = s.
Proof.
  induction s as [| c s IH]; cbn [Utils.stripEnd endsHyphen];
    [reflexivity |].
  destruct s as [| d s].
  - cbn. intros ->. reflexivity.
  - intros H. rewrite (IH H). reflexivity.
Qed.

Lemma toSlug_clean text : clean (Utils.toSlug text) = true.
Proof.
  unfold Utils.toSlug. destruct (Str.isEmpty text); [reflexivity |].
  set (kept := Utils.keepWordOrHyphen
                 (Utils.collapse Str.isSpace false
                    (Str.trim (Str.toLowerCase text)))).
  assert (Hkept : every slugChar kept = true).
  { subst kept.
    apply every_impl
      with (P := fun c => ((Str.isWord c || Utils.isHyphen c)
                           && negb (Str.isUpper c))%bool).
    - intros c H. apply andb_prop in H. destruct H as [Hk Hu].
      apply negb_true_iff in Hu. apply kept_slugChar; assumption.
    - apply keep_every. apply collapse_every; [reflexivity |].
      unfold Str.trim. apply trimEnd_every, trimStart_every.
      apply toLowerCase_notUpper. }
  destruct (collapse_noDouble false kept) as [Hnd _].
  unfold clean.
  rewrite stripEnd_every, stripEnd_noDouble, stripEnd_start, stripEnd_end;
    try reflexivity.
  - apply stripStart_start.
  - apply stripStart_noDouble. exact Hnd.
  - apply stripStart_every. apply collapse_every; [reflexivity |].
    exact Hkept.
Qed.

Lemma toSlug_fixed s : clean s = true -> Utils.toSlug s = s.
Proof.
  unfold clean. intros H.
  apply andb_prop in H. destruct H as [H Hend].
  apply andb_prop in H. destruct H as [H Hstart].
  apply andb_prop in H. destruct H as [Hchars Hnd].
  apply negb_true_iff in Hend, Hstart.
  unfold Utils.toSlug. destruct (Str.isEmpty s) eqn:Hempty.
  - destruct s; [reflexivity | discriminate Hempty].
  - assert (Hupper : every (fun c => negb (Str.isUpper c)) s = true).
    { apply every_impl with (P := slugChar); [| exact Hchars].
      intros c Hc. destruct (slugChar_plain c Hc) as (-> & _).
      reflexivity. }
    assert (Hspace : every (fun c => negb (Str.isSpace c)) s = true).
    { apply every_impl with (P := slugChar); [| exact Hchars].
      intros c Hc. destruct (slugChar_plain c Hc) as (_ & -> & _).
      reflexivity. }
    assert (Hkeep : every (fun c => (Str.isWord c || Utils.isHyphen c)%bool)
                          s = true).
    { apply every_impl with (P := slugChar); [| exact Hchars].
      intros c Hc. apply (slugChar_plain c Hc). }
    rewrite (toLowerCase_fixed s Hupper). unfold Str.trim.
    rewrite (trimStart_fixed s Hspace), (trimEnd_fixed s Hspace).
    rewrite (collapse_spaces_fixed false s Hspace), (keep_fixed s Hkeep).
    rewrite (collapse_hyphens_fixed false s Hnd) by discriminate.
    rewrite (stripStart_fixed s Hstart). apply stripEnd_fixed. exact Hend.
Qed.

End SlugFacts.

(** X26. [toSlug] answers a slug whatever text it is given: the result is
    made of lower-case letters, digits, underscores and hyphens, has no
    hyphen at either end and no two hyphens in a row.  A string of that
    form is its own slug, so [toSlug] applied twice gives what it gives
    applied once. *)
Theorem toSlug_answers_a_slug :
  forall text : string,
    Slug.clean (Utils.toSlug text) = true /\
    (Slug.clean text = true -> Utils.toSlug text = text) /\
    Utils.toSlug (Utils.toSlug text) = Utils.toSlug text.
Proof.
  intros text. split; [apply SlugFacts.toSlug_clean |].
  split; [apply SlugFacts.toSlug_fixed |].
  apply SlugFacts.toSlug_fixed, SlugFacts.toSlug_clean.
Qed.

Module NameFacts.

Import Slug.
Import Names.

Lemma space_is_blank c :
  plainSpace c = true -> Str.isSpace c = true -> Ascii.eqb c " " = true.
Proof.
  unfold plainSpace. intros H Hs. rewrite Hs in H. exact H.
Qed.

Lemma noSpace_facts c :
  noSpace c = true ->
  Ascii.eqb c " " = false /\
  Str.isLineTerminator c = false /\
  Ascii.eqb (Str.upperChar c) " " = false /\
  (Str.isUpper c = true -> Str.upperChar c = c).
Proof.
  destruct c as [[] [] [] [] [] [] [] []]; cbn; intros H;
    first [discriminate H
          | repeat split; first [reflexivity | intros Hf; discriminate Hf]].
Qed.

Lemma unspace_trimStart s :
  every plainSpace s = true ->
  unspace (Str.trimStart s) = unspace s.
Proof.
  induction s as [| c s IH]; [reflexivity |].
  intros H. cbn [every] in H. apply andb_prop in H.
  destruct H as [Hc Hs]. cbn [Str.trimStart].
  destruct (Str.isSpace c) eqn:Hspace; [| reflexivity].
  cbn [unspace]. rewrite (space_is_blank c Hc Hspace). apply IH, Hs.
Qed.

Lemma unspace_trimEnd s :
  every plainSpace s = true ->
  unspace (Str.trimEnd s) = unspace s.
Proof.
  induction s as [| c s IH]; [reflexivity |].
  intros H. cbn [every] in H. apply andb_prop in H.
  destruct H as [Hc Hs]. specialize (IH Hs).
  cbn [Str.trimEnd unspace]. rewrite <- IH.
  destruct (Str.trimEnd s) as [| d t]; [| reflexivity].
  destruct (Str.isSpace c) eqn:Hspace.
  - rewrite (space_is_blank c Hc Hspace). reflexivity.
  - reflexivity.
Qed.

Lemma trimStart_plain s :
  every plainSpace s = true -> every plainSpace (Str.trimStart s) = true.
Proof. apply SlugFacts.trimStart_every. Qed.

Lemma spaceBeforeUpper_plain s :
  every noSpace s = true ->
  every plainSpace (Utils.spaceBeforeUpper s) = true.
Proof.
  induction s as [| c s IH]; [reflexivity |].
  intros H. cbn [every] in H. apply andb_prop in H.
  destruct H as [Hc Hs]. cbn [Utils.spaceBeforeUpper].
  assert (Hp : plainSpace c = true).
  { unfold plainSpace. unfold noSpace in Hc. rewrite Hc. reflexivity. }
  destruct (Str.isUpper c); cbn [every]; rewrite Hp, (IH Hs); reflexivity.
Qed.

Lemma unspace_spaceBeforeUpper s :
  every noSpace s = true -> unspace (Utils.spaceBeforeUpper s) = s.
Proof.
  induction s as [| c s IH]; [reflexivity |].
  intros H. cbn [every] in H. apply andb_prop in H.
  destruct H as [Hc Hs]. cbn [Utils.spaceBeforeUpper].
  destruct (noSpace_facts c Hc) as (Hblank & _).
  destruct (Str.isUpper c); cbn [unspace];
    change (Ascii.eqb " " " ") with true; cbv iota;
    rewrite Hblank, (IH Hs); reflexivity.
Qed.

Lemma upperFirst_plain s :
  every plainSpace s = true -> every plainSpace (Utils.upperFirst s) = true.
Proof.
  destruct s as [| c s]; [reflexivity |]. cbn [Utils.upperFirst].
  destruct (Str.isLineTerminator c); [exact (fun H => H) |].
  cbn [every]. intros H. apply andb_prop in H. destruct H as [Hc Hs].
  rewrite Hs, andb_true_r. revert Hc.
  destruct c as [[] [] [] [] [] [] [] []]; cbn; intros Hc;
    first [reflexivity | discriminate Hc].
Qed.

Lemma unspace_upperFirst s :
  every noSpace s = true ->
  unspace (Utils.upperFirst (Utils.spaceBeforeUpper s)) = capitalise s.
Proof.
  destruct s as [| c s]; [reflexivity |].
  intros H. cbn [every] in H. apply andb_prop in H.
  destruct H as [Hc Hs].
  destruct (noSpace_facts c Hc) as (Hblank & Hline & Hup & Hsame).
  cbn [Utils.spaceBeforeUpper capitalise].
  destruct (Str.isUpper c) eqn:Hupper.
  - rewrite (Hsame eq_refl).
    change (Utils.upperFirst
              (String " " (String c (Utils.spaceBeforeUpper s))))
      with (String " " (String c (Utils.spaceBeforeUpper s))).
    cbn [unspace]. change (Ascii.eqb " " " ") with true. cbv iota.
    rewrite Hblank, (unspace_spaceBeforeUpper s Hs). reflexivity.
  - cbn [Utils.upperFirst]. rewrite Hline. cbn [unspace].
    rewrite Hup, (unspace_spaceBeforeUpper s Hs). reflexivity.
Qed.

End NameFacts.

(** X27. [formatName] keeps the characters of an identifier: for a name
    of ASCII characters without white space, the display name without its
    spaces is the name with its first character in upper case, so
    [formatName] only inserts spaces and capitalises the first
    character. *)
Theorem formatName_keeps_the_identifier :
  forall name : string,
    Letters.plain name = true ->
    Slug.every Names.noSpace name = true ->
    Names.unspace (Utils.formatName name) = Names.capitalise name.
Proof.
  intros name _ Hname. unfold Utils.formatName, Str.trim.
  pose proof (NameFacts.spaceBeforeUpper_plain name Hname) as Hplain.
  apply NameFacts.upperFirst_plain in Hplain.
  rewrite NameFacts.unspace_trimEnd
    by (apply NameFacts.trimStart_plain; exact Hplain).
  rewrite (NameFacts.unspace_trimStart _ Hplain).
  apply NameFacts.unspace_upperFirst. exact Hname.
Qed.

Lemma formatName_keeps_the_identifier_witness :
  Utils.formatName "packageLink" = "Package Link"%string /\
  Names.unspace (Utils.formatName "packageLink") = "PackageLink"%string.
Proof.
  split; [reflexivity |].
  refine (formatName_keeps_the_identifier "packageLink" _ _); reflexivity.
Defined.
